(** * piping-server: the rendezvous engine of [src/piping.ts]

    A shallow embedding of the [Server] class of [src/piping.ts] and of the
    part of the Node.js runtime it drives (responses, event listeners,
    connections), followed by the properties of the rendezvous state
    machine.

    Conventions of the embedding.
    - A JavaScript object with identity (a [{req, res}] pair) is a record
      carrying a connection number; [===] on such objects compares the
      numbers.
    - The two dictionaries of the class are [gmap string _]; [k in d] is
      [is_Some (d !! k)] and [delete d[k]] is [delete k d].
    - The JavaScript numbers of the source are the results of [parseInt]
      and the lengths of arrays: doubles whose value is an integer, or an
      infinity.  Such a double is the [Z] of its value, and [Infinity] and
      [-Infinity] are [2^1024] and [-2^1024]: the source only compares
      and prints its numbers, and [<=], [<] and [===] are then those of
      [Z].  [parseInt] rounds what it reads to a double and a template
      literal prints a double as [Number.prototype.toString] does.
    - A JavaScript string is a [string] whose characters are the code
      units below 256.
    - Closures are defunctionalised: a listener is a constructor of
      [Handler] holding the variables the closure captured.
    - [console.log] calls (guarded by [enableLog]) have no effect on the
      state modelled here and are left out. *)

From Stdlib Require Import ZArith Ascii String DecimalString DecimalZ.
From stdpp Require Import gmap strings list fin_maps.

Local Open Scope string_scope.
Local Open Scope Z_scope.

(** ** JavaScript primitives used by the source *)

Module JS.

(** The line feed of the template literals. *)
Definition nl : string := String (ascii_of_nat 10) EmptyString.

(** [Infinity], as an integer above every finite double. *)
Definition Infinity : Z := 2 ^ 1024.

(** The Number value of a natural number: itself below 2^53; beyond, the
    nearest multiple of the spacing [2^e] of the doubles around it, a tie
    going to the even significand, and [Infinity] when that is 2^1024 or
    more. *)
Definition round_double (a : Z) : Z :=
  if a <? 2 ^ 53 then a
  else
    let e := Z.log2 a - 52 in
    let q := a / 2 ^ e in
    let r := a mod 2 ^ e in
    let q := if (2 ^ (e - 1) <? r) || ((r =? 2 ^ (e - 1)) && Z.odd q) then q + 1 else q in
    Z.min (q * 2 ^ e) Infinity.

(** The Number value of an integer. *)
Definition to_double (z : Z) : Z := Z.sgn z * round_double (Z.abs z).

(** The decimal writing of an integer. *)
Definition decimal (z : Z) : string := NilZero.string_of_int (Z.to_int z).

(** The decimal [s * 10^m] denotes the double [x]: it rounds to it. *)
Definition denotes (x s m : Z) : bool := (0 <? s) && (to_double (s * 10 ^ m) =? x).

(** Among the two multiples of [10^m] around [x], one that denotes [x]:
    the closer one when both do, the even one when they are as close. *)
Definition pick (x m : Z) : option Z :=
  let lo := x / 10 ^ m in
  let hi := lo + 1 in
  match denotes x lo m, denotes x hi m with
  | true, true =>
      let dl := x - lo * 10 ^ m in
      let dh := hi * 10 ^ m - x in
      Some (if dl <? dh then lo else if dh <? dl then hi else if Z.even lo then lo else hi)
  | true, false => Some lo
  | false, true => Some hi
  | false, false => None
  end.

(** The shortest decimal [s * 10^m] that denotes the double [x]: the
    largest power of ten, from [10^m] down, a multiple of which does.  A
    double denotes itself, which ends the search at [10^0] at the latest. *)
Fixpoint shortest (x : Z) (m : nat) : Z * Z :=
  match pick x (Z.of_nat m) with
  | Some s => (s, Z.of_nat m)
  | None =>
      match m with
      | O => (x, 0)
      | S m' => shortest x m'
      end
  end.

Fixpoint zeros (n : nat) : string :=
  match n with
  | O => EmptyString
  | S n => String "0" (zeros n)
  end.

(** [Number.prototype.toString] for a positive number: with the shortest
    digits [s] and [n] the number of digits of [s * 10^m], the digits
    followed by zeros when [n <= 21], and else the exponent notation. *)
Definition positive_to_string (x : Z) : string :=
  if Infinity <=? x then "Infinity"
  else
    let '(s, m) := shortest x (String.length (decimal x)) in
    let ds := decimal s in
    let n := Z.of_nat (String.length ds) + m in
    if n <=? 21 then ds +:+ zeros (Z.to_nat m)
    else
      match ds with
      | String c EmptyString => ds +:+ "e+" +:+ decimal (n - 1)
      | String c r => String c ("." +:+ r) +:+ "e+" +:+ decimal (n - 1)
      | EmptyString => ds
      end.

(** [`${n}`] for a number: [Number.prototype.toString] in radix 10. *)
Definition string_of_number (z : Z) : string :=
  if z =? 0 then "0"
  else if z <? 0 then "-" +:+ positive_to_string (- z)
  else positive_to_string z.

(** [String.prototype.includes]. *)
Definition includes (s sub : string) : bool :=
  match String.index 0 sub s with
  | Some _ => true
  | None => false
  end.

(** White space skipped by [parseInt]: the characters of StrWhiteSpaceChar
    below 256, that is TAB, LF, VT, FF, CR, SP and NBSP. *)
Definition is_white (c : ascii) : bool :=
  let n := nat_of_ascii c in
  ((9 <=? n)%nat && (n <=? 13)%nat) || (n =? 32)%nat || (n =? 160)%nat.

Fixpoint trim_start (s : string) : string :=
  match s with
  | String c r => if is_white c then trim_start r else s
  | EmptyString => s
  end.

Fixpoint all_white (s : string) : bool :=
  match s with
  | String c r => is_white c && all_white r
  | EmptyString => true
  end.

Definition digit_of (c : ascii) : option Z :=
  let n := nat_of_ascii c in
  if ((48 <=? n)%nat && (n <=? 57)%nat) then Some (Z.of_nat (n - 48)) else None.

(** The longest prefix of decimal digits, read left to right: [acc] is the
    value read so far, [seen] tells whether a digit was read. *)
Fixpoint digits (s : string) (acc : Z) (seen : bool) : option Z :=
  match s with
  | String c r =>
      match digit_of c with
      | Some d => digits r (10 * acc + d) true
      | None => if seen then Some acc else None
      end
  | EmptyString => if seen then Some acc else None
  end.

(** The value of a decimal numeral read from the left, as [digits] does. *)
Fixpoint horner (d : Decimal.uint) (acc : Z) : Z :=
  match d with
  | Decimal.Nil => acc
  | Decimal.D0 l => horner l (10 * acc + 0)
  | Decimal.D1 l => horner l (10 * acc + 1)
  | Decimal.D2 l => horner l (10 * acc + 2)
  | Decimal.D3 l => horner l (10 * acc + 3)
  | Decimal.D4 l => horner l (10 * acc + 4)
  | Decimal.D5 l => horner l (10 * acc + 5)
  | Decimal.D6 l => horner l (10 * acc + 6)
  | Decimal.D7 l => horner l (10 * acc + 7)
  | Decimal.D8 l => horner l (10 * acc + 8)
  | Decimal.D9 l => horner l (10 * acc + 9)
  end.

(** [parseInt(s, 10)]; [None] is NaN.  Leading white space is skipped, one
    sign is read, then the longest run of digits; what follows is ignored.
    With radix 10 no [0x] prefix is stripped.  The result is the Number
    value of the signed integer read. *)
Definition parseInt10 (s : string) : option Z :=
  match trim_start s with
  | String c r =>
      if Ascii.eqb c "-" then (λ m, to_double (- m)) <$> digits r 0 false
      else if Ascii.eqb c "+" then to_double <$> digits r 0 false
      else to_double <$> digits (String c r) 0 false
  | EmptyString => None
  end.

(** The string begins with a decimal digit. *)
Definition starts_digit (s : string) : bool :=
  match s with
  | String c _ => match digit_of c with Some _ => true | None => false end
  | EmptyString => false
  end.

(** The string begins, after white space and at most one sign, with a
    decimal digit. *)
Definition starts_number (s : string) : bool :=
  match trim_start s with
  | String c r =>
      if Ascii.eqb c "-" || Ascii.eqb c "+" then starts_digit r
      else starts_digit (String c r)
  | EmptyString => false
  end.

(** A decimal integer literal: an optional sign and one or more digits,
    nothing else. *)
Fixpoint all_digits (s : string) : bool :=
  match s with
  | String c r => match digit_of c with Some _ => all_digits r | None => false end
  | EmptyString => true
  end.

Definition is_integer_literal (s : string) : bool :=
  match s with
  | String c r =>
      if Ascii.eqb c "-" || Ascii.eqb c "+" then starts_digit r && all_digits r
      else all_digits s
  | EmptyString => false
  end.

(** Values of a property of a parsed query ([ParsedUrlQuery]):
    absent, one string, or an array of strings for a repeated key. *)
Inductive QueryValue :=
| QUndefined
| QString (s : string)
| QArray (l : list string).

Fixpoint join (sep : string) (l : list string) : string :=
  match l with
  | [] => ""
  | [x] => x
  | x :: r => x ++ sep ++ join sep r
  end.

(** [ToString], applied by [parseInt] to its argument. *)
Definition toString (v : QueryValue) : string :=
  match v with
  | QUndefined => "undefined"
  | QString s => s
  | QArray l => join "," l
  end.

(** Splitting at ["/"]. *)
Fixpoint split_slash (s : string) (cur : string) : list string :=
  match s with
  | String c r =>
      if Ascii.eqb c "/" then cur :: split_slash r ""
      else split_slash r (cur ++ String c "")
  | EmptyString => [cur]
  end.

(** Node's [normalizeString] for an absolute POSIX path: empty segments
    and ["."] vanish, [".."] drops the previous segment and stops at the
    root.  [out] is the reversed list of segments kept so far. *)
Fixpoint normalize (segs : list string) (out : list string) : list string :=
  match segs with
  | [] => rev out
  | seg :: r =>
      if String.eqb seg "" || String.eqb seg "." then normalize r out
      else if String.eqb seg ".." then normalize r (tail out)
      else normalize r (seg :: out)
  end.

(** [path.resolve("/", p)] on POSIX. *)
Definition path_resolve_root (p : string) : string :=
  "/" ++ join "/" (normalize (split_slash p "") []).

(** [s.replace(/\/$/, "")]: one trailing slash removed. *)
Fixpoint strip_trailing_slash (s : string) : string :=
  match s with
  | String c EmptyString => if Ascii.eqb c "/" then "" else s
  | String c r => String c (strip_trailing_slash r)
  | EmptyString => s
  end.

End JS.

Local Open Scope list_scope.

(** ** Data model *)

(** What the handlers read of an [http.IncomingMessage]: the method, the
    two components of [url.parse(req.url, true)] they use ([pathname] and
    [query.n]) and four headers.  The helpers [opt] and [optMap] of
    [./utils] only unwrap optional values: a request has a URL and a
    path name, and they are left out. *)
Record Request := mkRequest {
  method : string;
  pathname : string;
  query_n : JS.QueryValue;
  content_type : option string;
  content_length : option string;
  host : option string;
  x_forwarded_proto : option string
}.

(** [type ReqRes = {req, res}].  The pair is one object per incoming
    request; [conn] is its identity and the key of its response. *)
Record ReqRes := mkReqRes { conn : nat; req : Request }.

(** The first part of a multipart body, as [multiparty] hands it over. *)
Record Part := mkPart {
  byteCount : option Z;
  part_content_type : option string
}.

Inductive RemoverType := sender_type | receiver_type.

(** Event emitters of the runtime: the request of a connection, the
    [multiparty.Form] and the part of a transfer. *)
Inductive Emitter :=
| OnReq (c : nat)
| OnForm (t : nat)
| OnPart (t : nat).

Inductive EventName := ev_close | ev_error | ev_end | ev_part.

(** The closures the source installs as listeners.  [closeListener] is the
    one of [createSenderOrReceiver], with its three captured variables; the
    others belong to the invocation [t] of [runPipe] and read its frame. *)
Inductive Handler :=
| closeListener (removerType : RemoverType) (receiverReqRes : ReqRes) (reqPath : string)
| resolvePart (t : nat)
| receiverOnClose (t : nat) (receiver : ReqRes)
| receiverOnError (t : nat) (receiver : ReqRes)
| senderDataOnClose (t : nat)
| senderDataOnEnd (t : nat)
| senderDataOnError (t : nat).

Record Listener := mkListener {
  on_emitter : Emitter;
  on_event : EventName;
  once : bool;
  handler : Handler
}.

#[global] Instance QueryValue_eq_dec : EqDecision JS.QueryValue.
Proof. solve_decision. Defined.
#[global] Instance Request_eq_dec : EqDecision Request.
Proof. solve_decision. Defined.
#[global] Instance ReqRes_eq_dec : EqDecision ReqRes.
Proof. solve_decision. Defined.
#[global] Instance RemoverType_eq_dec : EqDecision RemoverType.
Proof. solve_decision. Defined.
#[global] Instance Emitter_eq_dec : EqDecision Emitter.
Proof. solve_decision. Defined.
#[global] Instance EventName_eq_dec : EqDecision EventName.
Proof. solve_decision. Defined.
#[global] Instance Handler_eq_dec : EqDecision Handler.
Proof. solve_decision. Defined.

(** [type ReqResAndUnsubscribe].  The closure [unsubscribeCloseListener]
    removes one listener from the ["close"] listeners of [reqRes.req]; the
    field holds that listener. *)
Record ReqResAndUnsubscribe := mkRRU {
  reqRes : ReqRes;
  unsubscribeCloseListener : Handler
}.

(** [type UnestablishedPipe]. *)
Record UnestablishedPipe := mkUnestablished {
  sender : option ReqResAndUnsubscribe;
  receivers : list ReqResAndUnsubscribe;
  nReceivers : Z
}.

(** [type Pipe]. *)
Record Pipe := mkPipe {
  pipe_sender : ReqRes;
  pipe_receivers : list ReqRes
}.

(** The two private dictionaries of [class Server]. *)
Record Server := mkServer {
  pathToEstablished : gmap string bool;
  pathToUnestablishedPipe : gmap string UnestablishedPipe
}.

(** An [http.ServerResponse]: the status code (200 until [writeHead]
    changes it), whether [writeHead] was called, the headers given to it,
    the chunks passed to [write] and [end], and whether [end] was called. *)
Record Response := mkResponse {
  statusCode : Z;
  headWritten : bool;
  resHeaders : list (string * string);
  body : list string;
  finished : bool
}.

Definition newResponse : Response := mkResponse 200 false [] [] false.

(** The frame of one invocation of [runPipe]: its arguments, the source
    stream once it is known ([None] while the multipart promise is
    pending), the counter [closeCount], and the receivers whose
    pass-through stream is piped from the source. *)
Record Transfer := mkTransfer {
  t_path : string;
  t_pipe : Pipe;
  t_senderData : option Emitter;
  closeCount : Z;
  piped : list nat
}.

(** The part of the Node.js runtime the server acts on. *)
Record Node := mkNode {
  responses : gmap nat Response;
  destroyed : gset nat;
  listeners : list Listener;
  transfers : gmap nat Transfer;
  nextConn : nat;
  nextTransfer : nat
}.

Record World := mkWorld { server : Server; node : Node }.

Definition init : World :=
  mkWorld (mkServer ∅ ∅) (mkNode ∅ ∅ [] ∅ 0 0).

(** ** Runtime operations *)

Definition on_server (f : Server → Server) (w : World) : World :=
  mkWorld (f (server w)) (node w).

Definition on_node (f : Node → Node) (w : World) : World :=
  mkWorld (server w) (f (node w)).

Definition set_established (f : gmap string bool → gmap string bool) : World → World :=
  on_server (λ s, mkServer (f (pathToEstablished s)) (pathToUnestablishedPipe s)).

Definition set_unestablished
    (f : gmap string UnestablishedPipe → gmap string UnestablishedPipe) : World → World :=
  on_server (λ s, mkServer (pathToEstablished s) (f (pathToUnestablishedPipe s))).

Definition set_responses (f : gmap nat Response → gmap nat Response) : World → World :=
  on_node (λ n, mkNode (f (responses n)) (destroyed n) (listeners n) (transfers n)
                       (nextConn n) (nextTransfer n)).

Definition set_listeners (f : list Listener → list Listener) : World → World :=
  on_node (λ n, mkNode (responses n) (destroyed n) (f (listeners n)) (transfers n)
                       (nextConn n) (nextTransfer n)).

Definition set_transfers (f : gmap nat Transfer → gmap nat Transfer) : World → World :=
  on_node (λ n, mkNode (responses n) (destroyed n) (listeners n) (f (transfers n))
                       (nextConn n) (nextTransfer n)).

(** [res.writeHead(code, headers)]. *)
Definition writeHead (c : nat) (code : Z) (hs : list (string * string)) : World → World :=
  set_responses (alter (λ r, mkResponse code true hs (body r) (finished r)) c).

(** [res.write(chunk)]; nothing is written once the response has ended. *)
Definition write (c : nat) (chunk : string) : World → World :=
  set_responses (alter (λ r,
    if finished r then r
    else mkResponse (statusCode r) (headWritten r) (resHeaders r) (body r ++ [chunk]) false) c).

(** [res.end(chunk)]; a second [end] does nothing. *)
Definition end_ (c : nat) (chunk : string) : World → World :=
  set_responses (alter (λ r,
    if finished r then r
    else mkResponse (statusCode r) (headWritten r) (resHeaders r) (body r ++ [chunk]) true) c).

(** [req.connection.destroy()] and [res.connection.destroy()]: the socket of
    the pair.  [res.connection] is [null] once the response has finished,
    and the call then throws; the embedding has [destroy] total, and the
    one listener that calls it on [res.connection] is specified for a
    transfer whose sender has not been answered, when no response of a
    receiver has finished. *)
Definition destroy (c : nat) : World → World :=
  on_node (λ n, mkNode (responses n) ({[c]} ∪ destroyed n) (listeners n) (transfers n)
                       (nextConn n) (nextTransfer n)).

(** [emitter.on(event, h)] and [emitter.once(event, h)]. *)
Definition addListener (e : Emitter) (ev : EventName) (o : bool) (h : Handler) : World → World :=
  set_listeners (λ ls, ls ++ [mkListener e ev o h]).

(** Removing the most recently added instance of a listener from a list
    given most recent first. *)
Fixpoint remove_first (e : Emitter) (ev : EventName) (h : Handler)
    (ls : list Listener) : list Listener :=
  match ls with
  | [] => []
  | l :: r =>
      if decide (on_emitter l = e ∧ on_event l = ev ∧ handler l = h) then r
      else l :: remove_first e ev h r
  end.

(** [emitter.removeListener(event, h)]. *)
Definition removeListener (e : Emitter) (ev : EventName) (h : Handler) : World → World :=
  set_listeners (λ ls, rev (remove_first e ev h (rev ls))).

(** Calling the closure [unsubscribeCloseListener] of a participant. *)
Definition unsubscribe (r : ReqResAndUnsubscribe) : World → World :=
  removeListener (OnReq (conn (reqRes r))) ev_close (unsubscribeCloseListener r).

(** ** The source, function by function *)

(** [getPipeIfEstablished]: the pipe when the sender is there and the
    receivers are as many as expected.  Mapping over the receivers calls
    the [unsubscribeCloseListener] of each of them, in order; the sender's
    is not called. *)
Definition getPipeIfEstablished (p : UnestablishedPipe) (w : World) : option Pipe * World :=
  match sender p with
  | Some s =>
      if decide (Z.of_nat (length (receivers p)) = nReceivers p) then
        (Some (mkPipe (reqRes s) (map reqRes (receivers p))),
         foldl (λ w r, unsubscribe r w) w (receivers p))
      else (None, w)
  | None => (None, w)
  end.

(** [nanOrElse]. *)
Definition nanOrElse (a : option Z) (b : Z) : Z :=
  match a with
  | None => b
  | Some z => z
  end.

Definition NAME_TO_RESERVED_PATH_index : string := "/".
Definition NAME_TO_RESERVED_PATH_version : string := "/version".
Definition NAME_TO_RESERVED_PATH_help : string := "/help".

Definition RESERVED_PATHS : list string :=
  [NAME_TO_RESERVED_PATH_index; NAME_TO_RESERVED_PATH_version; NAME_TO_RESERVED_PATH_help].

(** [Server.getNReceivers], on the parsed query. *)
Definition getNReceivers (r : Request) : Z :=
  nanOrElse (JS.parseInt10 (JS.toString (query_n r))) 1.

(** The closure [closeListener] of [createSenderOrReceiver]. *)
Definition runCloseListener (removerType : RemoverType) (receiverReqRes : ReqRes)
    (reqPath : string) (w : World) : World :=
  match pathToUnestablishedPipe (server w) !! reqPath with
  | Some unestablishedPipe =>
      let '(removed, up) :=
        match removerType with
        | sender_type =>
            match sender unestablishedPipe with
            | Some _ =>
                (true, mkUnestablished None (receivers unestablishedPipe)
                                       (nReceivers unestablishedPipe))
            | None => (false, unestablishedPipe)
            end
        | receiver_type =>
            match list_find (λ r, conn (reqRes r) = conn receiverReqRes)
                            (receivers unestablishedPipe) with
            | Some (idx, _) =>
                (true, mkUnestablished (sender unestablishedPipe)
                                       (delete idx (receivers unestablishedPipe))
                                       (nReceivers unestablishedPipe))
            | None => (false, unestablishedPipe)
            end
        end in
      if removed then
        if decide (length (receivers up) = 0%nat ∧ sender up = None) then
          set_unestablished (delete reqPath) w
        else set_unestablished (<[reqPath := up]>) w
      else w
  | None => w
  end.

(** [createSenderOrReceiver]: installs [closeListener] once on the
    ["close"] event of the request and returns the pair with the closure
    that removes it. *)
Definition createSenderOrReceiver (removerType : RemoverType) (rr : ReqRes)
    (reqPath : string) (w : World) : ReqResAndUnsubscribe * World :=
  let h := closeListener removerType rr reqPath in
  (mkRRU rr h, addListener (OnReq (conn rr)) ev_close true h w).

(** The headers written to a receiver in [runPipe]. *)
Definition receiverHeaders (snd : ReqRes) (part : option Part) : list (string * string) :=
  match part with
  | None =>
      match content_length (req snd) with
      | None => []
      | Some v => [("Content-Length", v)]
      end ++
      match content_type (req snd) with
      | None => []
      | Some v => [("Content-Type", v)]
      end
  | Some p =>
      match byteCount p with
      | None => []
      | Some n => [("Content-Length", JS.string_of_number n)]
      end ++
      match part_content_type p with
      | None => []
      | Some v => [("Content-Type", v)]
      end
  end.

(** [senderData.pipe(passThrough); passThrough.pipe(receiver.res)] and
    [senderData.unpipe(passThrough)] for the pass-through of a receiver.
    The frame keeps which receivers are piped from the source.  What the
    streams of the runtime then carry, the chunks written to the response
    of a piped receiver and the [end] passed on to it when the source
    ends, is not embedded: a response here holds what the source itself
    writes to it. *)
Definition pipeTo (t : nat) (c : nat) : World → World :=
  set_transfers (alter (λ tr,
    mkTransfer (t_path tr) (t_pipe tr) (t_senderData tr) (closeCount tr) (piped tr ++ [c])) t).

Definition unpipe (t : nat) (c : nat) : World → World :=
  set_transfers (alter (λ tr,
    mkTransfer (t_path tr) (t_pipe tr) (t_senderData tr) (closeCount tr)
               (List.filter (λ x, negb (Nat.eqb x c)) (piped tr))) t).

(** [runPipe] from the declaration of [senderData] on: what runs once
    [part] is known. *)
Definition runPipeBody (t : nat) (path : string) (pipe : Pipe) (part : option Part)
    (w : World) : World :=
  let senderData :=
    match part with
    | None => OnReq (conn (pipe_sender pipe))
    | Some _ => OnPart t
    end in
  let w := set_transfers (<[t := mkTransfer path pipe (Some senderData) 0 []]>) w in
  let w :=
    foldl (λ w receiver,
      let w := writeHead (conn receiver) 200 (receiverHeaders (pipe_sender pipe) part) w in
      let w := pipeTo t (conn receiver) w in
      let w := addListener (OnReq (conn receiver)) ev_close false (receiverOnClose t receiver) w in
      addListener (OnReq (conn receiver)) ev_error false (receiverOnError t receiver) w)
    w (pipe_receivers pipe) in
  let w := addListener senderData ev_close false (senderDataOnClose t) w in
  let w := addListener senderData ev_end false (senderDataOnEnd t) w in
  addListener senderData ev_error false (senderDataOnError t) w.

(** [runPipe].  Without a multipart body no [await] is reached and the
    whole function runs at once; with one, it stops after registering the
    ["part"] listener of the form. *)
Definition runPipe (path : string) (pipe : Pipe) (w : World) : World :=
  let w := set_established (<[path := true]>) w in
  let w := set_unestablished (delete path) w in
  let t := nextTransfer (node w) in
  let w := on_node (λ n, mkNode (responses n) (destroyed n) (listeners n) (transfers n)
                                (nextConn n) (S (nextTransfer n))) w in
  let isMultipart :=
    JS.includes (default "" (content_type (req (pipe_sender pipe)))) "multipart/form-data" in
  if isMultipart then
    let w := set_transfers (<[t := mkTransfer path pipe None 0 []]>) w in
    addListener (OnForm t) ev_part true (resolvePart t) w
  else runPipeBody t path pipe None w.

(** The closure [closeReceiver] of [runPipe], for one receiver. *)
Definition closeReceiver (t : nat) (receiver : ReqRes) (w : World) : World :=
  match transfers (node w) !! t with
  | Some tr =>
      let closeCount' := closeCount tr + 1 in
      let w := set_transfers (<[t := mkTransfer (t_path tr) (t_pipe tr) (t_senderData tr)
                                                closeCount' (piped tr)]>) w in
      let w := unpipe t (conn receiver) w in
      if decide (closeCount' = Z.of_nat (length (pipe_receivers (t_pipe tr)))) then
        let w := end_ (conn (pipe_sender (t_pipe tr)))
                      ("[INFO] All receiver(s) was/were closed halfway." +:+ JS.nl) w in
        let w := set_established (delete (t_path tr)) w in
        destroy (conn (pipe_sender (t_pipe tr))) w
      else w
  | None => w
  end.

(** The three listeners of [senderData]. *)
Definition runSenderDataOnClose (t : nat) (w : World) : World :=
  match transfers (node w) !! t with
  | Some tr => foldl (λ w receiver, destroy (conn receiver) w) w (pipe_receivers (t_pipe tr))
  | None => w
  end.

Definition runSenderDataOnEnd (t : nat) (w : World) : World :=
  match transfers (node w) !! t with
  | Some tr =>
      let w := end_ (conn (pipe_sender (t_pipe tr))) ("[INFO] Sending Successful!" +:+ JS.nl) w in
      set_established (delete (t_path tr)) w
  | None => w
  end.

Definition runSenderDataOnError (t : nat) (w : World) : World :=
  match transfers (node w) !! t with
  | Some tr =>
      let w := end_ (conn (pipe_sender (t_pipe tr))) ("[ERROR] Sending Failed." +:+ JS.nl) w in
      set_established (delete (t_path tr)) w
  | None => w
  end.

(** The resolution of the promise awaited in [runPipe]. *)
Definition runResolvePart (t : nat) (p : Part) (w : World) : World :=
  match transfers (node w) !! t with
  | Some tr => runPipeBody t (t_path tr) (t_pipe tr) (Some p) w
  | None => w
  end.

(** Calling a listener; [arg] is the argument of the event, which only the
    ["part"] listener reads. *)
Definition runHandler (h : Handler) (arg : Part) (w : World) : World :=
  match h with
  | closeListener removerType receiverReqRes reqPath =>
      runCloseListener removerType receiverReqRes reqPath w
  | resolvePart t => runResolvePart t arg w
  | receiverOnClose t receiver => closeReceiver t receiver w
  | receiverOnError t receiver => closeReceiver t receiver w
  | senderDataOnClose t => runSenderDataOnClose t w
  | senderDataOnEnd t => runSenderDataOnEnd t w
  | senderDataOnError t => runSenderDataOnError t w
  end.

Definition fires (e : Emitter) (ev : EventName) (l : Listener) : bool :=
  bool_decide (on_emitter l = e) && bool_decide (on_event l = ev).

(** [emitter.emit(event, arg)]: the listeners of the event are called in
    the order they were added; those added with [once] are removed. *)
Definition emit (e : Emitter) (ev : EventName) (arg : Part) (w : World) : World :=
  let fired := List.filter (fires e ev) (listeners (node w)) in
  let w := set_listeners (List.filter (λ l, negb (fires e ev l && once l))) w in
  foldl (λ w l, runHandler (handler l) arg w) w fired.

(** [handleSender]. *)
Definition handleSender (rr : ReqRes) (reqPath : string) (w : World) : World :=
  let res := conn rr in
  let nReceivers' := getNReceivers (req rr) in
  if decide (nReceivers' ≤ 0) then
    let w := writeHead res 400 [] w in
    end_ res ("[ERROR] n should > 0, but n = " +:+ JS.string_of_number nReceivers' +:+ "."
              +:+ JS.nl) w
  else if decide (is_Some (pathToEstablished (server w) !! reqPath)) then
    let w := writeHead res 400 [] w in
    end_ res ("[ERROR] Connection on '" +:+ reqPath +:+ "' has been established already."
              +:+ JS.nl) w
  else
    match pathToUnestablishedPipe (server w) !! reqPath with
    | Some unestablishedPipe =>
        match sender unestablishedPipe with
        | None =>
            if decide (nReceivers' = nReceivers unestablishedPipe) then
              let '(s, w) := createSenderOrReceiver sender_type rr reqPath w in
              let up := mkUnestablished (Some s) (receivers unestablishedPipe)
                                        (nReceivers unestablishedPipe) in
              let w := set_unestablished (<[reqPath := up]>) w in
              let w := write res ("[INFO] Waiting for " +:+ JS.string_of_number nReceivers'
                                  +:+ " receiver(s)..." +:+ JS.nl) w in
              let w := write res ("[INFO] "
                                  +:+ JS.string_of_number (Z.of_nat (length (receivers up)))
                                  +:+ " receiver(s) has/have been connected." +:+ JS.nl) w in
              match getPipeIfEstablished up w with
              | (Some pipe, w) =>
                  let w := write res ("Start sending!" +:+ JS.nl) w in
                  runPipe reqPath pipe w
              | (None, w) => w
              end
            else
              let w := writeHead res 400 [] w in
              end_ res ("Error: The number of receivers should be "
                        +:+ JS.string_of_number (nReceivers unestablishedPipe) +:+ " but "
                        +:+ JS.string_of_number nReceivers' +:+ "." +:+ JS.nl) w
        | Some _ =>
            let w := writeHead res 400 [] w in
            end_ res ("[ERROR] Another sender has been registered on '" +:+ reqPath +:+ "'."
                      +:+ JS.nl) w
        end
    | None =>
        let w := write res ("[INFO] Waiting for " +:+ JS.string_of_number nReceivers'
                            +:+ " receiver(s)..." +:+ JS.nl) w in
        let '(s, w) := createSenderOrReceiver sender_type rr reqPath w in
        set_unestablished (<[reqPath := mkUnestablished (Some s) [] nReceivers']>) w
    end.

(** [handleReceiver]. *)
Definition handleReceiver (rr : ReqRes) (reqPath : string) (w : World) : World :=
  let res := conn rr in
  let nReceivers' := getNReceivers (req rr) in
  if decide (nReceivers' ≤ 0) then
    let w := writeHead res 400 [] w in
    end_ res ("[ERROR] n should > 0, but n = " +:+ JS.string_of_number nReceivers' +:+ "."
              +:+ JS.nl) w
  else if decide (is_Some (pathToEstablished (server w) !! reqPath)) then
    let w := writeHead res 400 [] w in
    end_ res ("Error: Connection on '" +:+ reqPath +:+ "' has been established already."
              +:+ JS.nl) w
  else
    match pathToUnestablishedPipe (server w) !! reqPath with
    | Some unestablishedPipe =>
        if decide (nReceivers' = nReceivers unestablishedPipe) then
          if decide (Z.of_nat (length (receivers unestablishedPipe))
                     < nReceivers unestablishedPipe) then
            let '(receiver, w) := createSenderOrReceiver receiver_type rr reqPath w in
            let up := mkUnestablished (sender unestablishedPipe)
                                      (receivers unestablishedPipe ++ [receiver])
                                      (nReceivers unestablishedPipe) in
            let w := set_unestablished (<[reqPath := up]>) w in
            let w :=
              match sender up with
              | Some s => write (conn (reqRes s)) ("[INFO] A receiver was connected." +:+ JS.nl) w
              | None => w
              end in
            match getPipeIfEstablished up w with
            | (Some pipe, w) =>
                let w := write (conn (pipe_sender pipe))
                               ("[INFO] Start sending with "
                                +:+ JS.string_of_number (Z.of_nat (length (pipe_receivers pipe)))
                                +:+ " receiver(s)!" +:+ JS.nl) w in
                runPipe reqPath pipe w
            | (None, w) => w
            end
          else
            let w := writeHead res 400 [] w in
            end_ res ("Error: The number of receivers has reached limits." +:+ JS.nl) w
        else
          let w := writeHead res 400 [] w in
          end_ res ("Error: The number of receivers should be "
                    +:+ JS.string_of_number (nReceivers unestablishedPipe) +:+ " but "
                    +:+ JS.string_of_number nReceivers' +:+ "." +:+ JS.nl) w
    | None =>
        let '(receiver, w) := createSenderOrReceiver receiver_type rr reqPath w in
        set_unestablished (<[reqPath := mkUnestablished None [receiver] nReceivers']>) w
    end.

Section Piping.

(** The version read from the package description and the landing page:
    two string constants of the module. *)
Variable VERSION : string.
Variable indexPage : string.

(** [generateHelpPage]. *)
Definition generateHelpPage (url : string) : string :=
  JS.join JS.nl [
    "Help for piping-server " +:+ VERSION;
    "(Repository: https://github.com/nwtgck/piping-server)";
    "";
    "======= Get  =======";
    "curl " +:+ url +:+ "/mypath";
    "";
    "======= Send =======";
    "# Send a file";
    "curl -T myfile " +:+ url +:+ "/mypath";
    "";
    "# Send a text";
    "echo 'hello!' | curl -T - " +:+ url +:+ "/mypath";
    "";
    "# Send a directory (zip)";
    "zip -q -r - ./mydir | curl -T - " +:+ url +:+ "/mypath";
    "";
    "# Send a directory (tar.gz)";
    "tar zfcp - ./mydir | curl -T - " +:+ url +:+ "/mypath";
    "";
    "# Encryption";
    "## Send";
    "cat myfile | openssl aes-256-cbc | curl -T - " +:+ url +:+ "/mypath";
    "## Get";
    "curl " +:+ url +:+ "/mypath | openssl aes-256-cbc -d";
    ""
  ].

(** The canonical path of a request: [path.resolve("/", pathname.replace(/\/$/, ""))]. *)
Definition reqPathOf (r : Request) : string :=
  JS.path_resolve_root (JS.strip_trailing_slash (pathname r)).

(** The handler returned by [generateHandler(useHttps)]. *)
Definition generateHandler (useHttps : bool) (rr : ReqRes) (w : World) : World :=
  let res := conn rr in
  let reqPath := reqPathOf (req rr) in
  if decide (method (req rr) = "POST" ∨ method (req rr) = "PUT") then
    if decide (reqPath ∈ RESERVED_PATHS) then
      let w := writeHead res 400 [] w in
      end_ res ("[ERROR] Cannot send to a reserved path '" +:+ reqPath
                +:+ "'. (e.g. '/mypath123')" +:+ JS.nl) w
    else handleSender rr reqPath w
  else if decide (method (req rr) = "GET") then
    if decide (reqPath = NAME_TO_RESERVED_PATH_index) then end_ res indexPage w
    else if decide (reqPath = NAME_TO_RESERVED_PATH_version) then
      end_ res (VERSION +:+ JS.nl) w
    else if decide (reqPath = NAME_TO_RESERVED_PATH_help) then
      let xForwardedProtoIsHttps :=
        match x_forwarded_proto (req rr) with
        | Some proto => JS.includes proto "https"
        | None => false
        end in
      let scheme := if useHttps || xForwardedProtoIsHttps then "https" else "http" in
      let hostname :=
        match host (req rr) with
        | Some h => if decide (h = "") then "hostname" else h
        | None => "hostname"
        end in
      let url := scheme +:+ "://" +:+ hostname in
      end_ res (generateHelpPage url) w
    else handleReceiver rr reqPath w
  else end_ res ("Error: Unsupported method: " +:+ method (req rr) +:+ JS.nl) w.

(** ** The server as a transition system *)

(** The runtime accepts a request: a new pair with a new response. *)
Definition accept (r : Request) (w : World) : ReqRes * World :=
  let c := nextConn (node w) in
  (mkReqRes c r,
   on_node (λ n, mkNode (<[c := newResponse]> (responses n)) (destroyed n) (listeners n)
                        (transfers n) (S (nextConn n)) (nextTransfer n)) w).

(** What the runtime does to the server: it delivers a request to the
    handler, or an event to the listeners of an emitter. *)
Inductive Event :=
| Arrive (useHttps : bool) (r : Request)
| Emit (e : Emitter) (ev : EventName) (arg : Part).

Definition step (w : World) (e : Event) : World :=
  match e with
  | Arrive useHttps r =>
      let '(rr, w) := accept r w in
      generateHandler useHttps rr w
  | Emit e ev arg => emit e ev arg w
  end.

Definition run (w : World) (es : list Event) : World := foldl step w es.

Inductive reachable : World → Prop :=
| reachable_init : reachable init
| reachable_step w e : reachable w → reachable (step w e).

End Piping.

(** ** Scenarios *)

Definition get (p : string) (n : JS.QueryValue) : Request :=
  mkRequest "GET" p n None None None None.

Definition post (p : string) (n : JS.QueryValue) : Request :=
  mkRequest "POST" p n None None None None.

Definition noPart : Part := mkPart None None.

(** Placeholders for the two constants of the section in the scenarios. *)
Definition sampleVersion : string := "0.8.3".
Definition sampleIndexPage : string := "<html>Piping</html>".

Definition runSample (es : list Event) : World :=
  run sampleVersion sampleIndexPage init es.

(** One receiver, then one sender, on [/foo]: the transfer is established
    with the receiver on connection 0 and the sender on connection 1. *)
Definition one_to_one : list Event :=
  [Arrive false (get "/foo" JS.QUndefined); Arrive false (post "/foo" JS.QUndefined)].

(** After the transfer of [one_to_one] has ended, a second sender waits on
    the same path; then the request of the first sender closes. *)
Definition second_sender : list Event :=
  one_to_one ++ [Emit (OnReq 1) ev_end noPart; Arrive false (post "/foo" JS.QUndefined)].

Definition first_sender_closes : list Event :=
  second_sender ++ [Emit (OnReq 1) ev_close noPart].

(** Two receivers (connections 0 and 1), then the sender (connection 2),
    on [/z] with [n=2]; then the request of the first receiver emits
    ["error"] and ["close"]. *)
Definition fan_out_two : list Event :=
  [Arrive false (get "/z" (JS.QString "2")); Arrive false (get "/z" (JS.QString "2"));
   Arrive false (post "/z" (JS.QString "2"))].

Definition first_receiver_fails : list Event :=
  fan_out_two ++ [Emit (OnReq 0) ev_error noPart; Emit (OnReq 0) ev_close noPart].

(** A receiver waiting alone on [/foo], and the record it leaves. *)
Definition lone_receiver : list Event := [Arrive false (get "/foo" JS.QUndefined)].

Definition lone_receiver_record : UnestablishedPipe :=
  mkUnestablished None
    [mkRRU (mkReqRes 0 (get "/foo" JS.QUndefined))
           (closeListener receiver_type (mkReqRes 0 (get "/foo" JS.QUndefined)) "/foo")]
    1.

(** The frame of the transfer of [one_to_one] and the response of its
    sender when the transfer begins. *)
Definition one_to_one_transfer : Transfer :=
  mkTransfer "/foo"
    (mkPipe (mkReqRes 1 (post "/foo" JS.QUndefined)) [mkReqRes 0 (get "/foo" JS.QUndefined)])
    (Some (OnReq 1)) 0 [0%nat].

Definition one_to_one_sender_response : Response :=
  mkResponse 200 false []
    ["[INFO] Waiting for 1 receiver(s)..." +:+ JS.nl;
     "[INFO] 1 receiver(s) has/have been connected." +:+ JS.nl;
     "Start sending!" +:+ JS.nl]
    false.

Definition delete_request : Request :=
  mkRequest "DELETE" "/foo" JS.QUndefined None None None None.

(** ** Predicates of the specification *)

(** The establishment predicate: a sender is registered and the receivers
    are exactly as many as expected. *)
Definition establishment_predicate (up : UnestablishedPipe) : Prop :=
  is_Some (sender up) ∧ Z.of_nat (length (receivers up)) = nReceivers up.

(** A record respects its bound: at most [nReceivers] receivers, and
    [nReceivers] at least one. *)
Definition record_ok (up : UnestablishedPipe) : Prop :=
  Z.of_nat (length (receivers up)) ≤ nReceivers up ∧ 1 ≤ nReceivers up.

Definition records_ok (s : Server) : Prop :=
  ∀ p up, pathToUnestablishedPipe s !! p = Some up → record_ok up.

(** No reserved path is a key of either dictionary. *)
Definition reserved_free (s : Server) : Prop :=
  ∀ p, p ∈ RESERVED_PATHS →
    pathToUnestablishedPipe s !! p = None ∧ pathToEstablished s !! p = None.

(** A path is not unestablished and established at once. *)
Definition exclusive (s : Server) : Prop :=
  ∀ p, is_Some (pathToUnestablishedPipe s !! p) → pathToEstablished s !! p = None.

(** What a client has been sent: the chunks and whether the response ended. *)
Definition content (r : Response) : list string * bool := (body r, finished r).

(** The listeners of the ["error"] event of an emitter. *)
Definition err_listeners (e : Emitter) (ls : list Listener) : list Listener :=
  List.filter (fires e ev_error) ls.

(** The connections of the participants of a record and of a pipe. *)
Definition conns_of (up : UnestablishedPipe) : list nat :=
  match sender up with
  | Some s => [conn (reqRes s)]
  | None => []
  end ++ map (λ r, conn (reqRes r)) (receivers up).

Definition pipe_conns (p : Pipe) : list nat :=
  conn (pipe_sender p) :: map conn (pipe_receivers p).

(** Where participants wait: in the record of a path, or in the frame of a
    transfer whose multipart promise is pending. *)
Definition waiting (U : gmap string UnestablishedPipe) (T : gmap nat Transfer)
    (h : string + nat) : option (list nat) :=
  match h with
  | inl p => conns_of <$> U !! p
  | inr t =>
      match T !! t with
      | Some tr =>
          match t_senderData tr with
          | None => Some (pipe_conns (t_pipe tr))
          | Some _ => None
          end
      | None => None
      end
  end.

(** The listeners [runPipe] adds once the source is known. *)
Definition transfer_listeners (t : nat) (senderData : Emitter) (rs : list ReqRes)
    : list Listener :=
  concat (map (λ r, [mkListener (OnReq (conn r)) ev_close false (receiverOnClose t r);
                     mkListener (OnReq (conn r)) ev_error false (receiverOnError t r)]) rs)
  ++ [mkListener senderData ev_close false (senderDataOnClose t);
      mkListener senderData ev_end false (senderDataOnEnd t);
      mkListener senderData ev_error false (senderDataOnError t)].

Definition source_of (t : nat) (pipe : Pipe) (part : option Part) : Emitter :=
  match part with
  | None => OnReq (conn (pipe_sender pipe))
  | Some _ => OnPart t
  end.

(** The well-formedness of the listeners, the records and the frames. *)
Record wf_parts (U : gmap string UnestablishedPipe) (T : gmap nat Transfer)
    (L : list Listener) (nc nt : nat) : Prop := mk_wf {
  wf_group : ∀ h g, waiting U T h = Some g →
    NoDup g ∧ ∀ c, c ∈ g → (c < nc)%nat ∧ err_listeners (OnReq c) L = [];
  wf_apart : ∀ h h' g g' c, h ≠ h' → waiting U T h = Some g → waiting U T h' = Some g' →
    c ∈ g → c ∉ g';
  wf_frames : ∀ t tr, T !! t = Some tr → (t < nt)%nat;
  wf_error : ∀ l, l ∈ L → on_event l = ev_error →
    once l = false ∧
    match on_emitter l with
    | OnReq c => (c < nc)%nat
    | OnPart t => ∃ tr, T !! t = Some tr ∧ t_senderData tr = Some (OnPart t)
    | OnForm _ => False
    end;
  wf_form : ∀ l t, l ∈ L → on_emitter l = OnForm t ∨ handler l = resolvePart t →
    l = mkListener (OnForm t) ev_part true (resolvePart t) ∧
    ∃ tr, T !! t = Some tr ∧ t_senderData tr = None;
  wf_form_once : ∀ t, (length (List.filter (fires (OnForm t) ev_part) L) ≤ 1)%nat;
  wf_error_once : ∀ e, (length (err_listeners e L) ≤ 1)%nat;
  wf_source : ∀ t tr e, T !! t = Some tr → t_senderData tr = Some e →
    mkListener e ev_error false (senderDataOnError t) ∈ L
}.

Definition well_formed (w : World) : Prop :=
  wf_parts (pathToUnestablishedPipe (server w)) (transfers (node w)) (listeners (node w))
           (nextConn (node w)) (nextTransfer (node w)).

(** A connection that waits nowhere and has no ["error"] listener. *)
Definition fresh (U : gmap string UnestablishedPipe) (T : gmap nat Transfer)
    (L : list Listener) (c : nat) : Prop :=
  (∀ h g, waiting U T h = Some g → c ∉ g) ∧ err_listeners (OnReq c) L = [].

(** Writing or deleting the record of a path. *)
Definition set_record (p : string) (o : option UnestablishedPipe)
    (U : gmap string UnestablishedPipe) : gmap string UnestablishedPipe :=
  match o with
  | Some up => <[p := up]> U
  | None => delete p U
  end.

(** The elementary changes of the two dictionaries. *)
Inductive mutation (s : Server) : Server → Prop :=
| mutation_clear p :
    mutation s (mkServer (delete p (pathToEstablished s)) (pathToUnestablishedPipe s))
| mutation_drop p :
    mutation s (mkServer (pathToEstablished s) (delete p (pathToUnestablishedPipe s)))
| mutation_update p up up' :
    pathToUnestablishedPipe s !! p = Some up →
    nReceivers up' = nReceivers up →
    (length (receivers up') ≤ length (receivers up))%nat →
    mutation s (mkServer (pathToEstablished s) (<[p := up']> (pathToUnestablishedPipe s)))
| mutation_put p up :
    p ∉ RESERVED_PATHS →
    pathToEstablished s !! p = None →
    record_ok up →
    mutation s (mkServer (pathToEstablished s) (<[p := up]> (pathToUnestablishedPipe s)))
| mutation_establish p :
    p ∉ RESERVED_PATHS →
    mutation s (mkServer (<[p := true]> (pathToEstablished s))
                         (delete p (pathToUnestablishedPipe s))).

Definition evolves : Server → Server → Prop := rtc mutation.

(** A transfer was started between two worlds: [runPipe] was entered. *)
Definition started (w w' : World) : Prop :=
  nextTransfer (node w') = S (nextTransfer (node w)).

(** The record of a path once an arriving sender is registered on it, and
    [None] when the sender is refused. *)
Definition sender_registration (rr : ReqRes) (reqPath : string) (w : World)
    : option UnestablishedPipe :=
  let n := getNReceivers (req rr) in
  if decide (0 < n ∧ pathToEstablished (server w) !! reqPath = None) then
    match pathToUnestablishedPipe (server w) !! reqPath with
    | None => Some (mkUnestablished (Some (mkRRU rr (closeListener sender_type rr reqPath))) [] n)
    | Some up =>
        if decide (sender up = None ∧ nReceivers up = n) then
          Some (mkUnestablished (Some (mkRRU rr (closeListener sender_type rr reqPath)))
                                (receivers up) (nReceivers up))
        else None
    end
  else None.

(** The same for an arriving receiver. *)
Definition receiver_registration (rr : ReqRes) (reqPath : string) (w : World)
    : option UnestablishedPipe :=
  let n := getNReceivers (req rr) in
  if decide (0 < n ∧ pathToEstablished (server w) !! reqPath = None) then
    match pathToUnestablishedPipe (server w) !! reqPath with
    | None =>
        Some (mkUnestablished None [mkRRU rr (closeListener receiver_type rr reqPath)] n)
    | Some up =>
        if decide (nReceivers up = n ∧ Z.of_nat (length (receivers up)) < nReceivers up) then
          Some (mkUnestablished (sender up)
                  (receivers up ++ [mkRRU rr (closeListener receiver_type rr reqPath)])
                  (nReceivers up))
        else None
    end
  else None.

(** The role the router gives to a request: sender, receiver, or none. *)
Inductive Role := SenderRole | ReceiverRole | NoRole.

Definition role_of (r : Request) : Role :=
  let reqPath := reqPathOf r in
  if decide (method r = "POST" ∨ method r = "PUT") then
    if decide (reqPath ∈ RESERVED_PATHS) then NoRole else SenderRole
  else if decide (method r = "GET") then
    if decide (reqPath ∈ RESERVED_PATHS) then NoRole else ReceiverRole
  else NoRole.

(** The record of the request's path once the request is registered. *)
Definition registration (rr : ReqRes) (w : World) : option UnestablishedPipe :=
  match role_of (req rr) with
  | SenderRole => sender_registration rr (reqPathOf (req rr)) w
  | ReceiverRole => receiver_registration rr (reqPathOf (req rr)) w
  | NoRole => None
  end.
(** ** Further predicates *)

(** The world once the runtime has accepted request [r] and the handler has
    answered it with status 400 and the one chunk [msg], and done nothing
    else. *)
Definition refused (r : Request) (msg : string) (w : World) : World :=
  end_ (nextConn (node w)) msg (writeHead (nextConn (node w)) 400 [] (accept r w).2).

(** A record that has to wait: it is not complete, and somebody waits in it. *)
Definition record_waits (up : UnestablishedPipe) : Prop :=
  ¬ establishment_predicate up ∧ (is_Some (sender up) ∨ receivers up ≠ []).

(** Every record of a server has to wait. *)
Definition incomplete (s : Server) : Prop :=
  ∀ p up, pathToUnestablishedPipe s !! p = Some up → record_waits up.

(** The response of a receiver once [runPipe] has written its head. *)
Definition with_head (hs : list (string * string)) (x : Response) : Response :=
  mkResponse 200 true hs (body x) (finished x).

(** The shape of an installed listener: the event and the mode each
    closure is registered with in the source. *)
Definition shape (nc : nat) (l : Listener) : Prop :=
  match handler l with
  | closeListener ty rr p =>
      on_event l = ev_close ∧ once l = true ∧ on_emitter l = OnReq (conn rr) ∧
      (conn rr < nc)%nat
  | resolvePart t => on_event l = ev_part
  | receiverOnClose t r => on_event l = ev_close ∧ once l = false
  | receiverOnError t r => on_event l = ev_error ∧ once l = false
  | senderDataOnClose t => on_event l = ev_close ∧ once l = false
  | senderDataOnEnd t => on_event l = ev_end ∧ once l = false
  | senderDataOnError t => on_event l = ev_error ∧ once l = false
  end.

(** The close-watchers of a request, the ["close"] listeners a transfer
    installed on an emitter, and the ["end"] listeners of an emitter. *)
Definition watchers (c : nat) (ls : list Listener) : list Listener :=
  List.filter (λ l, fires (OnReq c) ev_close l && once l) ls.

Definition close_listeners (e : Emitter) (ls : list Listener) : list Listener :=
  List.filter (λ l, fires e ev_close l && negb (once l)) ls.

Definition end_listeners (e : Emitter) (ls : list Listener) : list Listener :=
  List.filter (fires e ev_end) ls.

(** The listeners and the frames fit together. *)
Record st_parts (T : gmap nat Transfer) (L : list Listener) (nc : nat) : Prop := mk_st {
  st_shape : ∀ l, l ∈ L → shape nc l;
  st_end : ∀ e, (length (end_listeners e L) ≤ length (err_listeners e L))%nat;
  st_close : ∀ e, (length (close_listeners e L) ≤ length (err_listeners e L))%nat;
  st_watch : ∀ c, (length (watchers c L) ≤ 1)%nat;
  st_source : ∀ t tr e, T !! t = Some tr → t_senderData tr = Some e →
    mkListener e ev_close false (senderDataOnClose t) ∈ L ∧
    mkListener e ev_end false (senderDataOnEnd t) ∈ L
}.

(** The listeners and the frames of a world fit together. *)
Definition static (w : World) : Prop :=
  st_parts (transfers (node w)) (listeners (node w)) (nextConn (node w)).

(** The close-watcher [createSenderOrReceiver] installs. *)
Definition watcher (ty : RemoverType) (rr : ReqRes) (p : string) : Listener :=
  mkListener (OnReq (conn rr)) ev_close true (closeListener ty rr p).

(** The participants of a record, each with its role. *)
Definition participants (up : UnestablishedPipe) : list (RemoverType * ReqResAndUnsubscribe) :=
  match sender up with
  | Some s => [(sender_type, s)]
  | None => []
  end ++ map (λ x, (receiver_type, x)) (receivers up).

(** Every waiting participant carries the closure that removes its own
    close-watcher, and that watcher is installed. *)
Definition watched (U : gmap string UnestablishedPipe) (L : list Listener) : Prop :=
  ∀ p up ty x, U !! p = Some up → (ty, x) ∈ participants up →
    unsubscribeCloseListener x = closeListener ty (reqRes x) p ∧
    watcher ty (reqRes x) p ∈ L.

(** The listeners of a world fit its frames and its records. *)
Definition tidy (w : World) : Prop :=
  st_parts (transfers (node w)) (listeners (node w)) (nextConn (node w)) ∧
  watched (pathToUnestablishedPipe (server w)) (listeners (node w)).

(** What an arrival that is registered leaves: the record, or the transfer
    started from it. *)
Definition registered_outcome (p : string) (up : UnestablishedPipe) (w w' : World) : Prop :=
  nextConn (node w') = nextConn (node w) ∧
  if decide (establishment_predicate up) then
    pathToEstablished (server w') !! p = Some true ∧
    pathToUnestablishedPipe (server w') !! p = None ∧
    nextTransfer (node w') = S (nextTransfer (node w)) ∧
    ∃ tr s, transfers (node w') !! nextTransfer (node w) = Some tr ∧
            t_path tr = p ∧ sender up = Some s ∧
            t_pipe tr = mkPipe (reqRes s) (map reqRes (receivers up))
  else
    pathToUnestablishedPipe (server w') !! p = Some up ∧
    pathToEstablished (server w') = pathToEstablished (server w) ∧
    nextTransfer (node w') = nextTransfer (node w).

(** The requests of a rendezvous, numbered as the runtime accepts them. *)
Fixpoint arrivals (c : nat) (rs : list Request) : list ReqRes :=
  match rs with
  | [] => []
  | r :: rs => mkReqRes c r :: arrivals (S c) rs
  end.

(** The requests the router hands to [handleSender]. *)
Definition is_sender (rr : ReqRes) : bool :=
  match role_of (req rr) with
  | SenderRole => true
  | _ => false
  end.

(** The record of a path on which the given requests wait. *)
Definition record_of (p : string) (N : Z) (rrs : list ReqRes) : UnestablishedPipe :=
  mkUnestablished
    ((λ s, mkRRU s (closeListener sender_type s p)) <$> head (List.filter is_sender rrs))
    (map (λ x, mkRRU x (closeListener receiver_type x p))
         (List.filter (λ rr, negb (is_sender rr)) rrs))
    N.

(** A request of the rendezvous on path [p] for [N] receivers. *)
Definition joins (p : string) (N : Z) (r : Request) : Prop :=
  reqPathOf r = p ∧ getNReceivers r = N ∧ role_of r ≠ NoRole.

(** What a client has been sent only grows, and nothing follows the end
    of a response. *)
Definition extends (r r' : Response) : Prop :=
  body r `prefix_of` body r' ∧ (finished r = true → content r' = content r).

(** The responses of two worlds: the same connections, each response
    extended. *)
Definition responses_grow (R R' : gmap nat Response) : Prop :=
  ∀ c, match R !! c with
       | Some r => ∃ r', R' !! c = Some r' ∧ extends r r'
       | None => R' !! c = None
       end.

(** Between two worlds the responses grow and no connection is accepted. *)
Definition grows (w w' : World) : Prop :=
  responses_grow (responses (node w)) (responses (node w')) ∧
  nextConn (node w') = nextConn (node w).

(** A connection that takes part in a transfer, and one that waits in a
    record. *)
Definition promoted (T : gmap nat Transfer) (c : nat) : Prop :=
  ∃ t tr, T !! t = Some tr ∧ c ∈ pipe_conns (t_pipe tr).

(** A connection that waits in a record. *)
Definition waits (U : gmap string UnestablishedPipe) (c : nat) : Prop :=
  ∃ p up, U !! p = Some up ∧ c ∈ conns_of up.

(** The response of a connection waiting in a record: open, without head,
    and, for a receiver, without any chunk. *)
Definition waiting_response (up : UnestablishedPipe) (c : nat) (r : Response) : Prop :=
  finished r = false ∧ headWritten r = false ∧ statusCode r = 200 ∧
  (c ∈ map (λ x, conn (reqRes x)) (receivers up) → r = newResponse).

(** No connection of a transfer waits, and who waits has been sent at
    most progress lines. *)
Definition calm (w : World) : Prop :=
  (∀ c, promoted (transfers (node w)) c →
        (c < nextConn (node w))%nat ∧ ¬ waits (pathToUnestablishedPipe (server w)) c) ∧
  (∀ p up c, pathToUnestablishedPipe (server w) !! p = Some up → c ∈ conns_of up →
             ∃ r, responses (node w) !! c = Some r ∧ waiting_response up c r).

(** ** Further scenarios *)

(** A sender waiting alone on [/bar], and the record it leaves. *)
Definition lone_sender : list Event := [Arrive false (post "/bar" JS.QUndefined)].

Definition lone_sender_party : ReqResAndUnsubscribe :=
  mkRRU (mkReqRes 0 (post "/bar" JS.QUndefined))
        (closeListener sender_type (mkReqRes 0 (post "/bar" JS.QUndefined)) "/bar").

Definition lone_sender_record : UnestablishedPipe :=
  mkUnestablished (Some lone_sender_party) [] 1.

(** A sender that announces the length and the type of its body, a
    multipart sender, and the part its form delivers. *)
Definition typed_sender : Request :=
  mkRequest "POST" "/foo" JS.QUndefined (Some "text/plain") (Some "5") None None.

Definition multipart_sender : Request :=
  mkRequest "POST" "/m" JS.QUndefined (Some "multipart/form-data; boundary=x") (Some "120")
            None None.

Definition text_part : Part := mkPart (Some 5) (Some "text/plain").

(** Two receivers, the sender, and a third receiver, on [/x] with [n=3]. *)
Definition fan_in : list Request :=
  [get "/x" (JS.QString "3"); get "/x" (JS.QString "3"); post "/x" (JS.QString "3");
   get "/x" (JS.QString "3")].

(** The transfer of [one_to_one], and then a receiver waiting on [/bar];
    the record it leaves. *)
Definition bystander : list Event := one_to_one ++ [Arrive false (get "/bar" JS.QUndefined)].

Definition bystander_record : UnestablishedPipe :=
  mkUnestablished None
    [mkRRU (mkReqRes 2 (get "/bar" JS.QUndefined))
           (closeListener receiver_type (mkReqRes 2 (get "/bar" JS.QUndefined)) "/bar")]
    1.

Example parseInt10_samples :
  JS.parseInt10 "3" = Some 3 /\ JS.parseInt10 "abc" = None /\
  JS.parseInt10 "-1" = Some (-1) /\ JS.parseInt10 " 42px" = Some 42 /\
  JS.parseInt10 "undefined" = None /\ JS.parseInt10 "2.5" = Some 2 /\
  JS.parseInt10 "" = None /\ JS.parseInt10 "-" = None /\
  JS.parseInt10 " +007" = Some 7 /\ JS.parseInt10 "-0" = Some 0 /\
  JS.parseInt10 "9007199254740993" = Some 9007199254740992 /\
  JS.parseInt10 "9007199254740995" = Some 9007199254740996 /\
  JS.parseInt10 ("1" +:+ JS.zeros 309) = Some JS.Infinity.
Proof. repeat split; vm_compute; reflexivity. Qed.

Example path_resolve_samples :
  JS.path_resolve_root (JS.strip_trailing_slash "/foo/") = "/foo" /\
  JS.path_resolve_root (JS.strip_trailing_slash "/") = "/" /\
  JS.path_resolve_root (JS.strip_trailing_slash "/a/../b//c/.") = "/b/c" /\
  JS.path_resolve_root (JS.strip_trailing_slash "/version") = "/version" /\
  JS.string_of_number (-1) = "-1" /\ JS.string_of_number 0 = "0" /\
  JS.string_of_number 12 = "12".
Proof. repeat split; reflexivity. Qed.

Example string_of_number_samples :
  JS.string_of_number 9007199254740992 = "9007199254740992" /\
  JS.string_of_number (JS.to_double 123456789012345678901) = "123456789012345680000" /\
  JS.string_of_number (2 ^ 64) = "18446744073709552000" /\
  JS.string_of_number (10 ^ 21) = "1e+21" /\
  JS.string_of_number (JS.to_double (10 ^ 23)) = "1e+23" /\
  JS.string_of_number (JS.to_double 12345678901234567890123) = "1.2345678901234568e+22" /\
  JS.string_of_number (- JS.Infinity) = "-Infinity".
Proof. repeat split; vm_compute; reflexivity. Qed.

(** ** Reading the receiver count *)

Lemma digits_seen s acc : is_Some (JS.digits s acc true).
Proof.
  revert acc. induction s as [|c s IH]; intros acc; simpl; [eauto|].
  destruct (JS.digit_of c); eauto.
Qed.

Lemma digits_unseen_None s : JS.starts_digit s = false → JS.digits s 0 false = None.
Proof. destruct s as [|c s]; simpl; [done|]. by destruct (JS.digit_of c). Qed.

Lemma parseInt10_None s : JS.starts_number s = false → JS.parseInt10 s = None.
Proof.
  unfold JS.starts_number, JS.parseInt10.
  destruct (JS.trim_start s) as [|c r]; [done|].
  destruct (Ascii.eqb c "-"); cbn [orb].
  { intros H. by rewrite digits_unseen_None. }
  destruct (Ascii.eqb c "+"); cbn [orb].
  { intros H. by rewrite digits_unseen_None. }
  intros H. by rewrite digits_unseen_None.
Qed.

Lemma append_cons c s r : String c s +:+ r = String c (s +:+ r).
Proof. reflexivity. Qed.

Lemma digits_cons_digit c k r acc seen :
  JS.digit_of c = Some k → JS.digits (String c r) acc seen = JS.digits r (10 * acc + k) true.
Proof. intros H. simpl. by rewrite H. Qed.

Lemma digits_string_of_uint d rest acc seen :
  JS.starts_digit rest = false →
  JS.digits (NilEmpty.string_of_uint d +:+ rest) acc seen =
  match d with
  | Decimal.Nil => if seen then Some acc else None
  | _ => Some (JS.horner d acc)
  end.
Proof.
  intros Hrest. revert acc seen.
  assert (∀ acc, JS.digits rest acc true = Some acc) as Hend.
  { intros acc. destruct rest as [|c rest]; simpl in *; [done|].
    by destruct (JS.digit_of c). }
  assert (∀ acc, JS.digits rest acc false = None) as Hend'.
  { intros acc. destruct rest as [|c rest]; simpl in *; [done|].
    by destruct (JS.digit_of c). }
  induction d as [|d IH|d IH|d IH|d IH|d IH|d IH|d IH|d IH|d IH|d IH]; intros acc seen;
    [simpl; destruct seen; [apply Hend|apply Hend']|..];
    (cbn [NilEmpty.string_of_uint]; rewrite append_cons;
     erewrite digits_cons_digit by reflexivity;
     rewrite IH; destruct d; reflexivity).
Qed.

Lemma horner_pos d p : JS.horner d (Zpos p) = Zpos (Pos.of_uint_acc d p).
Proof.
  revert p. induction d; intros p; simpl; try done;
    rewrite <- IHd; f_equal; lia.
Qed.

Lemma horner_of_uint d : JS.horner d 0 = Z.of_uint d.
Proof.
  unfold Z.of_uint.
  induction d; cbn [JS.horner Pos.of_uint Z.of_N]; [done|exact IHd|..];
    match goal with |- JS.horner _ ?a = _ =>
      let v := eval vm_compute in a in change a with v end;
    apply horner_pos.
Qed.

Lemma parseInt10_digit_start c r :
  is_Some (JS.digit_of c) →
  JS.parseInt10 (String c r) = JS.to_double <$> JS.digits (String c r) 0 false.
Proof.
  intros Hc. unfold JS.parseInt10.
  assert (JS.is_white c = false ∧ Ascii.eqb c "-" = false ∧ Ascii.eqb c "+" = false)
    as (Hw & Hm & Hp).
  { destruct c as [[|] [|] [|] [|] [|] [|] [|] [|]];
      first [by destruct Hc | by vm_compute]. }
  cbn [JS.trim_start]. by rewrite Hw, Hm, Hp.
Qed.

Lemma NilEmpty_starts_digit d :
  d ≠ Decimal.Nil →
  ∃ c s, NilEmpty.string_of_uint d = String c s ∧ is_Some (JS.digit_of c).
Proof. destruct d; simpl; eauto; done. Qed.

Lemma parseInt10_white c s : JS.is_white c = true → JS.parseInt10 (String c s) = JS.parseInt10 s.
Proof. intros H. unfold JS.parseInt10. cbn [JS.trim_start]. by rewrite H. Qed.

Lemma parseInt10_all_white ws s :
  JS.all_white ws = true → JS.parseInt10 (ws +:+ s) = JS.parseInt10 s.
Proof.
  induction ws as [|c ws IH]; [done|]. cbn [JS.all_white]. intros [Hc Hws]%andb_prop.
  rewrite append_cons, parseInt10_white by done. auto.
Qed.

Lemma digits_numeral d rest :
  d ≠ Decimal.Nil → JS.starts_digit rest = false →
  JS.digits (NilEmpty.string_of_uint d +:+ rest) 0 false = Some (Z.of_uint d).
Proof.
  intros Hd Hrest. rewrite digits_string_of_uint by done.
  rewrite horner_of_uint. by destruct d.
Qed.

(** What [parseInt] reads from white space, an optional sign, a decimal
    numeral and a rest that does not go on with a digit. *)
Lemma parseInt10_numeral ws sg d rest :
  JS.all_white ws = true →
  sg = "" ∨ sg = "+" ∨ sg = "-" →
  d ≠ Decimal.Nil →
  JS.starts_digit rest = false →
  JS.parseInt10 (ws +:+ sg +:+ NilEmpty.string_of_uint d +:+ rest) =
    Some (JS.to_double (if decide (sg = "-") then - Z.of_uint d else Z.of_uint d)).
Proof.
  intros Hws Hsg Hd Hrest. rewrite parseInt10_all_white by done.
  pose proof (digits_numeral d rest Hd Hrest) as Hdig.
  destruct Hsg as [->|[->| ->]].
  - rewrite decide_False by done. change ("" +:+ ?x) with x.
    destruct (NilEmpty_starts_digit d Hd) as (c & s & E & Hc).
    rewrite E in *. rewrite append_cons in *.
    rewrite parseInt10_digit_start by done. by rewrite Hdig.
  - rewrite decide_False by done. rewrite append_cons. change ("" +:+ ?x) with x.
    unfold JS.parseInt10. cbn [JS.trim_start].
    change (JS.is_white "+") with false. cbv iota.
    change (Ascii.eqb "+" "-") with false. change (Ascii.eqb "+" "+") with true. cbv iota.
    by rewrite Hdig.
  - rewrite decide_True by done. rewrite append_cons. change ("" +:+ ?x) with x.
    unfold JS.parseInt10. cbn [JS.trim_start].
    change (JS.is_white "-") with false. cbv iota.
    change (Ascii.eqb "-" "-") with true. cbv iota.
    by rewrite Hdig.
Qed.

(** Up to 2^53 in magnitude an integer is its own Number value. *)
Lemma to_double_small z : Z.abs z ≤ 2 ^ 53 → JS.to_double z = z.
Proof.
  intros Hz. unfold JS.to_double, JS.round_double.
  destruct (Z.ltb_spec (Z.abs z) (2 ^ 53)) as [Hlt|Hge].
  - destruct z; cbn [Z.sgn Z.abs]; lia.
  - assert (Z.abs z = 2 ^ 53) as E by lia. rewrite E.
    change (Z.min _ JS.Infinity) with (2 ^ 53).
    rewrite <- E. destruct z; cbn [Z.sgn Z.abs]; lia.
Qed.

(** Every string that begins as a number is white space, an optional
    sign, a numeral and a rest that does not go on with a digit. *)
Lemma digit_run s :
  JS.starts_digit s = true →
  ∃ d rest, d ≠ Decimal.Nil ∧ JS.starts_digit rest = false ∧
            s = NilEmpty.string_of_uint d +:+ rest.
Proof.
  induction s as [|c s IH]; [done|]. intros Hc.
  assert (∃ f : Decimal.uint → Decimal.uint,
            (∀ d, f d ≠ Decimal.Nil) ∧
            (∀ d, NilEmpty.string_of_uint (f d) = String c (NilEmpty.string_of_uint d)))
    as (f & Hf & Hw).
  { destruct c as [[|] [|] [|] [|] [|] [|] [|] [|]];
      first [ by vm_compute in Hc
            | by exists Decimal.D0 | by exists Decimal.D1 | by exists Decimal.D2
            | by exists Decimal.D3 | by exists Decimal.D4 | by exists Decimal.D5
            | by exists Decimal.D6 | by exists Decimal.D7 | by exists Decimal.D8
            | by exists Decimal.D9 ]. }
  destruct (JS.starts_digit s) eqn:Hs.
  - destruct (IH eq_refl) as (d & rest & Hd & Hrest & ->).
    exists (f d), rest. split; [apply Hf|]. split; [done|]. by rewrite Hw.
  - exists (f Decimal.Nil), s. split; [apply Hf|]. split; [done|]. by rewrite Hw.
Qed.

Lemma starts_number_shape s :
  JS.starts_number s = true →
  ∃ ws sg d rest,
    JS.all_white ws = true ∧ (sg = "" ∨ sg = "+" ∨ sg = "-") ∧ d ≠ Decimal.Nil ∧
    JS.starts_digit rest = false ∧ s = ws +:+ sg +:+ NilEmpty.string_of_uint d +:+ rest.
Proof.
  unfold JS.starts_number. induction s as [|c s IH]; [done|].
  cbn [JS.trim_start]. destruct (JS.is_white c) eqn:Hw.
  { intros H. destruct (IH H) as (ws & sg & d & rest & Hws & Hsg & Hd & Hrest & ->).
    exists (String c ws), sg, d, rest. cbn [JS.all_white]. by rewrite Hw, Hws. }
  destruct (Ascii.eqb_spec c "-") as [->|Hm]; cbn [orb].
  { intros (d & rest & Hd & Hrest & ->)%digit_run. exists "", "-", d, rest. auto 10. }
  destruct (Ascii.eqb_spec c "+") as [->|Hp]; cbn [orb].
  { intros (d & rest & Hd & Hrest & ->)%digit_run. exists "", "+", d, rest. auto 10. }
  intros (d & rest & Hd & Hrest & E)%digit_run. exists "", "", d, rest. auto 10.
Qed.

(** A comma ends what [parseInt] reads. *)
Lemma digits_comma s t acc seen :
  JS.digits (s +:+ String "," t) acc seen = JS.digits s acc seen.
Proof.
  revert acc seen. induction s as [|c s IH]; intros acc seen; [done|].
  rewrite append_cons. cbn [JS.digits]. by destruct (JS.digit_of c).
Qed.

Lemma parseInt10_comma s t : JS.parseInt10 (s +:+ String "," t) = JS.parseInt10 s.
Proof.
  induction s as [|c s IH]; [done|]. rewrite append_cons.
  destruct (JS.is_white c) eqn:Hw.
  { by rewrite !parseInt10_white. }
  unfold JS.parseInt10. cbn [JS.trim_start]. rewrite Hw.
  rewrite <- append_cons. by rewrite !digits_comma.
Qed.

(** ** The dictionaries under the runtime operations *)

Lemma foldl_server {A} (f : World → A → World) (l : list A) (w : World) :
  (∀ w x, server (f w x) = server w) → server (foldl f w l) = server w.
Proof.
  intros Hf. revert w. induction l as [|x l IH]; intros w; simpl; [done|].
  rewrite IH. apply Hf.
Qed.

Lemma getPipeIfEstablished_server p w :
  server (getPipeIfEstablished p w).2 = server w.
Proof.
  unfold getPipeIfEstablished.
  destruct (sender p); [|done]. case_decide; [|done].
  simpl. by apply foldl_server.
Qed.

Lemma getPipeIfEstablished_node_counters p w :
  nextTransfer (node (getPipeIfEstablished p w).2) = nextTransfer (node w).
Proof.
  unfold getPipeIfEstablished.
  destruct (sender p); [|done]. case_decide; [|done]. simpl.
  generalize (receivers p). intros l. revert w.
  induction l as [|x l IH]; intros w; simpl; [done|]. by rewrite IH.
Qed.

Lemma getPipeIfEstablished_is_Some p w :
  is_Some (getPipeIfEstablished p w).1 ↔ establishment_predicate p.
Proof.
  unfold getPipeIfEstablished, establishment_predicate.
  destruct (sender p) as [s|]; simpl.
  - case_decide; simpl.
    + split; eauto.
    + split; [by intros [? ?]|]. by intros [_ ?].
  - split; [by intros [? ?]|]. by intros [[? ?] _].
Qed.

Lemma getPipeIfEstablished_pipe p w pipe :
  (getPipeIfEstablished p w).1 = Some pipe →
  ∃ s, sender p = Some s ∧ pipe = mkPipe (reqRes s) (map reqRes (receivers p)).
Proof.
  unfold getPipeIfEstablished.
  destruct (sender p) as [s|]; [|done]. case_decide; [|done].
  simpl. intros [= <-]. eauto.
Qed.

Lemma runPipeBody_server t path pipe part w :
  server (runPipeBody t path pipe part w) = server w.
Proof.
  unfold runPipeBody. simpl. by rewrite foldl_server.
Qed.

Lemma runPipe_server path pipe w :
  server (runPipe path pipe w) =
  mkServer (<[path := true]> (pathToEstablished (server w)))
           (delete path (pathToUnestablishedPipe (server w))).
Proof.
  unfold runPipe. destruct (JS.includes _ _); [done|].
  by rewrite runPipeBody_server.
Qed.

Lemma runPipeBody_nextTransfer t path pipe part w :
  nextTransfer (node (runPipeBody t path pipe part w)) = nextTransfer (node w).
Proof.
  unfold runPipeBody. simpl.
  generalize (pipe_receivers pipe). intros l.
  set (w0 := set_transfers _ w).
  assert (nextTransfer (node w0) = nextTransfer (node w)) as <- by done.
  clearbody w0. revert w0.
  induction l as [|x l IH]; intros w0; simpl; [done|]. by rewrite IH.
Qed.

Lemma runPipe_started path pipe w : started w (runPipe path pipe w).
Proof.
  unfold started, runPipe. destruct (JS.includes _ _); [done|].
  by rewrite runPipeBody_nextTransfer.
Qed.

(** ** Elementary changes keep the invariants *)

Lemma mutation_records_ok s s' : mutation s s' → records_ok s → records_ok s'.
Proof.
  intros Hm Hok. destruct Hm as [p|p|p up up' Hup Hn Hlen|p up Hres Hest Hup|p Hres];
    intros q uq; simpl; intros Hq.
  - by eapply Hok.
  - apply lookup_delete_Some in Hq as [_ Hq]. by eapply Hok.
  - apply lookup_insert_Some in Hq as [[_ <-]|[_ Hq]]; [|by eapply Hok].
    destruct (Hok _ _ Hup) as [H1 H2]. unfold record_ok. rewrite Hn. split; [lia|done].
  - apply lookup_insert_Some in Hq as [[_ <-]|[_ Hq]]; [done|by eapply Hok].
  - apply lookup_delete_Some in Hq as [_ Hq]. by eapply Hok.
Qed.

Lemma mutation_reserved_free s s' : mutation s s' → reserved_free s → reserved_free s'.
Proof.
  intros Hm Hfree. destruct Hm as [p|p|p up up' Hup Hn Hlen|p up Hres Hest Hup|p Hres];
    intros q Hq; destruct (Hfree q Hq) as [H1 H2]; simpl.
  - split; [done|]. apply lookup_delete_None. by right.
  - split; [|done]. apply lookup_delete_None. by right.
  - split; [|done]. rewrite lookup_insert_ne; [done|]. intros ->. congruence.
  - split; [|done]. rewrite lookup_insert_ne; [done|]. by intros ->.
  - split.
    + apply lookup_delete_None. by right.
    + rewrite lookup_insert_ne; [done|]. by intros ->.
Qed.

Lemma mutation_exclusive s s' : mutation s s' → exclusive s → exclusive s'.
Proof.
  intros Hm Hex. destruct Hm as [p|p|p up up' Hup Hn Hlen|p up Hres Hest Hup|p Hres];
    intros q; simpl; intros Hq.
  - apply lookup_delete_None. right. by apply Hex.
  - apply Hex. destruct Hq as [x Hq]. apply lookup_delete_Some in Hq as [_ Hq]. eauto.
  - apply Hex. destruct (decide (p = q)) as [<-|Hne]; [eauto|].
    by rewrite lookup_insert_ne in Hq.
  - destruct (decide (p = q)) as [<-|Hne]; [done|].
    apply Hex. by rewrite lookup_insert_ne in Hq.
  - destruct Hq as [x Hq]. apply lookup_delete_Some in Hq as [Hne Hq].
    rewrite lookup_insert_ne; [|done]. apply Hex. eauto.
Qed.

Lemma evolves_records_ok s s' : evolves s s' → records_ok s → records_ok s'.
Proof. induction 1; eauto using mutation_records_ok. Qed.

Lemma evolves_reserved_free s s' : evolves s s' → reserved_free s → reserved_free s'.
Proof. induction 1; eauto using mutation_reserved_free. Qed.

Lemma evolves_exclusive s s' : evolves s s' → exclusive s → exclusive s'.
Proof. induction 1; eauto using mutation_exclusive. Qed.

(** ** Every listener and every handler changes the dictionaries by
       elementary changes *)

Lemma runCloseListener_evolves ty rr p w :
  evolves (server w) (server (runCloseListener ty rr p w)).
Proof.
  unfold runCloseListener.
  destruct (pathToUnestablishedPipe (server w) !! p) as [up|] eqn:Hup; [|apply rtc_refl].
  destruct ty.
  - destruct (sender up) eqn:Hs; [|apply rtc_refl].
    case_decide; apply rtc_once; [apply mutation_drop|].
    by eapply mutation_update.
  - destruct (list_find _ (receivers up)) as [[idx r]|] eqn:Hf; [|apply rtc_refl].
    case_decide; apply rtc_once; [apply mutation_drop|].
    eapply mutation_update; [done|done|]. simpl.
    rewrite length_delete; [lia|]. apply list_find_Some in Hf as (Hl & _). eauto.
Qed.

Lemma closeReceiver_evolves t r w :
  evolves (server w) (server (closeReceiver t r w)).
Proof.
  unfold closeReceiver. destruct (transfers (node w) !! t) as [tr|]; [|apply rtc_refl].
  case_decide; [|apply rtc_refl]. apply rtc_once. apply mutation_clear.
Qed.

Lemma runSenderDataOnClose_server t w : server (runSenderDataOnClose t w) = server w.
Proof.
  unfold runSenderDataOnClose. destruct (transfers (node w) !! t) as [tr|]; [|done].
  by apply foldl_server.
Qed.

Lemma runHandler_evolves h arg w : evolves (server w) (server (runHandler h arg w)).
Proof.
  destruct h; simpl.
  - apply runCloseListener_evolves.
  - unfold runResolvePart. destruct (transfers (node w) !! t); [|apply rtc_refl].
    rewrite runPipeBody_server. apply rtc_refl.
  - apply closeReceiver_evolves.
  - apply closeReceiver_evolves.
  - rewrite runSenderDataOnClose_server. apply rtc_refl.
  - unfold runSenderDataOnEnd. destruct (transfers (node w) !! t); [|apply rtc_refl].
    apply rtc_once. apply mutation_clear.
  - unfold runSenderDataOnError. destruct (transfers (node w) !! t); [|apply rtc_refl].
    apply rtc_once. apply mutation_clear.
Qed.

Lemma emit_evolves e ev arg w : evolves (server w) (server (emit e ev arg w)).
Proof.
  unfold emit.
  generalize (List.filter (fires e ev) (listeners (node w))). intros fired.
  set (w0 := set_listeners _ w).
  change (server w) with (server w0). clearbody w0. revert w0.
  induction fired as [|l fired IH]; intros w0; simpl; [apply rtc_refl|].
  eapply rtc_trans; [apply runHandler_evolves|apply IH].
Qed.

(** Unfolding the runtime operations down to the record fields. *)
Ltac fields :=
  unfold createSenderOrReceiver, writeHead, write, end_, destroy, addListener,
    removeListener, unsubscribe, pipeTo, unpipe, set_established, set_unestablished,
    set_responses, set_listeners, set_transfers, on_server, on_node in *;
  cbn [server node pathToEstablished pathToUnestablishedPipe responses destroyed
       listeners transfers nextConn nextTransfer fst snd sender receivers nReceivers
       reqRes unsubscribeCloseListener conn req pipe_sender pipe_receivers] in *.

Lemma handleSender_evolves rr p w :
  p ∉ RESERVED_PATHS → evolves (server w) (server (handleSender rr p w)).
Proof.
  intros Hres. unfold handleSender.
  case_decide as Hn; [apply rtc_refl|].
  case_decide as Hest; [apply rtc_refl|].
  apply eq_None_not_Some in Hest.
  destruct (pathToUnestablishedPipe (server w) !! p) as [up|] eqn:Hup.
  - destruct (sender up) eqn:Hs; [apply rtc_refl|].
    case_decide as Hsame; [|apply rtc_refl]. fields.
    match goal with |- context [getPipeIfEstablished ?u ?x] =>
      pose proof (getPipeIfEstablished_server u x) as Hsrv;
      destruct (getPipeIfEstablished u x) as [[pipe|] w1] end; fields.
    + rewrite runPipe_server. fields. rewrite Hsrv. fields.
      eapply rtc_l.
      { by eapply (mutation_update _ p up (mkUnestablished (Some _) (receivers up)
                                                          (nReceivers up))). }
      apply rtc_once. by apply (mutation_establish (mkServer _ _)).
    + rewrite Hsrv. apply rtc_once.
      by eapply (mutation_update _ p up (mkUnestablished (Some _) (receivers up)
                                                        (nReceivers up))).
  - fields. apply rtc_once. apply mutation_put; [done|done|].
    split; fields; simpl; lia.
Qed.

Lemma handleReceiver_evolves rr p w :
  p ∉ RESERVED_PATHS → evolves (server w) (server (handleReceiver rr p w)).
Proof.
  intros Hres. unfold handleReceiver.
  case_decide as Hn; [apply rtc_refl|].
  case_decide as Hest; [apply rtc_refl|].
  apply eq_None_not_Some in Hest.
  destruct (pathToUnestablishedPipe (server w) !! p) as [up|] eqn:Hup.
  - case_decide as Hsame; [|apply rtc_refl].
    case_decide as Hroom; [|apply rtc_refl]. fields.
    assert (record_ok (mkUnestablished (sender up)
              (receivers up ++ [mkRRU rr (closeListener receiver_type rr p)])
              (nReceivers up))) as Hok.
    { split; fields; [rewrite length_app; simpl; lia|lia]. }
    destruct (sender up) as [s|] eqn:Hs;
      (match goal with |- context [getPipeIfEstablished ?u ?x] =>
         pose proof (getPipeIfEstablished_server u x) as Hsrv;
         destruct (getPipeIfEstablished u x) as [[pipe|] w1] end; fields;
       [rewrite runPipe_server; fields; rewrite Hsrv; fields;
        eapply rtc_l; [by apply mutation_put|];
        apply rtc_once; by apply (mutation_establish (mkServer _ _))
       |rewrite Hsrv; fields; apply rtc_once; by apply mutation_put]).
  - fields. apply rtc_once. apply mutation_put; [done|done|].
    split; fields; simpl; lia.
Qed.

(** ** When a transfer starts *)

Lemma started_irrefl_eq w w' :
  nextTransfer (node w') = nextTransfer (node w) → ¬ started w w'.
Proof. unfold started. lia. Qed.

Lemma foldl_nextTransfer {A} (f : World → A → World) (l : list A) (w : World) :
  (∀ w x, nextTransfer (node (f w x)) = nextTransfer (node w)) →
  nextTransfer (node (foldl f w l)) = nextTransfer (node w).
Proof.
  intros Hf. revert w. induction l as [|x l IH]; intros w; simpl; [done|].
  rewrite IH. apply Hf.
Qed.

Lemma runCloseListener_nextTransfer ty rr p w :
  nextTransfer (node (runCloseListener ty rr p w)) = nextTransfer (node w).
Proof.
  unfold runCloseListener.
  destruct (pathToUnestablishedPipe (server w) !! p) as [up|]; [|done].
  destruct ty.
  - destruct (sender up); [|done]. by case_decide.
  - destruct (list_find _ _) as [[idx r]|]; [|done]. by case_decide.
Qed.

Lemma closeReceiver_nextTransfer t r w :
  nextTransfer (node (closeReceiver t r w)) = nextTransfer (node w).
Proof.
  unfold closeReceiver. destruct (transfers (node w) !! t); [|done]. by case_decide.
Qed.

Lemma runHandler_nextTransfer h arg w :
  nextTransfer (node (runHandler h arg w)) = nextTransfer (node w).
Proof.
  destruct h; simpl.
  - apply runCloseListener_nextTransfer.
  - unfold runResolvePart. destruct (transfers (node w) !! t); [|done].
    apply runPipeBody_nextTransfer.
  - apply closeReceiver_nextTransfer.
  - apply closeReceiver_nextTransfer.
  - unfold runSenderDataOnClose. destruct (transfers (node w) !! t); [|done].
    by apply foldl_nextTransfer.
  - unfold runSenderDataOnEnd. by destruct (transfers (node w) !! t).
  - unfold runSenderDataOnError. by destruct (transfers (node w) !! t).
Qed.

Lemma emit_nextTransfer e ev arg w :
  nextTransfer (node (emit e ev arg w)) = nextTransfer (node w).
Proof.
  unfold emit. rewrite foldl_nextTransfer; [done|].
  intros w0 l. apply runHandler_nextTransfer.
Qed.

Lemma handleSender_started rr p w :
  (started w (handleSender rr p w) ↔
   ∃ up, sender_registration rr p w = Some up ∧ establishment_predicate up) ∧
  (∀ up, sender_registration rr p w = Some up → ¬ establishment_predicate up →
     pathToUnestablishedPipe (server (handleSender rr p w)) !! p = Some up) ∧
  (sender_registration rr p w = None → server (handleSender rr p w) = server w).
Proof.
  unfold handleSender, sender_registration.
  case_decide as Hn.
  { rewrite decide_False; [|lia]. fields. split; [|done].
    split; [by intros ?%started_irrefl_eq|]. by intros (? & ? & _). }
  case_decide as Hest.
  { rewrite decide_False; [|intros [_ E]; rewrite E in Hest; by destruct Hest].
    fields. split; [|done].
    split; [by intros ?%started_irrefl_eq|]. by intros (? & ? & _). }
  apply eq_None_not_Some in Hest.
  rewrite decide_True; [|split; [lia|done]].
  destruct (pathToUnestablishedPipe (server w) !! p) as [up|] eqn:Hup.
  - destruct (sender up) eqn:Hs.
    { rewrite decide_False; [|by intros [? _]]. fields. split; [|done].
      split; [by intros ?%started_irrefl_eq|]. by intros (? & ? & _). }
    case_decide as Hsame.
    2:{ rewrite decide_False; [|by intros [_ ?]]. fields. split; [|done].
        split; [by intros ?%started_irrefl_eq|]. by intros (? & ? & _). }
    rewrite decide_True; [|done]. fields.
    match goal with |- context [getPipeIfEstablished ?u ?x] =>
      pose proof (getPipeIfEstablished_server u x) as Hsrv;
      pose proof (getPipeIfEstablished_node_counters u x) as Hcnt;
      pose proof (getPipeIfEstablished_is_Some u x) as Hsome;
      destruct (getPipeIfEstablished u x) as [[pipe|] w1] end; fields.
    + split; [|split; [|done]].
      * split; [intros _|intros _].
        -- eexists; split; [done|]. apply Hsome. eauto.
        -- unfold started. rewrite runPipe_started. fields. by rewrite Hcnt.
      * intros up' [= <-] Hnot. destruct Hnot. apply Hsome. eauto.
    + split; [|split; [|done]].
      * split.
        -- intros Hst. apply started_irrefl_eq in Hst; [done|]. by rewrite Hcnt.
        -- intros (up' & [= <-] & Hp). apply Hsome in Hp. by destruct Hp.
      * intros up' [= <-] _. rewrite Hsrv. fields. by rewrite lookup_insert_eq.
  - fields. split; [|split; [|done]].
    + split; [by intros ?%started_irrefl_eq|].
      intros (up' & [= <-] & [_ Hl]). simpl in Hl. lia.
    + intros up' [= <-] _. by rewrite lookup_insert_eq.
Qed.

Lemma handleReceiver_started rr p w :
  (started w (handleReceiver rr p w) ↔
   ∃ up, receiver_registration rr p w = Some up ∧ establishment_predicate up) ∧
  (∀ up, receiver_registration rr p w = Some up → ¬ establishment_predicate up →
     pathToUnestablishedPipe (server (handleReceiver rr p w)) !! p = Some up) ∧
  (receiver_registration rr p w = None → server (handleReceiver rr p w) = server w).
Proof.
  unfold handleReceiver, receiver_registration.
  case_decide as Hn.
  { rewrite decide_False; [|lia]. fields. split; [|done].
    split; [by intros ?%started_irrefl_eq|]. by intros (? & ? & _). }
  case_decide as Hest.
  { rewrite decide_False; [|intros [_ E]; rewrite E in Hest; by destruct Hest].
    fields. split; [|done].
    split; [by intros ?%started_irrefl_eq|]. by intros (? & ? & _). }
  apply eq_None_not_Some in Hest.
  rewrite decide_True; [|split; [lia|done]].
  destruct (pathToUnestablishedPipe (server w) !! p) as [up|] eqn:Hup.
  - case_decide as Hsame.
    2:{ rewrite decide_False; [|by intros [? _]]. fields. split; [|done].
        split; [by intros ?%started_irrefl_eq|]. by intros (? & ? & _). }
    case_decide as Hroom.
    2:{ rewrite decide_False; [|by intros [_ ?]]. fields. split; [|done].
        split; [by intros ?%started_irrefl_eq|]. by intros (? & ? & _). }
    rewrite decide_True; [|done]. fields.
    match goal with |- context [getPipeIfEstablished ?u ?x] =>
      pose proof (getPipeIfEstablished_server u x) as Hsrv;
      pose proof (getPipeIfEstablished_node_counters u x) as Hcnt;
      pose proof (getPipeIfEstablished_is_Some u x) as Hsome;
      destruct (getPipeIfEstablished u x) as [[pipe|] w1] end; fields.
    + split; [|split; [|done]].
      * split; [intros _|intros _].
        -- eexists; split; [done|]. apply Hsome. eauto.
        -- unfold started. rewrite runPipe_started. fields. rewrite Hcnt.
           by destruct (sender up).
      * intros up' [= <-] Hnot. destruct Hnot. apply Hsome. eauto.
    + split; [|split; [|done]].
      * split.
        -- intros Hst. apply started_irrefl_eq in Hst; [done|]. rewrite Hcnt.
           by destruct (sender up).
        -- intros (up' & [= <-] & Hp). apply Hsome in Hp. by destruct Hp.
      * intros up' [= <-] _. rewrite Hsrv.
        destruct (sender up); fields; by rewrite lookup_insert_eq.
  - fields. split; [|split; [|done]].
    + split; [by intros ?%started_irrefl_eq|].
      intros (up' & [= <-] & [[? Hs] _]). by simpl in Hs.
    + intros up' [= <-] _. by rewrite lookup_insert_eq.
Qed.

(** ** Responses and frames under [runPipe] *)

Lemma getPipeIfEstablished_responses p w :
  responses (node (getPipeIfEstablished p w).2) = responses (node w).
Proof.
  unfold getPipeIfEstablished.
  destruct (sender p); [|done]. case_decide; [|done]. cbn [snd].
  generalize (receivers p). intros l. revert w.
  induction l as [|x l IH]; intros w; simpl; [done|]. by rewrite IH.
Qed.

Lemma runPipeBody_content t path pipe part w c :
  content <$> responses (node (runPipeBody t path pipe part w)) !! c =
  content <$> responses (node w) !! c.
Proof.
  unfold runPipeBody. fields.
  generalize (pipe_receivers pipe). intros l.
  match goal with |- context [foldl ?f ?w0 l] => set (F := f); set (x := w0) end.
  change (responses (node w)) with (responses (node x)). clearbody x. revert x.
  induction l as [|y l IH]; intros x; simpl; [done|].
  rewrite IH. unfold F. fields. rewrite lookup_alter.
  case_decide as E; [|done]. rewrite E.
  by destruct (responses (node x) !! c).
Qed.

Lemma runPipe_content path pipe w c :
  content <$> responses (node (runPipe path pipe w)) !! c =
  content <$> responses (node w) !! c.
Proof.
  unfold runPipe. destruct (JS.includes _ _); [done|].
  by rewrite runPipeBody_content.
Qed.

Lemma runPipeBody_frame t path pipe part w :
  ∃ tr, transfers (node (runPipeBody t path pipe part w)) !! t = Some tr ∧
        t_path tr = path ∧ t_pipe tr = pipe ∧ closeCount tr = 0.
Proof.
  unfold runPipeBody. fields.
  generalize (pipe_receivers pipe). intros l.
  match goal with |- context [foldl ?f ?w0 l] => set (F := f); set (x := w0) end.
  assert (∃ tr, transfers (node x) !! t = Some tr ∧
                t_path tr = path ∧ t_pipe tr = pipe ∧ closeCount tr = 0) as Hx.
  { eexists. unfold x. fields. rewrite lookup_insert_eq. done. }
  clearbody x. revert x Hx.
  induction l as [|y l IH]; intros x Hx; simpl; [done|].
  apply IH. destruct Hx as (tr & Htr & ? & ? & ?).
  unfold F. fields. rewrite lookup_alter_eq, Htr. simpl. eauto.
Qed.

Lemma runPipe_frame path pipe w :
  ∃ tr, transfers (node (runPipe path pipe w)) !! nextTransfer (node w) = Some tr ∧
        t_path tr = path ∧ t_pipe tr = pipe ∧ closeCount tr = 0.
Proof.
  unfold runPipe. destruct (JS.includes _ _).
  - fields. rewrite lookup_insert_eq. eauto.
  - apply runPipeBody_frame.
Qed.

(** ** The close-watchers at establishment *)

Lemma remove_first_other e ev h ls l :
  on_emitter l ≠ e → l ∈ ls → l ∈ remove_first e ev h ls.
Proof.
  intros Hne. induction ls as [|x ls IH]; intros Hin; simpl; [done|].
  apply elem_of_cons in Hin as [->|Hin].
  - rewrite decide_False; [apply list_elem_of_here|]. by intros [? _].
  - case_decide; [done|]. apply list_elem_of_further. by apply IH.
Qed.

Lemma unsubscribe_other r l w :
  on_emitter l ≠ OnReq (conn (reqRes r)) →
  l ∈ listeners (node w) → l ∈ listeners (node (unsubscribe r w)).
Proof.
  intros Hne Hin. unfold unsubscribe, removeListener. fields.
  apply list_elem_of_In. apply (proj1 (in_rev _ _)).
  apply list_elem_of_In, remove_first_other; [done|].
  apply list_elem_of_In. apply (proj1 (in_rev _ _)). by apply list_elem_of_In.
Qed.

(** Establishing a record leaves the close-watcher of its sender installed:
    only the receivers' closures are called. *)
Lemma getPipeIfEstablished_keeps_sender_watcher p s l w :
  sender p = Some s →
  (∀ r, r ∈ receivers p → conn (reqRes r) ≠ conn (reqRes s)) →
  on_emitter l = OnReq (conn (reqRes s)) →
  l ∈ listeners (node w) →
  l ∈ listeners (node (getPipeIfEstablished p w).2).
Proof.
  intros Hs Hdiff He. unfold getPipeIfEstablished. rewrite Hs.
  case_decide as Hlen; [|done]. cbn [snd]. clear Hs Hlen.
  revert w. induction (receivers p) as [|r rs IH]; intros w Hin; simpl; [done|].
  apply IH.
  - intros r' Hr'. apply Hdiff. by apply list_elem_of_further.
  - apply unsubscribe_other; [|done]. rewrite He. intros [= E].
    by apply (Hdiff r (list_elem_of_here _ _)).
Qed.

(** ** Receivers leaving a transfer *)

Lemma closeReceiver_count t tr receiver w :
  transfers (node w) !! t = Some tr →
  closeCount <$> transfers (node (closeReceiver t receiver w)) !! t
    = Some (closeCount tr + 1) ∧
  (closeCount tr + 1 ≠ Z.of_nat (length (pipe_receivers (t_pipe tr))) →
   server (closeReceiver t receiver w) = server w ∧
   responses (node (closeReceiver t receiver w)) = responses (node w) ∧
   destroyed (node (closeReceiver t receiver w)) = destroyed (node w)) ∧
  (closeCount tr + 1 = Z.of_nat (length (pipe_receivers (t_pipe tr))) →
   pathToEstablished (server (closeReceiver t receiver w)) !! t_path tr = None ∧
   conn (pipe_sender (t_pipe tr)) ∈ destroyed (node (closeReceiver t receiver w))).
Proof.
  intros Ht. unfold closeReceiver. rewrite Ht. fields.
  case_decide as Hc; fields; rewrite lookup_alter_eq, lookup_insert_eq; simpl.
  - split; [done|]. split; [done|]. intros _. rewrite lookup_delete_eq. set_solver.
  - split; [done|]. split; [done|]. done.
Qed.

(** ** Listeners, records and frames are well formed *)

Lemma runPipeBody_listeners t path pipe part w :
  listeners (node (runPipeBody t path pipe part w)) =
  listeners (node w) ++ transfer_listeners t (source_of t pipe part) (pipe_receivers pipe).
Proof.
  unfold runPipeBody, transfer_listeners. fold (source_of t pipe part). fields.
  generalize (pipe_receivers pipe). intros l.
  match goal with |- context [foldl ?f ?w0 l] => set (F := f); set (x := w0) end.
  assert (∀ x, listeners (node (foldl F x l)) =
               listeners (node x) ++
               concat (map (λ r, [mkListener (OnReq (conn r)) ev_close false
                                    (receiverOnClose t r);
                                  mkListener (OnReq (conn r)) ev_error false
                                    (receiverOnError t r)]) l)) as H.
  { clear x. induction l as [|y l IH]; intros x; simpl; [by rewrite app_nil_r|].
    rewrite IH. unfold F. fields. by rewrite <- !app_assoc. }
  rewrite H. unfold x. fields. by rewrite <- !app_assoc.
Qed.

Lemma runPipeBody_transfers t path pipe part w :
  transfers (node (runPipeBody t path pipe part w)) =
  <[t := mkTransfer path pipe (Some (source_of t pipe part)) 0
           (map conn (pipe_receivers pipe))]> (transfers (node w)).
Proof.
  unfold runPipeBody. fold (source_of t pipe part). fields.
  generalize (pipe_receivers pipe). intros l.
  match goal with |- context [foldl ?f ?w0 l] => set (F := f); set (x := w0) end.
  assert (∀ acc x, transfers (node x) =
            <[t := mkTransfer path pipe (Some (source_of t pipe part)) 0 acc]>
              (transfers (node w)) →
          transfers (node (foldl F x l)) =
            <[t := mkTransfer path pipe (Some (source_of t pipe part)) 0 (acc ++ map conn l)]>
              (transfers (node w))) as H.
  { clear x. induction l as [|y l IH]; intros acc x Hx; simpl.
    - by rewrite app_nil_r.
    - rewrite (IH (acc ++ [conn y])).
      + by rewrite <- app_assoc.
      + unfold F. fields. rewrite Hx. by rewrite alter_insert_eq. }
  apply (H [] x). done.
Qed.

Lemma runPipeBody_counters t path pipe part w :
  nextConn (node (runPipeBody t path pipe part w)) = nextConn (node w).
Proof.
  unfold runPipeBody. fields.
  generalize (pipe_receivers pipe). intros l.
  match goal with |- context [foldl ?f ?w0 l] => set (F := f); set (x := w0) end.
  change (nextConn (node w)) with (nextConn (node x)). clearbody x. revert x.
  induction l as [|y l IH]; intros x; simpl; [done|]. by rewrite IH.
Qed.

(** ** Listeners of one event *)

Lemma filter_nil_iff {A} (f : A → bool) (l : list A) :
  List.filter f l = [] ↔ ∀ x, x ∈ l → f x = false.
Proof.
  induction l as [|y l IH]; simpl.
  - split; [intros _ x Hx; by apply elem_of_nil in Hx|done].
  - destruct (f y) eqn:Hy.
    + split; [done|]. intros H. specialize (H y (list_elem_of_here _ _)). congruence.
    + rewrite IH. split.
      * intros H x [->|Hx]%elem_of_cons; [done|by apply H].
      * intros H x Hx. apply H. by apply list_elem_of_further.
Qed.

Lemma filter_elem_of {A} (f : A → bool) (l : list A) x :
  x ∈ List.filter f l ↔ x ∈ l ∧ f x = true.
Proof. rewrite !list_elem_of_In. apply filter_In. Qed.

Lemma filter_sublist_length {A} (f : A → bool) (l k : list A) :
  l `sublist_of` k → (length (List.filter f l) ≤ length (List.filter f k))%nat.
Proof.
  induction 1 as [|x l k _ IH|x l k _ IH]; simpl; [done| |].
  - destruct (f x); simpl; lia.
  - destruct (f x); simpl; lia.
Qed.

Lemma filter_sublist {A} (f : A → bool) (l : list A) : List.filter f l `sublist_of` l.
Proof.
  induction l as [|x l IH]; simpl; [done|].
  destruct (f x); [by apply sublist_skip|by apply sublist_cons].
Qed.

Lemma filter_singleton_elem {A} (f : A → bool) (l : list A) x :
  (length (List.filter f l) ≤ 1)%nat → x ∈ l → f x = true → List.filter f l = [x].
Proof.
  intros Hlen Hx Hf.
  assert (x ∈ List.filter f l) as Hin by by apply filter_elem_of.
  destruct (List.filter f l) as [|y [|z k]]; simpl in *; [|by apply list_elem_of_singleton in Hin as ->|lia].
  by apply elem_of_nil in Hin.
Qed.

Lemma fires_true e ev l : fires e ev l = true ↔ on_emitter l = e ∧ on_event l = ev.
Proof.
  unfold fires. rewrite andb_true_iff, !bool_decide_eq_true. done.
Qed.

Lemma fires_false e ev l : fires e ev l = false ↔ ¬ (on_emitter l = e ∧ on_event l = ev).
Proof. rewrite <- fires_true. by destruct (fires e ev l). Qed.

Lemma err_listeners_app e l k :
  err_listeners e (l ++ k) = err_listeners e l ++ err_listeners e k.
Proof. apply List.filter_app. Qed.

Lemma err_listeners_subset e l k :
  (∀ x, x ∈ k → x ∈ l) → err_listeners e l = [] → err_listeners e k = [].
Proof.
  unfold err_listeners. rewrite !filter_nil_iff. intros Hsub H x Hx. by apply H, Hsub.
Qed.

(** ** Elementary steps keep the well-formedness *)

Lemma wf_bump U T L nc nt : wf_parts U T L nc nt → wf_parts U T L (S nc) nt.
Proof.
  intros [Hg Ha Hf He Hfo Hfo1 He1 Hs]. split; try done.
  - intros h g Hh. destruct (Hg h g Hh) as [Hnd Hc]. split; [done|].
    intros c Hin. destruct (Hc c Hin). split; [lia|done].
  - intros l Hl Hev. destruct (He l Hl Hev) as [Ho Hm]. split; [done|].
    destruct (on_emitter l); [lia|done|done].
Qed.

(** A listener that is neither of ["error"] nor of a form. *)
Lemma wf_add_plain U T L nc nt l :
  wf_parts U T L nc nt →
  on_event l ≠ ev_error → (∀ t, on_emitter l ≠ OnForm t) → (∀ t, handler l ≠ resolvePart t) →
  wf_parts U T (L ++ [l]) nc nt.
Proof.
  intros [Hg Ha Hf He Hfo Hfo1 He1 Hs] Hev Hem Hhd.
  assert (∀ e, err_listeners e (L ++ [l]) = err_listeners e L) as Herr.
  { intros e. rewrite err_listeners_app. unfold err_listeners at 2. simpl.
    destruct (fires e ev_error l) eqn:E; [|by rewrite app_nil_r].
    apply fires_true in E as [_ E]. done. }
  split; try done.
  - intros h g Hh. destruct (Hg h g Hh) as [Hnd Hc]. split; [done|].
    intros c Hin. rewrite Herr. by apply Hc.
  - intros x [Hx|Hx%list_elem_of_singleton]%elem_of_app Hxe; [by apply He|]. by subst.
  - intros x t [Hx|Hx%list_elem_of_singleton]%elem_of_app Hxe; [by apply Hfo|].
    subst. destruct Hxe as [E|E]; [by apply Hem in E|by apply Hhd in E].
  - intros t. rewrite List.filter_app. simpl.
    destruct (fires (OnForm t) ev_part l) eqn:E.
    + apply fires_true in E as [E _]. by apply Hem in E.
    + rewrite app_nil_r. apply Hfo1.
  - intros e. rewrite Herr. apply He1.
  - intros t tr e Ht Hsd. apply elem_of_app. left. by eapply Hs.
Qed.

(** Listeners are removed, none of them of ["error"]. *)
Lemma wf_remove U T L L' nc nt :
  wf_parts U T L nc nt →
  L' `sublist_of` L →
  (∀ l, l ∈ L → on_event l = ev_error → l ∈ L') →
  wf_parts U T L' nc nt.
Proof.
  intros [Hg Ha Hf He Hfo Hfo1 He1 Hs] Hsub Hkeep.
  assert (∀ x, x ∈ L' → x ∈ L) as Hin by (intros x Hx; by eapply elem_of_sublist).
  split; try done.
  - intros h g Hh. destruct (Hg h g Hh) as [Hnd Hc]. split; [done|].
    intros c Hc'. destruct (Hc c Hc') as [? Hnil]. split; [done|].
    by eapply err_listeners_subset.
  - intros l Hl. apply He. by apply Hin.
  - intros l t Hl. apply Hfo. by apply Hin.
  - intros t. etrans; [by apply filter_sublist_length|apply Hfo1].
  - intros e. etrans; [by apply filter_sublist_length|apply He1].
  - intros t tr e Ht Hsd. apply Hkeep; [by eapply Hs|done].
Qed.

Lemma wf_fresh U T L nc nt : wf_parts U T L nc nt → fresh U T L nc.
Proof.
  intros [Hg Ha Hf He Hfo Hfo1 He1 Hs]. split.
  - intros h g Hh Hin. destruct (Hg h g Hh) as [_ Hc]. destruct (Hc _ Hin). lia.
  - apply filter_nil_iff. intros l Hl. apply fires_false. intros [Hem Hev].
    destruct (He l Hl Hev) as [_ Hm]. rewrite Hem in Hm. lia.
Qed.

Lemma waiting_set_record_ne p o U T h :
  h ≠ inl p → waiting (set_record p o U) T h = waiting U T h.
Proof.
  intros Hne. destruct h as [q|t]; [|done]. simpl.
  assert (p ≠ q) by congruence.
  destruct o; simpl; [by rewrite lookup_insert_ne|by rewrite lookup_delete_ne].
Qed.

Lemma waiting_set_record_eq p o U T :
  waiting (set_record p o U) T (inl p) = conns_of <$> o.
Proof.
  destruct o; simpl; [by rewrite lookup_insert_eq|by rewrite lookup_delete_eq].
Qed.

Lemma wf_record U T L nc nt p o :
  wf_parts U T L nc nt →
  (∀ up', o = Some up' →
     NoDup (conns_of up') ∧
     ∀ c, c ∈ conns_of up' →
       (∃ up, U !! p = Some up ∧ c ∈ conns_of up) ∨ ((c < nc)%nat ∧ fresh U T L c)) →
  wf_parts (set_record p o U) T L nc nt.
Proof.
  intros Hwf Ho. pose proof Hwf as [Hg Ha Hf He Hfo Hfo1 He1 Hs].
  assert (∀ g c, waiting (set_record p o U) T (inl p) = Some g → c ∈ g →
            ((c < nc)%nat ∧ err_listeners (OnReq c) L = []) ∧
            ∀ h g', h ≠ inl p → waiting U T h = Some g' → c ∉ g') as Hnew.
  { intros g c. rewrite waiting_set_record_eq. destruct o as [up'|]; [|done].
    simpl. intros [= <-] Hc. destruct (Ho up' eq_refl) as [_ Hcs].
    destruct (Hcs c Hc) as [(up & Hup & Hin)|[Hlt [Hfr Herr]]].
    - assert (waiting U T (inl p) = Some (conns_of up)) as Hw by (simpl; by rewrite Hup).
      split; [by apply (proj2 (Hg _ _ Hw) c)|].
      intros h g' Hne Hh. by apply (Ha (inl p) h (conns_of up) g' c).
    - split; [done|]. intros h g' _ Hh. by apply (Hfr h g'). }
  split; try done.
  - intros h g Hh. destruct (decide (h = inl p)) as [->|Hne].
    + split.
      * rewrite waiting_set_record_eq in Hh. destruct o as [up'|]; [|done].
        simpl in Hh. injection Hh as <-. by apply (Ho up' eq_refl).
      * intros c Hc. by apply (Hnew g c Hh Hc).
    + rewrite waiting_set_record_ne in Hh by done. by apply (Hg h g).
  - intros h h' g g' c Hne Hh Hh' Hc.
    destruct (decide (h = inl p)) as [->|Hn1]; destruct (decide (h' = inl p)) as [->|Hn2].
    + done.
    + rewrite waiting_set_record_ne in Hh' by done.
      by apply (proj2 (Hnew g c Hh Hc) h' g').
    + rewrite waiting_set_record_ne in Hh by done.
      intros Hc'. by apply (proj2 (Hnew g' c Hh' Hc') h g).
    + rewrite waiting_set_record_ne in Hh, Hh' by done. by apply (Ha h h' g g' c).
Qed.

(** A frame changes, its pipe and its source do not. *)
Lemma waiting_frame_same U T t tr tr' h :
  T !! t = Some tr → t_senderData tr' = t_senderData tr → t_pipe tr' = t_pipe tr →
  waiting U (<[t := tr']> T) h = waiting U T h.
Proof.
  intros Ht Hsd Hp. destruct h as [q|t']; [done|]. simpl.
  destruct (decide (t = t')) as [<-|Hne].
  - rewrite lookup_insert_eq, Ht, Hsd, Hp. done.
  - by rewrite lookup_insert_ne.
Qed.

Lemma wf_frame_same U T L nc nt t tr tr' :
  wf_parts U T L nc nt →
  T !! t = Some tr → t_senderData tr' = t_senderData tr → t_pipe tr' = t_pipe tr →
  wf_parts U (<[t := tr']> T) L nc nt.
Proof.
  intros [Hg Ha Hf He Hfo Hfo1 He1 Hs] Ht Hsd Hp.
  assert (∀ h, waiting U (<[t := tr']> T) h = waiting U T h) as Hw
    by (intros h; by eapply waiting_frame_same).
  assert (∀ t' x, <[t := tr']> T !! t' = Some x →
            ∃ y, T !! t' = Some y ∧ t_senderData x = t_senderData y) as Hlk.
  { intros t' x. destruct (decide (t = t')) as [<-|Hne].
    - rewrite lookup_insert_eq. intros [= <-]. eauto.
    - rewrite lookup_insert_ne by done. eauto. }
  assert (∀ t' y, T !! t' = Some y →
            ∃ x, <[t := tr']> T !! t' = Some x ∧ t_senderData x = t_senderData y) as Hlk'.
  { intros t' y Hy. destruct (decide (t = t')) as [<-|Hne].
    - rewrite lookup_insert_eq. exists tr'. split; [done|]. congruence.
    - rewrite lookup_insert_ne by done. eauto. }
  split; try done.
  - intros h g. rewrite Hw. apply Hg.
  - intros h h' g g' c. rewrite !Hw. apply Ha.
  - intros t' x Hx. destruct (Hlk t' x Hx) as (y & Hy & _). by eapply Hf.
  - intros l Hl Hev. destruct (He l Hl Hev) as [Ho Hm]. split; [done|].
    destruct (on_emitter l) as [c|t'|t']; [done|done|].
    destruct Hm as (y & Hy & Hsy). destruct (Hlk' t' y Hy) as (x & Hx & Hsx).
    exists x. split; [done|]. congruence.
  - intros l t' Hl Hor. destruct (Hfo l t' Hl Hor) as [-> (y & Hy & Hsy)]. split; [done|].
    destruct (Hlk' t' y Hy) as (x & Hx & Hsx). exists x. split; [done|]. congruence.
  - intros t' x e Hx Hsd'. destruct (Hlk t' x Hx) as (y & Hy & Hsy).
    eapply Hs; [done|]. congruence.
Qed.

(** ** The listeners of a starting transfer *)

Lemma err_receivers_nil e t (rs : list ReqRes) :
  (∀ r, r ∈ rs → OnReq (conn r) ≠ e) →
  err_listeners e
    (concat (map (λ r, [mkListener (OnReq (conn r)) ev_close false (receiverOnClose t r);
                        mkListener (OnReq (conn r)) ev_error false (receiverOnError t r)])
                 rs)) = [].
Proof.
  intros Hne. apply filter_nil_iff. intros l Hl. apply fires_false. intros [Hem _].
  apply list_elem_of_In, in_concat in Hl as (k & Hk & Hl).
  apply in_map_iff in Hk as (r & <- & Hr).
  apply (Hne r); [by apply list_elem_of_In|].
  destruct Hl as [<-|[<-|[]]]; done.
Qed.

Lemma err_listeners_cons e l ls :
  err_listeners e (l :: ls) =
  (if fires e ev_error l then [l] else []) ++ err_listeners e ls.
Proof. unfold err_listeners. simpl. by destruct (fires e ev_error l). Qed.

Lemma fires_other_event e ev e' ev' o h :
  ev' ≠ ev → fires e ev (mkListener e' ev' o h) = false.
Proof. intros Hne. apply fires_false. intros [_ ?]. done. Qed.

Lemma err_receivers_length e t (rs : list ReqRes) :
  NoDup (map conn rs) →
  (length (err_listeners e
    (concat (map (λ r, [mkListener (OnReq (conn r)) ev_close false (receiverOnClose t r);
                        mkListener (OnReq (conn r)) ev_error false (receiverOnError t r)])
                 rs))) ≤ 1)%nat.
Proof.
  induction rs as [|r rs IH]; [simpl; lia|].
  intros [Hr Hnd]%NoDup_cons. cbn [map concat app].
  rewrite !err_listeners_cons, fires_other_event by done. cbn [app].
  destruct (fires e ev_error _) eqn:E; cbn [app length].
  - apply fires_true in E as [E _]. simpl in E. rewrite err_receivers_nil; [simpl; lia|].
    intros r' Hr' Heq. apply Hr. rewrite <- E in Heq. injection Heq as Heq.
    apply list_elem_of_fmap. exists r'. by split.
  - by apply IH.
Qed.

Lemma err_transfer_nil e t sd rs :
  e ≠ sd → (∀ r, r ∈ rs → OnReq (conn r) ≠ e) →
  err_listeners e (transfer_listeners t sd rs) = [].
Proof.
  intros Hsd Hrs. unfold transfer_listeners. rewrite err_listeners_app.
  rewrite err_receivers_nil by done. apply filter_nil_iff.
  intros l Hl. apply fires_false. intros [Hem _]. apply Hsd.
  rewrite !elem_of_cons, elem_of_nil in Hl. destruct Hl as [->|[->|[->|[]]]]; done.
Qed.

Lemma err_transfer_length e t sd rs :
  NoDup (map conn rs) → (∀ r, r ∈ rs → OnReq (conn r) ≠ sd) →
  (length (err_listeners e (transfer_listeners t sd rs)) ≤ 1)%nat.
Proof.
  intros Hnd Hsd. unfold transfer_listeners. rewrite err_listeners_app, length_app.
  destruct (decide (e = sd)) as [->|Hne].
  - rewrite err_receivers_nil by done.
    rewrite !err_listeners_cons, !fires_other_event by done. cbn [app].
    destruct (fires _ _ _); simpl; lia.
  - pose proof (err_receivers_length e t rs Hnd).
    assert (err_listeners e
              [mkListener sd ev_close false (senderDataOnClose t);
               mkListener sd ev_end false (senderDataOnEnd t);
               mkListener sd ev_error false (senderDataOnError t)] = []) as ->; [|simpl; lia].
    apply filter_nil_iff. intros l Hl. apply fires_false. intros [Hem _]. apply Hne.
    rewrite !elem_of_cons, elem_of_nil in Hl. destruct Hl as [->|[->|[->|[]]]]; done.
Qed.

Lemma transfer_listeners_error t sd rs l :
  l ∈ transfer_listeners t sd rs → on_event l = ev_error →
  once l = false ∧
  (on_emitter l = sd ∨ ∃ r, r ∈ rs ∧ on_emitter l = OnReq (conn r)).
Proof.
  unfold transfer_listeners. intros [Hl|Hl]%elem_of_app Hev.
  - apply list_elem_of_In, in_concat in Hl as (k & Hk & Hl).
    apply in_map_iff in Hk as (r & <- & Hr).
    destruct Hl as [<-|[<-|[]]]; [done|]. split; [done|]. right. exists r.
    split; [by apply list_elem_of_In|done].
  - rewrite !elem_of_cons, elem_of_nil in Hl. destruct Hl as [->|[->|[->|[]]]]; try done.
    split; [done|by left].
Qed.

Lemma transfer_listeners_plain t sd rs l t' :
  (∀ t'', sd ≠ OnForm t'') →
  l ∈ transfer_listeners t sd rs → on_emitter l ≠ OnForm t' ∧ handler l ≠ resolvePart t'.
Proof.
  unfold transfer_listeners. intros Hsd [Hl|Hl]%elem_of_app.
  - apply list_elem_of_In, in_concat in Hl as (k & Hk & Hl).
    apply in_map_iff in Hk as (r & <- & Hr).
    destruct Hl as [<-|[<-|[]]]; done.
  - rewrite !elem_of_cons, elem_of_nil in Hl.
    destruct Hl as [->|[->|[->|[]]]]; (split; [apply Hsd|done]).
Qed.

Lemma transfer_listeners_source t sd rs :
  mkListener sd ev_error false (senderDataOnError t) ∈ transfer_listeners t sd rs.
Proof.
  unfold transfer_listeners. apply elem_of_app. right.
  do 2 apply list_elem_of_further. apply list_elem_of_here.
Qed.

Lemma waiting_running_ne U T t tr h :
  h ≠ inr t → waiting U (<[t := tr]> T) h = waiting U T h.
Proof.
  intros Hne. destruct h as [q|t']; [done|]. simpl.
  rewrite lookup_insert_ne; [done|]. congruence.
Qed.

(** A transfer starts: its participants stop waiting and its listeners are
    installed. *)
Lemma wf_start U T L nc nt nt' t path pipe sd cc pd :
  wf_parts U T L nc nt →
  (T !! t = None ∧ t = nt ∧ nt' = S nt) ∨
  (∃ tr, T !! t = Some tr ∧ t_senderData tr = None ∧ nt' = nt) →
  (∀ l, l ∈ L → on_emitter l ≠ OnForm t ∧ handler l ≠ resolvePart t) →
  NoDup (pipe_conns pipe) →
  (∀ c, c ∈ pipe_conns pipe →
     (c < nc)%nat ∧ err_listeners (OnReq c) L = [] ∧
     ∀ h g, h ≠ inr t → waiting U T h = Some g → c ∉ g) →
  sd = OnReq (conn (pipe_sender pipe)) ∨ sd = OnPart t →
  wf_parts U (<[t := mkTransfer path pipe (Some sd) cc pd]> T)
             (L ++ transfer_listeners t sd (pipe_receivers pipe)) nc nt'.
Proof.
  intros [Hg Ha Hf He Hfo Hfo1 He1 Hs] Ht Hnoform Hnd Hav Hsd.
  set (T' := <[t := mkTransfer path pipe (Some sd) cc pd]> T).
  set (rs := pipe_receivers pipe).
  assert (waiting U T' (inr t) = None) as Hwt.
  { simpl. unfold T'. by rewrite lookup_insert_eq. }
  assert (∀ h g, waiting U T' h = Some g → h ≠ inr t ∧ waiting U T h = Some g) as Hw.
  { intros h g Hh. destruct (decide (h = inr t)) as [->|Hne]; [congruence|].
    split; [done|]. unfold T' in Hh. by rewrite waiting_running_ne in Hh. }
  assert (∀ r, r ∈ rs → conn r ∈ pipe_conns pipe) as Hrs.
  { intros r Hr. apply list_elem_of_further, list_elem_of_fmap. eauto. }
  assert (NoDup (map conn rs)) as Hndr by by apply NoDup_cons in Hnd as [_ ?].
  assert (∀ r, r ∈ rs → OnReq (conn r) ≠ sd) as Hsdr.
  { intros r Hr Heq. destruct Hsd as [->| ->]; [|done]. injection Heq as Heq.
    apply NoDup_cons in Hnd as [Hnd _]. apply Hnd. rewrite <- Heq.
    apply list_elem_of_fmap. eauto. }
  assert (∀ t'', sd ≠ OnForm t'') as Hsdf by (intros t''; by destruct Hsd as [->| ->]).
  assert (err_listeners (OnPart t) L = []) as Hpart.
  { apply filter_nil_iff. intros l Hl. apply fires_false. intros [Hem Hev].
    destruct (He l Hl Hev) as [_ Hm]. rewrite Hem in Hm. destruct Hm as (tr & Htr & Hsdt).
    destruct Ht as [(Hn & _)|(tr' & Htr' & Hnone & _)]; congruence. }
  assert (err_listeners sd L = []) as Hsd0.
  { destruct Hsd as [->| ->]; [|done]. apply Hav. apply list_elem_of_here. }
  split.
  - intros h g Hh. destruct (Hw h g Hh) as [Hne Hold].
    destruct (Hg h g Hold) as [Hndg Hc]. split; [done|].
    intros c Hin. destruct (Hc c Hin) as [Hlt Herr]. split; [done|].
    rewrite err_listeners_app, Herr. apply err_transfer_nil.
    + intros <-. destruct Hsd as [Heq|Heq]; [|done]. injection Heq as ->.
      destruct (Hav _ (list_elem_of_here _ _)) as (_ & _ & Hdis).
      by apply (Hdis h g).
    + intros r Hr Heq. injection Heq as Heq.
      destruct (Hav _ (Hrs r Hr)) as (_ & _ & Hdis). apply (Hdis h g); [done|done|].
      by rewrite Heq.
  - intros h h' g g' c Hne Hh Hh'.
    destruct (Hw h g Hh) as [_ Hold]. destruct (Hw h' g' Hh') as [_ Hold'].
    by apply (Ha h h' g g' c).
  - intros t' tr. unfold T'. destruct (decide (t = t')) as [<-|Hne].
    + intros _. destruct Ht as [(_ & -> & ->)|(tr' & Htr' & _ & ->)]; [lia|by eapply Hf].
    + rewrite lookup_insert_ne by done. intros Htr. apply Hf in Htr.
      destruct Ht as [(_ & _ & ->)|(_ & _ & _ & ->)]; lia.
  - intros l [Hl|Hl]%elem_of_app Hev.
    + destruct (He l Hl Hev) as [Ho Hm]. split; [done|].
      destruct (on_emitter l) as [c|t'|t'] eqn:Hem; [done|done|].
      destruct Hm as (tr & Htr & Hsdt). exists tr. split; [|done].
      unfold T'. rewrite lookup_insert_ne; [done|]. intros <-.
      destruct Ht as [(Hn & _)|(tr' & Htr' & Hnone & _)]; congruence.
    + destruct (transfer_listeners_error _ _ _ _ Hl Hev) as [Ho Hem]. split; [done|].
      destruct Hem as [->|(r & Hr & ->)].
      * destruct Hsd as [->| ->].
        -- apply Hav. apply list_elem_of_here.
        -- eexists. split; [unfold T'; by rewrite lookup_insert_eq|done].
      * by apply Hav, Hrs.
  - intros l t' [Hl|Hl]%elem_of_app Hor.
    + destruct (Hfo l t' Hl Hor) as [-> (tr & Htr & Hnone)]. split; [done|].
      exists tr. split; [|done]. unfold T'. rewrite lookup_insert_ne; [done|].
      intros <-. destruct (Hnoform _ Hl) as [Hx _]. by apply Hx.
    + destruct (transfer_listeners_plain t sd rs l t' Hsdf Hl) as [H1 H2].
      by destruct Hor.
  - intros t'. rewrite List.filter_app.
    assert (List.filter (fires (OnForm t') ev_part) (transfer_listeners t sd rs) = []) as ->.
    { apply filter_nil_iff. intros l Hl. apply fires_false. intros [Hem _].
      by destruct (transfer_listeners_plain t sd rs l t' Hsdf Hl). }
    rewrite app_nil_r. apply Hfo1.
  - intros e. rewrite err_listeners_app, length_app.
    destruct (decide (e ∈ sd :: map (λ r, OnReq (conn r)) rs)) as [Hin|Hout].
    + assert (err_listeners e L = []) as ->.
      { apply elem_of_cons in Hin as [->|Hin]; [done|].
        apply list_elem_of_fmap in Hin as (r & -> & Hr). by apply Hav, Hrs. }
      simpl. by apply err_transfer_length.
    + apply not_elem_of_cons in Hout as [Hsdne Hout].
      rewrite err_transfer_nil; [rewrite Nat.add_0_r; apply He1|done|].
      intros r Hr Heq. apply Hout. apply list_elem_of_fmap. eauto.
  - intros t' tr e. unfold T'. destruct (decide (t = t')) as [<-|Hne].
    + rewrite lookup_insert_eq. intros [= <-]. simpl. intros [= <-].
      apply elem_of_app. right. apply transfer_listeners_source.
    + rewrite lookup_insert_ne by done. intros Htr Hsdt.
      apply elem_of_app. left. by eapply Hs.
Qed.

(** The participants of a multipart transfer wait in its frame. *)
Lemma wf_pend U T L nc nt path pipe cc pd :
  wf_parts U T L nc nt →
  NoDup (pipe_conns pipe) →
  (∀ c, c ∈ pipe_conns pipe →
     (c < nc)%nat ∧ err_listeners (OnReq c) L = [] ∧
     ∀ h g, waiting U T h = Some g → c ∉ g) →
  wf_parts U (<[nt := mkTransfer path pipe None cc pd]> T)
             (L ++ [mkListener (OnForm nt) ev_part true (resolvePart nt)]) nc (S nt).
Proof.
  intros [Hg Ha Hf He Hfo Hfo1 He1 Hs] Hnd Hav.
  set (T' := <[nt := mkTransfer path pipe None cc pd]> T).
  set (l0 := mkListener (OnForm nt) ev_part true (resolvePart nt)).
  assert (T !! nt = None) as Hnt.
  { destruct (T !! nt) as [tr|] eqn:E; [|done]. apply Hf in E. lia. }
  assert (waiting U T (inr nt) = None) as Hw0 by (simpl; by rewrite Hnt).
  assert (waiting U T' (inr nt) = Some (pipe_conns pipe)) as Hwt.
  { simpl. unfold T'. by rewrite lookup_insert_eq. }
  assert (∀ h, h ≠ inr nt → waiting U T' h = waiting U T h) as Hw
    by (intros h Hh; by apply waiting_running_ne).
  assert (∀ e, err_listeners e (L ++ [l0]) = err_listeners e L) as Herr.
  { intros e. rewrite err_listeners_app, err_listeners_cons.
    unfold l0. rewrite fires_other_event by done. by rewrite app_nil_r. }
  assert (∀ l, l ∈ L → on_emitter l ≠ OnForm nt) as Hnoform.
  { intros l Hl Hem. destruct (Hfo l nt Hl (or_introl Hem)) as [_ (tr & Htr & _)].
    congruence. }
  split.
  - intros h g Hh. destruct (decide (h = inr nt)) as [->|Hne].
    + rewrite Hwt in Hh. injection Hh as <-. split; [done|].
      intros c Hc. rewrite Herr. destruct (Hav c Hc) as (? & ? & _). done.
    + rewrite Hw in Hh by done. destruct (Hg h g Hh) as [? Hc]. split; [done|].
      intros c Hin. rewrite Herr. by apply Hc.
  - intros h h' g g' c Hne Hh Hh' Hc.
    destruct (decide (h = inr nt)) as [->|Hn1]; destruct (decide (h' = inr nt)) as [->|Hn2].
    + done.
    + rewrite Hwt in Hh. injection Hh as <-. rewrite Hw in Hh' by done.
      destruct (Hav c Hc) as (_ & _ & Hdis). by apply (Hdis h' g').
    + rewrite Hwt in Hh'. injection Hh' as <-. rewrite Hw in Hh by done.
      intros Hc'. destruct (Hav c Hc') as (_ & _ & Hdis). by apply (Hdis h g).
    + rewrite Hw in Hh, Hh' by done. by apply (Ha h h' g g' c).
  - intros t tr. unfold T'. destruct (decide (nt = t)) as [<-|Hne]; [lia|].
    rewrite lookup_insert_ne by done. intros Htr. apply Hf in Htr. lia.
  - intros l [Hl|Hl%list_elem_of_singleton]%elem_of_app Hev; [|by subst].
    destruct (He l Hl Hev) as [Ho Hm]. split; [done|].
    destruct (on_emitter l) as [c|t'|t']; [done|done|].
    destruct Hm as (tr & Htr & Hsdt). exists tr. split; [|done].
    unfold T'. rewrite lookup_insert_ne; [done|]. intros <-. congruence.
  - intros l t [Hl|Hl%list_elem_of_singleton]%elem_of_app Hor.
    + destruct (Hfo l t Hl Hor) as [-> (tr & Htr & Hnone)]. split; [done|].
      exists tr. split; [|done]. unfold T'. rewrite lookup_insert_ne; [done|].
      intros <-. congruence.
    + subst l. unfold l0 in Hor. simpl in Hor.
      assert (t = nt) as -> by (destruct Hor as [E|E]; congruence).
      split; [done|]. eexists. split; [unfold T'; by rewrite lookup_insert_eq|done].
  - intros t. rewrite List.filter_app, length_app. simpl.
    destruct (fires (OnForm t) ev_part l0) eqn:E.
    + apply fires_true in E as [E _]. simpl in E. injection E as <-.
      assert (List.filter (fires (OnForm nt) ev_part) L = []) as ->; [|simpl; lia].
      apply filter_nil_iff. intros l Hl. apply fires_false. intros [Hem _].
      by apply (Hnoform l).
    + simpl. rewrite Nat.add_0_r. apply Hfo1.
  - intros e. rewrite Herr. apply He1.
  - intros t tr e. unfold T'. destruct (decide (nt = t)) as [<-|Hne].
    + rewrite lookup_insert_eq. by intros [= <-].
    + rewrite lookup_insert_ne by done. intros Htr Hsdt.
      apply elem_of_app. left. by eapply Hs.
Qed.

Lemma wf_init : well_formed init.
Proof.
  split; simpl.
  - intros [p|t] g; simpl; by rewrite lookup_empty.
  - intros [p|t] h' g g' c _; simpl; by rewrite lookup_empty.
  - intros t tr. by rewrite lookup_empty.
  - intros l Hl. by apply elem_of_nil in Hl.
  - intros l t Hl. by apply elem_of_nil in Hl.
  - intros t. lia.
  - intros e. lia.
  - intros t tr e. by rewrite lookup_empty.
Qed.

(** ** The functions of the source keep the well-formedness *)

Lemma sublist_rev {A} (l k : list A) : l `sublist_of` k → rev l `sublist_of` rev k.
Proof.
  induction 1 as [|x l k _ IH|x l k _ IH]; simpl; [done| |].
  - by apply sublist_app.
  - by apply sublist_inserts_r.
Qed.

Lemma remove_first_sublist e ev h ls : remove_first e ev h ls `sublist_of` ls.
Proof.
  induction ls as [|l ls IH]; simpl; [done|].
  case_decide; [by apply sublist_cons|by apply sublist_skip].
Qed.

Lemma remove_first_other_event e ev h ls l :
  on_event l ≠ ev → l ∈ ls → l ∈ remove_first e ev h ls.
Proof.
  intros Hne. induction ls as [|x ls IH]; intros Hin; simpl; [done|].
  apply elem_of_cons in Hin as [->|Hin].
  - rewrite decide_False; [apply list_elem_of_here|]. by intros (_ & ? & _).
  - case_decide; [done|]. apply list_elem_of_further. by apply IH.
Qed.

Lemma unsubscribe_wf r w : well_formed w → well_formed (unsubscribe r w).
Proof.
  unfold well_formed, unsubscribe, removeListener. fields. intros Hwf.
  eapply wf_remove; [done| |].
  - rewrite <- (rev_involutive (listeners (node w))) at 2.
    apply sublist_rev, remove_first_sublist.
  - intros l Hl Hev. apply list_elem_of_In, (proj1 (in_rev _ _)), list_elem_of_In.
    apply remove_first_other_event; [by rewrite Hev|].
    by apply list_elem_of_In, (proj1 (in_rev _ _)), list_elem_of_In.
Qed.

Lemma getPipeIfEstablished_wf p w : well_formed w → well_formed (getPipeIfEstablished p w).2.
Proof.
  unfold getPipeIfEstablished. destruct (sender p); [|done]. case_decide; [|done].
  cbn [snd]. generalize (receivers p). intros l. revert w.
  induction l as [|x l IH]; intros w Hwf; simpl; [done|].
  by apply IH, unsubscribe_wf.
Qed.

Lemma getPipeIfEstablished_counters p w :
  nextConn (node (getPipeIfEstablished p w).2) = nextConn (node w) ∧
  transfers (node (getPipeIfEstablished p w).2) = transfers (node w).
Proof.
  unfold getPipeIfEstablished. destruct (sender p); [|done]. case_decide; [|done].
  cbn [snd]. generalize (receivers p). intros l. revert w.
  induction l as [|x l IH]; intros w; simpl; [done|].
  destruct (IH (unsubscribe x w)) as [-> ->]. done.
Qed.

Lemma record_group_facts w p up :
  well_formed w → pathToUnestablishedPipe (server w) !! p = Some up →
  NoDup (conns_of up) ∧
  ∀ c, c ∈ conns_of up →
    (c < nextConn (node w))%nat ∧ err_listeners (OnReq c) (listeners (node w)) = [] ∧
    ∀ h g, waiting (delete p (pathToUnestablishedPipe (server w))) (transfers (node w)) h
             = Some g → c ∉ g.
Proof.
  intros [Hg Ha _ _ _ _ _ _] Hup.
  assert (waiting (pathToUnestablishedPipe (server w)) (transfers (node w)) (inl p)
            = Some (conns_of up)) as Hw by (simpl; by rewrite Hup).
  destruct (Hg _ _ Hw) as [Hnd Hc]. split; [done|].
  intros c Hin. destruct (Hc c Hin) as [Hlt Herr]. split; [done|]. split; [done|].
  intros h g Hh. destruct (decide (h = inl p)) as [->|Hne].
  - simpl in Hh. by rewrite lookup_delete_eq in Hh.
  - change (delete p ?U) with (set_record p None U) in Hh.
    rewrite waiting_set_record_ne in Hh by done.
    by apply (Ha (inl p) h (conns_of up) g c).
Qed.

Lemma runPipe_wf path pipe w up :
  well_formed w → pathToUnestablishedPipe (server w) !! path = Some up →
  pipe_conns pipe = conns_of up →
  well_formed (runPipe path pipe w).
Proof.
  intros Hwf Hup Hpc.
  destruct (record_group_facts w path up Hwf Hup) as [Hnd Hav].
  rewrite <- Hpc in Hnd, Hav.
  assert (wf_parts (delete path (pathToUnestablishedPipe (server w))) (transfers (node w))
            (listeners (node w)) (nextConn (node w)) (nextTransfer (node w))) as Hdel.
  { apply (wf_record _ _ _ _ _ path None Hwf). done. }
  unfold runPipe. destruct (JS.includes _ _).
  - unfold well_formed. fields. by apply wf_pend.
  - unfold well_formed. rewrite runPipeBody_listeners, runPipeBody_transfers, runPipeBody_server,
      runPipeBody_counters, runPipeBody_nextTransfer. fields.
    eapply wf_start; [exact Hdel| | |done| |by left].
    + left. split; [|done]. destruct (transfers (node w) !! _) as [tr|] eqn:E; [|done].
      apply (wf_frames _ _ _ _ _ Hwf) in E. lia.
    + intros l Hl. split.
      * intros Hem. destruct (wf_form _ _ _ _ _ Hwf l _ Hl (or_introl Hem))
          as [_ (tr & Htr & _)]. apply (wf_frames _ _ _ _ _ Hwf) in Htr. lia.
      * intros Hh. destruct (wf_form _ _ _ _ _ Hwf l _ Hl (or_intror Hh))
          as [_ (tr & Htr & _)]. apply (wf_frames _ _ _ _ _ Hwf) in Htr. lia.
    + intros c Hc. destruct (Hav c Hc) as (? & ? & Hdis). split; [done|]. split; [done|].
      intros h g _. apply Hdis.
Qed.

Lemma pipe_conns_record up s :
  sender up = Some s →
  pipe_conns (mkPipe (reqRes s) (map reqRes (receivers up))) = conns_of up.
Proof.
  intros Hs. unfold pipe_conns, conns_of. rewrite Hs. simpl. by rewrite map_map.
Qed.

Lemma fresh_add_plain U T L c l :
  fresh U T L c → on_event l ≠ ev_error → fresh U T (L ++ [l]) c.
Proof.
  intros [H1 H2] Hev. split; [done|].
  rewrite err_listeners_app, H2, err_listeners_cons. simpl.
  destruct (fires _ _ l) eqn:E; [|done]. by apply fires_true in E as [_ E].
Qed.

(** The end of both handlers: the record just written is established, or
    left as it is. *)
Lemma establish_wf (announce : Pipe → World → World) p up w :
  (∀ pipe x, pathToUnestablishedPipe (server (announce pipe x))
               = pathToUnestablishedPipe (server x) ∧
             transfers (node (announce pipe x)) = transfers (node x) ∧
             listeners (node (announce pipe x)) = listeners (node x) ∧
             nextConn (node (announce pipe x)) = nextConn (node x) ∧
             nextTransfer (node (announce pipe x)) = nextTransfer (node x)) →
  well_formed w → pathToUnestablishedPipe (server w) !! p = Some up →
  well_formed (match getPipeIfEstablished up w with
      | (Some pipe, x) => runPipe p pipe (announce pipe x)
      | (None, x) => x
      end).
Proof.
  intros Hann Hwf Hup.
  pose proof (getPipeIfEstablished_wf up w Hwf) as Hwf2.
  pose proof (getPipeIfEstablished_server up w) as Hsrv.
  pose proof (getPipeIfEstablished_pipe up w) as Hpipe.
  destruct (getPipeIfEstablished up w) as [[pipe|] x]; [|done]. cbn [fst snd] in *.
  destruct (Hpipe pipe eq_refl) as (s & Hs & ->).
  destruct (Hann (mkPipe (reqRes s) (map reqRes (receivers up))) x)
    as (Ha1 & Ha2 & Ha3 & Ha4 & Ha5).
  apply (runPipe_wf _ _ _ up).
  - unfold well_formed. rewrite Ha1, Ha2, Ha3, Ha4, Ha5. exact Hwf2.
  - rewrite Ha1, Hsrv. done.
  - by apply pipe_conns_record.
Qed.

Lemma handleSender_wf rr p w :
  well_formed w → (conn rr < nextConn (node w))%nat →
  fresh (pathToUnestablishedPipe (server w)) (transfers (node w)) (listeners (node w))
        (conn rr) →
  well_formed (handleSender rr p w).
Proof.
  intros Hwf Hlt Hfr. unfold handleSender.
  case_decide; [done|]. case_decide; [done|].
  assert (wf_parts (pathToUnestablishedPipe (server w)) (transfers (node w))
            (listeners (node w)
             ++ [mkListener (OnReq (conn rr)) ev_close true (closeListener sender_type rr p)])
            (nextConn (node w)) (nextTransfer (node w))) as Hadd.
  { by apply wf_add_plain. }
  assert (fresh (pathToUnestablishedPipe (server w)) (transfers (node w))
            (listeners (node w)
             ++ [mkListener (OnReq (conn rr)) ev_close true (closeListener sender_type rr p)])
            (conn rr)) as Hfr' by by apply fresh_add_plain.
  destruct (pathToUnestablishedPipe (server w) !! p) as [up|] eqn:Hup.
  - destruct (sender up) eqn:Hs; [done|]. case_decide; [|done]. fields.
    apply (establish_wf (λ _, write (conn rr) ("Start sending!" +:+ JS.nl))).
    + done.
    + unfold well_formed. fields.
      apply (wf_record _ _ _ _ _ p (Some _) Hadd). intros up' [= <-].
      unfold conns_of. simpl. split.
      * apply NoDup_cons. split; [|].
        -- intros Hin. destruct Hfr as [Hfr _].
           apply (Hfr (inl p) (conns_of up)); [simpl; by rewrite Hup|].
           unfold conns_of. rewrite Hs. done.
        -- assert (waiting (pathToUnestablishedPipe (server w)) (transfers (node w))
                     (inl p) = Some (conns_of up)) as Hw by (simpl; by rewrite Hup).
           destruct (wf_group _ _ _ _ _ Hwf _ _ Hw) as [Hnd _].
           unfold conns_of in Hnd. by rewrite Hs in Hnd.
      * intros c [->|Hc]%elem_of_cons; [by right|]. left. exists up. split; [done|].
        unfold conns_of. by rewrite Hs.
    + fields. by rewrite lookup_insert_eq.
  - unfold well_formed. fields.
    apply (wf_record _ _ _ _ _ p (Some _) Hadd). intros up' [= <-].
    unfold conns_of. simpl. split; [apply NoDup_singleton|].
    intros c ->%list_elem_of_singleton. by right.
Qed.

Lemma handleReceiver_wf rr p w :
  well_formed w → (conn rr < nextConn (node w))%nat →
  fresh (pathToUnestablishedPipe (server w)) (transfers (node w)) (listeners (node w))
        (conn rr) →
  well_formed (handleReceiver rr p w).
Proof.
  intros Hwf Hlt Hfr. unfold handleReceiver.
  case_decide; [done|]. case_decide; [done|].
  assert (wf_parts (pathToUnestablishedPipe (server w)) (transfers (node w))
            (listeners (node w)
             ++ [mkListener (OnReq (conn rr)) ev_close true
                   (closeListener receiver_type rr p)])
            (nextConn (node w)) (nextTransfer (node w))) as Hadd.
  { by apply wf_add_plain. }
  assert (fresh (pathToUnestablishedPipe (server w)) (transfers (node w))
            (listeners (node w)
             ++ [mkListener (OnReq (conn rr)) ev_close true
                   (closeListener receiver_type rr p)])
            (conn rr)) as Hfr' by by apply fresh_add_plain.
  destruct (pathToUnestablishedPipe (server w) !! p) as [up|] eqn:Hup.
  - case_decide; [|done]. case_decide; [|done]. fields.
    apply (establish_wf (λ pipe, write (conn (pipe_sender pipe))
             ("[INFO] Start sending with "
              +:+ JS.string_of_number (Z.of_nat (length (pipe_receivers pipe)))
              +:+ " receiver(s)!" +:+ JS.nl))).
    + done.
    + assert (wf_parts
                (<[p := mkUnestablished (sender up)
                          (receivers up
                           ++ [mkRRU rr (closeListener receiver_type rr p)])
                          (nReceivers up)]> (pathToUnestablishedPipe (server w)))
                (transfers (node w))
                (listeners (node w)
                 ++ [mkListener (OnReq (conn rr)) ev_close true
                       (closeListener receiver_type rr p)])
                (nextConn (node w)) (nextTransfer (node w))) as Hrec.
      { apply (wf_record _ _ _ _ _ p (Some _) Hadd). intros up' [= <-].
        assert (waiting (pathToUnestablishedPipe (server w)) (transfers (node w))
                  (inl p) = Some (conns_of up)) as Hw by (simpl; by rewrite Hup).
        destruct (wf_group _ _ _ _ _ Hwf _ _ Hw) as [Hnd _].
        assert (conn rr ∉ conns_of up) as Hnin.
        { destruct Hfr as [Hfr _]. by apply (Hfr (inl p) (conns_of up)). }
        assert (conns_of (mkUnestablished (sender up)
                  (receivers up ++ [mkRRU rr (closeListener receiver_type rr p)])
                  (nReceivers up)) = conns_of up ++ [conn rr]) as ->.
        { unfold conns_of. simpl. by rewrite map_app, app_assoc. }
        split.
        - apply NoDup_app. split; [done|]. split; [|apply NoDup_singleton].
          intros c Hc ->%list_elem_of_singleton. done.
        - intros c [Hc| ->%list_elem_of_singleton]%elem_of_app; [|by right].
          left. eauto. }
      unfold well_formed. destruct (sender up); fields; exact Hrec.
    + destruct (sender up); fields; by rewrite lookup_insert_eq.
  - unfold well_formed. fields.
    apply (wf_record _ _ _ _ _ p (Some _) Hadd). intros up' [= <-].
    unfold conns_of. simpl. split; [apply NoDup_singleton|].
    intros c ->%list_elem_of_singleton. by right.
Qed.

Lemma runCloseListener_wf ty rr p w : well_formed w → well_formed (runCloseListener ty rr p w).
Proof.
  intros Hwf. unfold runCloseListener.
  destruct (pathToUnestablishedPipe (server w) !! p) as [up|] eqn:Hup; [|done].
  assert (waiting (pathToUnestablishedPipe (server w)) (transfers (node w))
            (inl p) = Some (conns_of up)) as Hw by (simpl; by rewrite Hup).
  destruct (wf_group _ _ _ _ _ Hwf _ _ Hw) as [Hnd _].
  assert (∀ up', conns_of up' `sublist_of` conns_of up →
            wf_parts (<[p := up']> (pathToUnestablishedPipe (server w))) (transfers (node w))
                     (listeners (node w)) (nextConn (node w)) (nextTransfer (node w)))
    as Hshrink.
  { intros up' Hsub. apply (wf_record _ _ _ _ _ p (Some up') Hwf). intros ? [= <-].
    split; [by eapply sublist_NoDup|].
    intros c Hc. left. exists up. split; [done|]. by eapply elem_of_sublist. }
  assert (wf_parts (delete p (pathToUnestablishedPipe (server w))) (transfers (node w))
                   (listeners (node w)) (nextConn (node w)) (nextTransfer (node w)))
    as Hdrop by by apply (wf_record _ _ _ _ _ p None Hwf).
  destruct ty.
  - destruct (sender up) eqn:Hs; [|done].
    case_decide; [exact Hdrop|]. unfold well_formed. fields. apply Hshrink.
    unfold conns_of. rewrite Hs. simpl. by apply sublist_cons.
  - destruct (list_find _ (receivers up)) as [[idx r]|] eqn:Hf; [|done].
    case_decide; [exact Hdrop|]. unfold well_formed. fields. apply Hshrink.
    unfold conns_of. simpl. apply sublist_app; [done|].
    apply (fmap_sublist (λ r, conn (reqRes r))), sublist_delete.
Qed.

Lemma closeReceiver_wf t r w : well_formed w → well_formed (closeReceiver t r w).
Proof.
  intros Hwf. unfold closeReceiver.
  destruct (transfers (node w) !! t) as [tr|] eqn:Ht; [|done].
  assert (wf_parts (pathToUnestablishedPipe (server w))
            (alter (λ tr0, mkTransfer (t_path tr0) (t_pipe tr0) (t_senderData tr0)
                             (closeCount tr0)
                             (List.filter (λ x, negb (x =? conn r)%nat) (piped tr0))) t
               (<[t := mkTransfer (t_path tr) (t_pipe tr) (t_senderData tr)
                         (closeCount tr + 1) (piped tr)]> (transfers (node w))))
            (listeners (node w)) (nextConn (node w)) (nextTransfer (node w))) as H.
  { rewrite alter_insert_eq. by eapply wf_frame_same. }
  case_decide; exact H.
Qed.

Lemma foldl_destroy_wf (rs : list ReqRes) w :
  well_formed w → well_formed (foldl (λ w receiver, destroy (conn receiver) w) w rs).
Proof.
  revert w. induction rs as [|r rs IH]; intros w Hwf; simpl; [done|]. by apply IH.
Qed.

Lemma runResolvePart_wf t arg w :
  well_formed w →
  (∃ tr, transfers (node w) !! t = Some tr ∧ t_senderData tr = None) →
  (∀ l, l ∈ listeners (node w) → on_emitter l ≠ OnForm t ∧ handler l ≠ resolvePart t) →
  well_formed (runResolvePart t arg w).
Proof.
  intros Hwf (tr & Htr & Hnone) Hnoform. unfold runResolvePart. rewrite Htr.
  unfold well_formed. rewrite runPipeBody_listeners, runPipeBody_transfers, runPipeBody_server,
    runPipeBody_counters, runPipeBody_nextTransfer.
  assert (waiting (pathToUnestablishedPipe (server w)) (transfers (node w)) (inr t)
            = Some (pipe_conns (t_pipe tr))) as Hw by (simpl; by rewrite Htr, Hnone).
  destruct (wf_group _ _ _ _ _ Hwf _ _ Hw) as [Hnd Hc].
  eapply wf_start; [exact Hwf| |done|done| |by right].
  - right. eauto.
  - intros c Hin. destruct (Hc c Hin) as [? ?]. split; [done|]. split; [done|].
    intros h g Hne Hh Hin'.
    by apply (wf_apart _ _ _ _ _ Hwf (inr t) h (pipe_conns (t_pipe tr)) g c).
Qed.

(** A listener other than the one of a form. *)
Lemma runHandler_wf h arg w :
  well_formed w → (∀ t, h ≠ resolvePart t) → well_formed (runHandler h arg w).
Proof.
  intros Hwf Hh. destruct h; simpl.
  - by apply runCloseListener_wf.
  - by destruct (Hh t).
  - by apply closeReceiver_wf.
  - by apply closeReceiver_wf.
  - unfold runSenderDataOnClose. destruct (transfers (node w) !! t); [|done].
    by apply foldl_destroy_wf.
  - unfold runSenderDataOnEnd. by destruct (transfers (node w) !! t).
  - unfold runSenderDataOnError. by destruct (transfers (node w) !! t).
Qed.

Lemma once_filter_wf e ev w :
  well_formed w → well_formed (set_listeners (List.filter (λ l, negb (fires e ev l && once l))) w).
Proof.
  intros Hwf. unfold well_formed. fields. eapply wf_remove; [exact Hwf|apply filter_sublist|].
  intros l Hl Hev. apply filter_elem_of. split; [done|].
  destruct (wf_error _ _ _ _ _ Hwf l Hl Hev) as [-> _]. by rewrite andb_false_r.
Qed.

Lemma emit_wf e ev arg w : well_formed w → well_formed (emit e ev arg w).
Proof.
  intros Hwf. unfold emit.
  pose proof (once_filter_wf e ev w Hwf) as Hwf0.
  set (w0 := set_listeners _ w) in *.
  set (fired := List.filter (fires e ev) (listeners (node w))).
  assert ((∃ t, e = OnForm t ∧ ev = ev_part) ∨ ¬ (∃ t, e = OnForm t ∧ ev = ev_part))
    as [(t & -> & ->)|Hother].
  { destruct e as [c|t|t]; destruct ev; eauto;
      right; intros (? & ? & ?); congruence. }
  - pose proof (wf_form_once _ _ _ _ _ Hwf t) as Hlen. fold fired in Hlen.
    assert (∀ l, l ∈ fired →
              l = mkListener (OnForm t) ev_part true (resolvePart t) ∧
              ∃ tr, transfers (node w) !! t = Some tr ∧ t_senderData tr = None) as Hfired.
    { intros l [Hl [Hem _]%fires_true]%filter_elem_of.
      by apply (wf_form _ _ _ _ _ Hwf l t Hl (or_introl Hem)). }
    destruct fired as [|l [|l' fired]]; simpl in *; [done| |lia].
    destruct (Hfired l (list_elem_of_here _ _)) as [-> Hpend]. simpl.
    apply runResolvePart_wf; [done|done|].
    intros l [Hl Hkeep]%filter_elem_of.
    assert (¬ (on_emitter l = OnForm t ∨ handler l = resolvePart t)) as Hn; [|tauto].
    intros Hor. destruct (wf_form _ _ _ _ _ Hwf l t Hl Hor) as [-> _].
    unfold fires in Hkeep. simpl in Hkeep. by rewrite !bool_decide_eq_true_2 in Hkeep.
  - assert (Forall (λ l, ∀ t, handler l ≠ resolvePart t) fired) as Hplain.
    { apply Forall_forall. intros l [Hl [Hem Hevl]%fires_true]%filter_elem_of t Hh.
      destruct (wf_form _ _ _ _ _ Hwf l t Hl (or_intror Hh)) as [-> _]. simpl in *.
      apply Hother. eauto. }
    clearbody fired w0. revert w0 Hwf0.
    induction Hplain as [|l fired Hl _ IH]; intros w0 Hwf0; simpl; [done|].
    apply IH. by apply runHandler_wf.
Qed.

Lemma runPipe_keeps_listeners path pipe w l :
  l ∈ listeners (node w) → l ∈ listeners (node (runPipe path pipe w)).
Proof.
  intros Hl. unfold runPipe. destruct (JS.includes _ _).
  - fields. apply elem_of_app. by left.
  - rewrite runPipeBody_listeners. apply elem_of_app. by left.
Qed.

(** ** Invariants of the reachable worlds *)

Section Properties.

Context (VERSION indexPage : string).

Lemma reserved_dispatch (p : string) :
  p ≠ NAME_TO_RESERVED_PATH_index → p ≠ NAME_TO_RESERVED_PATH_version →
  p ≠ NAME_TO_RESERVED_PATH_help → p ∉ RESERVED_PATHS.
Proof.
  intros H1 H2 H3. unfold RESERVED_PATHS.
  rewrite !not_elem_of_cons. repeat split; try done. apply not_elem_of_nil.
Qed.

Lemma generateHandler_evolves useHttps rr w :
  evolves (server w) (server (generateHandler VERSION indexPage useHttps rr w)).
Proof.
  unfold generateHandler.
  case_decide as Hsend.
  - case_decide as Hres; [apply rtc_refl|]. by apply handleSender_evolves.
  - case_decide as Hget; [|apply rtc_refl].
    case_decide as H1; [apply rtc_refl|].
    case_decide as H2; [apply rtc_refl|].
    case_decide as H3; [apply rtc_refl|].
    apply handleReceiver_evolves. by apply reserved_dispatch.
Qed.

Lemma step_evolves w e : evolves (server w) (server (step VERSION indexPage w e)).
Proof.
  destruct e as [useHttps r|e ev arg]; simpl.
  - apply (generateHandler_evolves useHttps (mkReqRes (nextConn (node w)) r)
             (accept r w).2).
  - apply emit_evolves.
Qed.

Lemma run_app w es es' :
  run VERSION indexPage w (es ++ es') = run VERSION indexPage (run VERSION indexPage w es) es'.
Proof. apply foldl_app. Qed.

Lemma reachable_run es : reachable VERSION indexPage (run VERSION indexPage init es).
Proof.
  induction es as [|e es IH] using rev_ind; [apply reachable_init|].
  rewrite run_app. simpl. by apply reachable_step.
Qed.

Lemma reachable_evolves w :
  reachable VERSION indexPage w → evolves (server init) (server w).
Proof.
  induction 1 as [|w e _ IH]; [apply rtc_refl|].
  eapply rtc_trans; [apply IH|apply step_evolves].
Qed.

Lemma init_records_ok : records_ok (server init).
Proof. intros p up. simpl. by rewrite lookup_empty. Qed.

Lemma init_reserved_free : reserved_free (server init).
Proof. intros p _. simpl. by rewrite !lookup_empty. Qed.

Lemma init_exclusive : exclusive (server init).
Proof. intros p. simpl. rewrite lookup_empty. by intros [? ?]. Qed.

Lemma reachable_exclusive w : reachable VERSION indexPage w → exclusive (server w).
Proof.
  intros Hr. eapply evolves_exclusive; [by apply reachable_evolves|apply init_exclusive].
Qed.

Lemma reachable_records_ok w : reachable VERSION indexPage w → records_ok (server w).
Proof.
  intros Hr. eapply evolves_records_ok; [by apply reachable_evolves|apply init_records_ok].
Qed.

Lemma reachable_reserved_free w : reachable VERSION indexPage w → reserved_free (server w).
Proof.
  intros Hr.
  eapply evolves_reserved_free; [by apply reachable_evolves|apply init_reserved_free].
Qed.

(** C8.  In every reachable world every unestablished record has at most
    [nReceivers] receivers and [nReceivers] is at least 1; every step of
    the server (a sender arriving, a receiver arriving, any listener
    firing) keeps this, and so does the close-watcher taken alone. *)
Theorem C8_record_bounds :
  (∀ w, reachable VERSION indexPage w → records_ok (server w)) ∧
  (∀ w e, records_ok (server w) → records_ok (server (step VERSION indexPage w e))) ∧
  (∀ removerType rr reqPath w,
     records_ok (server w) → records_ok (server (runCloseListener removerType rr reqPath w))).
Proof.
  split; [|split].
  - apply reachable_records_ok.
  - intros w e. apply evolves_records_ok, step_evolves.
  - intros ty rr p w. apply evolves_records_ok, runCloseListener_evolves.
Qed.

(** C9.  A request whose method is none of GET, POST, PUT is answered with
    [Error: Unsupported method: <METHOD>] and ended, [writeHead] is not
    called (the status code stays at its default 200), and the two
    dictionaries are unchanged. *)
Theorem C9_unsupported_method useHttps r w :
  method r ≠ "GET" → method r ≠ "POST" → method r ≠ "PUT" →
  server (step VERSION indexPage w (Arrive useHttps r)) = server w ∧
  responses (node (step VERSION indexPage w (Arrive useHttps r))) !! nextConn (node w) =
    Some (mkResponse 200 false [] ["Error: Unsupported method: " +:+ method r +:+ JS.nl] true).
Proof.
  intros Hget Hpost Hput. simpl. unfold generateHandler, accept. fields.
  rewrite decide_False; [|by intros [?|?]].
  rewrite decide_False; [|done]. fields.
  split; [done|]. rewrite lookup_alter_eq, lookup_insert_eq. done.
Qed.

Lemma reserved_cases p :
  p ∈ RESERVED_PATHS →
  p = NAME_TO_RESERVED_PATH_index ∨ p = NAME_TO_RESERVED_PATH_version ∨
  p = NAME_TO_RESERVED_PATH_help.
Proof.
  unfold RESERVED_PATHS. rewrite !elem_of_cons, elem_of_nil. tauto.
Qed.

(** C10.  In every reachable world no reserved path is a key of the
    unestablished-pipe dictionary or of the established dictionary.  A
    POST or PUT to a reserved path does nothing but answer 400 with the
    reserved-path message; a GET on a reserved path does nothing but end
    the response with a page. *)
Theorem C10_reserved_paths_never_registered :
  (∀ w p, reachable VERSION indexPage w → p ∈ RESERVED_PATHS →
     pathToUnestablishedPipe (server w) !! p = None ∧
     pathToEstablished (server w) !! p = None) ∧
  (∀ useHttps rr w,
     method (req rr) = "POST" ∨ method (req rr) = "PUT" →
     reqPathOf (req rr) ∈ RESERVED_PATHS →
     generateHandler VERSION indexPage useHttps rr w =
       end_ (conn rr) ("[ERROR] Cannot send to a reserved path '" +:+ reqPathOf (req rr)
                       +:+ "'. (e.g. '/mypath123')" +:+ JS.nl)
            (writeHead (conn rr) 400 [] w)) ∧
  (∀ useHttps rr w,
     method (req rr) = "GET" → reqPathOf (req rr) ∈ RESERVED_PATHS →
     ∃ page, generateHandler VERSION indexPage useHttps rr w = end_ (conn rr) page w).
Proof.
  split; [|split].
  - intros w p Hr Hp. by apply (reachable_reserved_free w Hr).
  - intros useHttps rr w Hm Hp. unfold generateHandler.
    rewrite decide_True; [|done]. by rewrite decide_True.
  - intros useHttps rr w Hm Hp. unfold generateHandler.
    rewrite decide_False; [|rewrite Hm; by intros [?|?]].
    rewrite decide_True; [|done].
    apply reserved_cases in Hp as [Hp|[Hp|Hp]].
    + rewrite decide_True; [|done]. eauto.
    + rewrite decide_False; [|by rewrite Hp]. rewrite decide_True; [|done]. eauto.
    + rewrite decide_False; [|by rewrite Hp]. rewrite decide_False; [|by rewrite Hp].
      rewrite decide_True; [|done]. eauto.
Qed.

Lemma accept_server r w : server (accept r w).2 = server w.
Proof. done. Qed.

Lemma established_not_reserved w p :
  reachable VERSION indexPage w → is_Some (pathToEstablished (server w) !! p) →
  p ∉ RESERVED_PATHS.
Proof.
  intros Hr [b Hb] Hp.
  destruct (reachable_reserved_free w Hr p Hp) as [_ Hn]. congruence.
Qed.

(** C7, amended.  In a reachable world, a request with a receiver count of
    at least 1 arriving on a path whose established flag is set is answered
    with status 400 and one chunk, then ended: a POST or PUT with
    [[ERROR] Connection on '<path>' has been established already.], a GET
    with [Error: Connection on '<path>' has been established already.]. *)
Theorem C7_already_established useHttps r w :
  reachable VERSION indexPage w →
  0 < getNReceivers r →
  is_Some (pathToEstablished (server w) !! reqPathOf r) →
  (method r = "POST" ∨ method r = "PUT" →
   responses (node (step VERSION indexPage w (Arrive useHttps r))) !! nextConn (node w) =
     Some (mkResponse 400 true []
             ["[ERROR] Connection on '" +:+ reqPathOf r
              +:+ "' has been established already." +:+ JS.nl] true)) ∧
  (method r = "GET" →
   responses (node (step VERSION indexPage w (Arrive useHttps r))) !! nextConn (node w) =
     Some (mkResponse 400 true []
             ["Error: Connection on '" +:+ reqPathOf r
              +:+ "' has been established already." +:+ JS.nl] true)).
Proof.
  intros Hr Hn Hest.
  pose proof (established_not_reserved w _ Hr Hest) as Hres.
  split; intros Hm; simpl; unfold generateHandler, accept; fields.
  - rewrite decide_True; [|done]. rewrite decide_False; [|done].
    unfold handleSender. fields.
    rewrite decide_False; [|lia]. rewrite decide_True; [|done]. fields.
    by rewrite !lookup_alter_eq, lookup_insert_eq.
  - rewrite decide_False; [|rewrite Hm; by intros [?|?]].
    rewrite decide_True; [|done].
    rewrite !decide_False;
      [|intros E; apply Hres; rewrite E; unfold RESERVED_PATHS; set_solver..].
    unfold handleReceiver. fields.
    rewrite decide_False; [|lia]. rewrite decide_True; [|done]. fields.
    by rewrite !lookup_alter_eq, lookup_insert_eq.
Qed.

Lemma role_sender r :
  role_of r = SenderRole →
  (method r = "POST" ∨ method r = "PUT") ∧ reqPathOf r ∉ RESERVED_PATHS.
Proof. unfold role_of. repeat case_decide; done. Qed.

Lemma role_receiver r :
  role_of r = ReceiverRole →
  ¬ (method r = "POST" ∨ method r = "PUT") ∧ method r = "GET" ∧
  reqPathOf r ∉ RESERVED_PATHS.
Proof. unfold role_of. repeat case_decide; done. Qed.

Lemma generateHandler_sender useHttps rr w :
  role_of (req rr) = SenderRole →
  generateHandler VERSION indexPage useHttps rr w = handleSender rr (reqPathOf (req rr)) w.
Proof.
  intros [Hm Hp]%role_sender. unfold generateHandler.
  rewrite decide_True; [|done]. by rewrite decide_False.
Qed.

Lemma generateHandler_receiver useHttps rr w :
  role_of (req rr) = ReceiverRole →
  generateHandler VERSION indexPage useHttps rr w = handleReceiver rr (reqPathOf (req rr)) w.
Proof.
  intros (Hm & Hg & Hp)%role_receiver. unfold generateHandler.
  rewrite decide_False; [|done]. rewrite decide_True; [|done].
  rewrite !decide_False; [done|intros E; apply Hp; rewrite E; unfold RESERVED_PATHS; set_solver..].
Qed.

Lemma generateHandler_no_role useHttps rr w :
  role_of (req rr) = NoRole →
  server (generateHandler VERSION indexPage useHttps rr w) = server w ∧
  listeners (node (generateHandler VERSION indexPage useHttps rr w)) = listeners (node w) ∧
  nextTransfer (node (generateHandler VERSION indexPage useHttps rr w)) = nextTransfer (node w).
Proof.
  unfold role_of, generateHandler.
  case_decide as Hm.
  - case_decide; [done|]. done.
  - case_decide as Hg; [|done].
    case_decide as Hres; [|done]. intros _.
    apply reserved_cases in Hres as [Hp|[Hp|Hp]]; rewrite Hp;
      repeat (case_decide; try done).
Qed.

Lemma arrival_establishment useHttps r w :
  (started w (step VERSION indexPage w (Arrive useHttps r)) ↔
   ∃ up, registration (mkReqRes (nextConn (node w)) r) w = Some up ∧
         establishment_predicate up) ∧
  (∀ up, registration (mkReqRes (nextConn (node w)) r) w = Some up →
         ¬ establishment_predicate up →
         pathToUnestablishedPipe (server (step VERSION indexPage w (Arrive useHttps r)))
           !! reqPathOf r = Some up) ∧
  (registration (mkReqRes (nextConn (node w)) r) w = None →
   server (step VERSION indexPage w (Arrive useHttps r)) = server w).
Proof.
  cbn [step]. unfold registration. cbn [req].
  set (rr := mkReqRes (nextConn (node w)) r).
  change (let '(rr, w0) := accept r w in generateHandler VERSION indexPage useHttps rr w0)
    with (generateHandler VERSION indexPage useHttps rr (accept r w).2).
  destruct (role_of r) eqn:Hrole.
  - rewrite generateHandler_sender; [|done].
    apply (handleSender_started rr (reqPathOf r) (accept r w).2).
  - rewrite generateHandler_receiver; [|done].
    apply (handleReceiver_started rr (reqPathOf r) (accept r w).2).
  - destruct (generateHandler_no_role useHttps rr (accept r w).2 Hrole) as (Hs & _ & Hc).
    split; [|split; [done|by intros _]].
    split; [|by intros (? & ? & _)].
    intros Hst. apply started_irrefl_eq in Hst; [done|]. by rewrite Hc.
Qed.

(** C1.  An arriving request starts a transfer if and only if it is
    registered (its path is not established, among the other conditions
    of [registration]) and the record of its path, once the request is
    registered, has a sender and exactly [nReceivers] receivers.  When it
    is registered and the predicate fails, that record is the one left in
    the dictionary; when it is refused, the dictionaries are unchanged.
    No event delivered to a listener starts a transfer. *)
Theorem C1_establishment_equivalence useHttps r w :
  (started w (step VERSION indexPage w (Arrive useHttps r)) ↔
   ∃ up, registration (mkReqRes (nextConn (node w)) r) w = Some up ∧
         establishment_predicate up) ∧
  (∀ up, registration (mkReqRes (nextConn (node w)) r) w = Some up →
         ¬ establishment_predicate up →
         pathToUnestablishedPipe (server (step VERSION indexPage w (Arrive useHttps r)))
           !! reqPathOf r = Some up) ∧
  (registration (mkReqRes (nextConn (node w)) r) w = None →
   server (step VERSION indexPage w (Arrive useHttps r)) = server w) ∧
  (∀ e ev arg, ¬ started w (step VERSION indexPage w (Emit e ev arg))).
Proof.
  destruct (arrival_establishment useHttps r w) as (Hiff & Hkept & Hrefused).
  repeat split; try done; try apply Hiff.
  intros e ev arg. apply started_irrefl_eq. apply emit_nextTransfer.
Qed.

(** C6.  In a reachable world, a POST or PUT on a path that is not reserved,
    whose record exists without a sender and with the same receiver count
    [N], gets on its response, in this order and with the response left
    open, [[INFO] Waiting for <N> receiver(s)...], then
    [[INFO] <K> receiver(s) has/have been connected.] with [K] the number
    of receivers of the record, then [Start sending!] exactly when
    [K = N].  The sender is registered: it is the sender of the record
    when [K <> N], and the sender of the pipe of the transfer started on
    the path when [K = N]. *)
Theorem C6_sender_joins_record useHttps r w up :
  reachable VERSION indexPage w →
  method r = "POST" ∨ method r = "PUT" →
  reqPathOf r ∉ RESERVED_PATHS →
  pathToUnestablishedPipe (server w) !! reqPathOf r = Some up →
  sender up = None →
  nReceivers up = getNReceivers r →
  (∃ resp,
     responses (node (step VERSION indexPage w (Arrive useHttps r))) !! nextConn (node w)
       = Some resp ∧
     finished resp = false ∧
     body resp =
       ["[INFO] Waiting for " +:+ JS.string_of_number (getNReceivers r)
          +:+ " receiver(s)..." +:+ JS.nl;
        "[INFO] " +:+ JS.string_of_number (Z.of_nat (length (receivers up)))
          +:+ " receiver(s) has/have been connected." +:+ JS.nl]
       ++ (if decide (Z.of_nat (length (receivers up)) = getNReceivers r)
           then ["Start sending!" +:+ JS.nl] else [])) ∧
  (if decide (Z.of_nat (length (receivers up)) = getNReceivers r)
   then
     pathToEstablished (server (step VERSION indexPage w (Arrive useHttps r)))
       !! reqPathOf r = Some true ∧
     ∃ tr, transfers (node (step VERSION indexPage w (Arrive useHttps r)))
             !! nextTransfer (node w) = Some tr ∧
           t_path tr = reqPathOf r ∧
           t_pipe tr = mkPipe (mkReqRes (nextConn (node w)) r) (map reqRes (receivers up))
   else
     pathToUnestablishedPipe (server (step VERSION indexPage w (Arrive useHttps r)))
       !! reqPathOf r =
     Some (mkUnestablished
             (Some (mkRRU (mkReqRes (nextConn (node w)) r)
                          (closeListener sender_type (mkReqRes (nextConn (node w)) r)
                                         (reqPathOf r))))
             (receivers up) (nReceivers up))).
Proof.
  intros Hr Hm Hres Hup Hs Hsame.
  destruct (reachable_records_ok w Hr _ _ Hup) as [Hle Hpos].
  pose proof (reachable_exclusive w Hr (reqPathOf r)) as Hex.
  rewrite Hup in Hex. specialize (Hex (ltac:(eauto))).
  cbn [step].
  change (let '(rr, w0) := accept r w in generateHandler VERSION indexPage useHttps rr w0)
    with (generateHandler VERSION indexPage useHttps (mkReqRes (nextConn (node w)) r)
            (accept r w).2).
  unfold generateHandler. cbn [req].
  rewrite decide_True; [|done]. rewrite decide_False; [|done].
  unfold handleSender, accept. fields.
  rewrite decide_False; [|lia].
  rewrite decide_False; [|rewrite Hex; by intros [? ?]].
  rewrite Hup, Hs. rewrite decide_True; [|done]. fields.
  match goal with |- context [getPipeIfEstablished ?u ?x] =>
    pose proof (getPipeIfEstablished_server u x) as Hsrv;
    pose proof (getPipeIfEstablished_responses u x) as Hresp;
    pose proof (getPipeIfEstablished_node_counters u x) as Hcnt;
    pose proof (getPipeIfEstablished_is_Some u x) as Hsome;
    pose proof (getPipeIfEstablished_pipe u x) as Hpipe;
    destruct (getPipeIfEstablished u x) as [[pipe|] w1] end; fields.
  - assert (Z.of_nat (length (receivers up)) = getNReceivers r) as HK.
    { destruct Hsome as [Hsome _]. destruct Hsome as [_ Hl]; [eauto|]. simpl in Hl. lia. }
    destruct (Hpipe pipe eq_refl) as (s & [= <-] & ->). fields.
    rewrite !decide_True by done.
    match goal with |- context [runPipe ?p ?pp ?x] =>
      pose proof (runPipe_content p pp x (nextConn (node w))) as Hc;
      pose proof (runPipe_server p pp x) as Hsv;
      destruct (runPipe_frame p pp x) as (tr & Htr & Hpath & Hpp & _);
      set (W := runPipe p pp x) in *; clearbody W end.
    fields. rewrite Hcnt in Htr. fields.
    rewrite Hresp, !lookup_alter_eq, lookup_insert_eq in Hc. simpl in Hc.
    destruct (responses (node W) !! nextConn (node w)) as [resp|]; [|done].
    injection Hc as Hb Hf. split; [eauto|].
    rewrite Hsv. fields. rewrite lookup_insert_eq. eauto.
  - assert (Z.of_nat (length (receivers up)) ≠ getNReceivers r) as HK.
    { intros E. destruct Hsome as [_ Hsome]. destruct Hsome; [|done].
      split; simpl; [eauto|lia]. }
    rewrite !decide_False by done. split.
    + rewrite Hresp. fields. rewrite !lookup_alter_eq, lookup_insert_eq. simpl.
      eexists. split; [done|]. by split.
    + rewrite Hsrv. fields. by rewrite lookup_insert_eq.
Qed.

(** C5, amended.  The receiver count is 1 when [n] is absent and whenever
    [n] does not begin, after white space and at most one sign, with a
    digit.  Every other [n] is white space, an optional sign, a decimal
    numeral and a rest that does not go on with a digit, and the count is
    then the Number value of the signed numeral, whatever the rest is:
    the integer itself up to 2^53 in magnitude, the nearest double
    beyond.  A request routed to a sender or a receiver with a count of 0
    or less is answered 400 with [[ERROR] n should > 0, but n = <N>.] and
    ended, the dictionaries and the listeners being unchanged. *)
Theorem C5_receiver_count useHttps r w :
  (query_n r = JS.QUndefined → getNReceivers r = 1) ∧
  (JS.starts_number (JS.toString (query_n r)) = false → getNReceivers r = 1) ∧
  (JS.starts_number (JS.toString (query_n r)) = true →
     ∃ ws sg d rest,
       JS.all_white ws = true ∧ (sg = "" ∨ sg = "+" ∨ sg = "-") ∧ d ≠ Decimal.Nil ∧
       JS.starts_digit rest = false ∧
       JS.toString (query_n r) = ws +:+ sg +:+ NilEmpty.string_of_uint d +:+ rest) ∧
  (∀ ws sg d rest,
     JS.all_white ws = true → sg = "" ∨ sg = "+" ∨ sg = "-" → d ≠ Decimal.Nil →
     JS.starts_digit rest = false →
     JS.toString (query_n r) = ws +:+ sg +:+ NilEmpty.string_of_uint d +:+ rest →
     let z := if decide (sg = "-") then - Z.of_uint d else Z.of_uint d in
     getNReceivers r = JS.to_double z ∧ (Z.abs z ≤ 2 ^ 53 → getNReceivers r = z)) ∧
  (role_of r ≠ NoRole → getNReceivers r ≤ 0 →
     server (step VERSION indexPage w (Arrive useHttps r)) = server w ∧
     listeners (node (step VERSION indexPage w (Arrive useHttps r))) = listeners (node w) ∧
     responses (node (step VERSION indexPage w (Arrive useHttps r))) !! nextConn (node w) =
       Some (mkResponse 400 true []
               ["[ERROR] n should > 0, but n = " +:+ JS.string_of_number (getNReceivers r)
                +:+ "." +:+ JS.nl] true)).
Proof.
  split; [|split; [|split; [|split]]].
  - intros E. unfold getNReceivers. by rewrite E.
  - intros E. unfold getNReceivers. by rewrite parseInt10_None.
  - apply starts_number_shape.
  - intros ws sg d rest Hws Hsg Hd Hrest E z. unfold getNReceivers. rewrite E.
    rewrite parseInt10_numeral by done. cbn [nanOrElse]. fold z.
    split; [done|]. intros Hz. by apply to_double_small.
  - intros Hrole Hn. cbn [step].
    change (let '(rr, w0) := accept r w in generateHandler VERSION indexPage useHttps rr w0)
      with (generateHandler VERSION indexPage useHttps (mkReqRes (nextConn (node w)) r)
              (accept r w).2).
    destruct (role_of r) eqn:Hr; [| |done].
    + rewrite generateHandler_sender by done. unfold handleSender, accept. fields.
      rewrite decide_True by done. fields.
      by rewrite !lookup_alter_eq, lookup_insert_eq.
    + rewrite generateHandler_receiver by done. unfold handleReceiver, accept. fields.
      rewrite decide_True by done. fields.
      by rewrite !lookup_alter_eq, lookup_insert_eq.
Qed.

Lemma generateHandler_wf useHttps rr w :
  well_formed w → (conn rr < nextConn (node w))%nat →
  fresh (pathToUnestablishedPipe (server w)) (transfers (node w)) (listeners (node w))
        (conn rr) →
  well_formed (generateHandler VERSION indexPage useHttps rr w).
Proof.
  intros Hwf Hlt Hfr. unfold generateHandler.
  case_decide.
  - case_decide; [done|]. by apply handleSender_wf.
  - case_decide; [|done]. case_decide; [done|]. case_decide; [done|].
    case_decide; [done|]. by apply handleReceiver_wf.
Qed.

Lemma step_wf w e : well_formed w → well_formed (step VERSION indexPage w e).
Proof.
  intros Hwf. destruct e as [useHttps r|e ev arg]; simpl.
  - apply (generateHandler_wf useHttps (mkReqRes (nextConn (node w)) r) (accept r w).2).
    + unfold well_formed, accept. fields. by apply wf_bump.
    + unfold accept. fields. lia.
    + unfold accept. fields. by eapply wf_fresh.
  - by apply emit_wf.
Qed.

Lemma reachable_wf w : reachable VERSION indexPage w → well_formed w.
Proof. induction 1 as [|w e _ IH]; [apply wf_init|by apply step_wf]. Qed.

(** In a reachable world the only ["error"] listener of the source of a
    transfer is the one [runPipe] installed for it. *)
Lemma reachable_source_listener w t tr e :
  reachable VERSION indexPage w →
  transfers (node w) !! t = Some tr → t_senderData tr = Some e →
  List.filter (fires e ev_error) (listeners (node w)) =
    [mkListener e ev_error false (senderDataOnError t)].
Proof.
  intros Hwf%reachable_wf Ht Hsd.
  apply filter_singleton_elem.
  - apply (wf_error_once _ _ _ _ _ Hwf e).
  - by apply (wf_source _ _ _ _ _ Hwf t tr e).
  - by apply fires_true.
Qed.

(** The close-watcher of a sender that completes a record is still
    installed on its request once the transfer has started. *)
Lemma sender_watcher_survives useHttps r w up :
  reachable VERSION indexPage w →
  method r = "POST" ∨ method r = "PUT" →
  reqPathOf r ∉ RESERVED_PATHS →
  pathToUnestablishedPipe (server w) !! reqPathOf r = Some up →
  sender up = None →
  nReceivers up = getNReceivers r →
  Z.of_nat (length (receivers up)) = getNReceivers r →
  started w (step VERSION indexPage w (Arrive useHttps r)) ∧
  mkListener (OnReq (nextConn (node w))) ev_close true
    (closeListener sender_type (mkReqRes (nextConn (node w)) r) (reqPathOf r))
    ∈ listeners (node (step VERSION indexPage w (Arrive useHttps r))).
Proof.
  intros Hr Hm Hres Hup Hs Hsame HK.
  destruct (reachable_records_ok w Hr _ _ Hup) as [Hle Hpos].
  pose proof (reachable_exclusive w Hr (reqPathOf r)) as Hex.
  rewrite Hup in Hex. specialize (Hex (ltac:(eauto))).
  pose proof (reachable_wf w Hr) as Hwf.
  assert (∀ x, x ∈ receivers up → conn (reqRes x) ≠ nextConn (node w)) as Hdiff.
  { intros x Hx Heq.
    assert (waiting (pathToUnestablishedPipe (server w)) (transfers (node w))
              (inl (reqPathOf r)) = Some (conns_of up)) as Hw by (simpl; by rewrite Hup).
    destruct (wf_group _ _ _ _ _ Hwf _ _ Hw) as [_ Hc].
    destruct (Hc (conn (reqRes x))) as [Hlt _]; [|lia].
    unfold conns_of. rewrite Hs. simpl.
    apply (list_elem_of_fmap_2 (λ r0, conn (reqRes r0))). done. }
  cbn [step].
  change (let '(rr, w0) := accept r w in generateHandler VERSION indexPage useHttps rr w0)
    with (generateHandler VERSION indexPage useHttps (mkReqRes (nextConn (node w)) r)
            (accept r w).2).
  unfold generateHandler. cbn [req].
  rewrite decide_True; [|done]. rewrite decide_False; [|done].
  unfold handleSender, accept. fields.
  rewrite decide_False; [|lia].
  rewrite decide_False; [|rewrite Hex; by intros [? ?]].
  rewrite Hup, Hs. rewrite decide_True; [|done]. fields.
  match goal with |- context [getPipeIfEstablished ?u ?x] =>
    pose proof (getPipeIfEstablished_node_counters u x) as Hcnt;
    pose proof (getPipeIfEstablished_is_Some u x) as Hsome;
    pose proof (getPipeIfEstablished_keeps_sender_watcher u
                  (mkRRU (mkReqRes (nextConn (node w)) r)
                         (closeListener sender_type (mkReqRes (nextConn (node w)) r)
                                        (reqPathOf r)))
                  (mkListener (OnReq (nextConn (node w))) ev_close true
                     (closeListener sender_type (mkReqRes (nextConn (node w)) r)
                                    (reqPathOf r))) x eq_refl) as Hkeep;
    destruct (getPipeIfEstablished u x) as [[pipe|] w1] end; fields.
  - split.
    + unfold started. rewrite runPipe_started. fields. by rewrite Hcnt.
    + apply runPipe_keeps_listeners. fields. apply Hkeep; [done|done|].
      apply elem_of_app. right. apply list_elem_of_here.
  - destruct Hsome as [_ Hsome]. destruct Hsome as [? ?]; [|done].
    split; simpl; [eauto|lia].
Qed.

(** C3, amended.  In a reachable world, when the source of a transfer
    emits ["error"], [end] is called on the response of the sender with
    [[ERROR] Sending Failed.] (written as its last chunk unless the
    response had ended before), the established flag of the path is
    cleared, and no connection is destroyed. *)
Theorem C3_source_error e t tr arg r w :
  reachable VERSION indexPage w →
  transfers (node w) !! t = Some tr →
  t_senderData tr = Some e →
  responses (node w) !! conn (pipe_sender (t_pipe tr)) = Some r →
  responses (node (step VERSION indexPage w (Emit e ev_error arg)))
    !! conn (pipe_sender (t_pipe tr)) =
    Some (if finished r then r
          else mkResponse (statusCode r) (headWritten r) (resHeaders r)
                          (body r ++ ["[ERROR] Sending Failed." +:+ JS.nl]) true) ∧
  pathToEstablished (server (step VERSION indexPage w (Emit e ev_error arg)))
    !! t_path tr = None ∧
  destroyed (node (step VERSION indexPage w (Emit e ev_error arg))) = destroyed (node w).
Proof.
  intros Hreach Ht Hsd Hr. cbn [step]. unfold emit.
  rewrite (reachable_source_listener w t tr e Hreach Ht Hsd).
  cbn [foldl handler runHandler]. unfold runSenderDataOnError. fields.
  rewrite Ht. fields. rewrite lookup_alter_eq, Hr, lookup_delete_eq. simpl.
  by destruct (finished r).
Qed.

End Properties.

(** ** The canonical path and the receiver count *)

Lemma split_slash_snoc s cur :
  JS.split_slash (s +:+ "/") cur = JS.split_slash s cur ++ [""].
Proof.
  revert cur. induction s as [|c s IH]; intros cur; [done|].
  rewrite append_cons. cbn [JS.split_slash].
  destruct (Ascii.eqb c "/"); [by rewrite IH|apply IH].
Qed.

Lemma normalize_snoc_empty segs out :
  JS.normalize (segs ++ [""]) out = JS.normalize segs out.
Proof.
  revert out. induction segs as [|seg segs IH]; intros out; [done|].
  cbn [app JS.normalize]. rewrite !IH. done.
Qed.

Lemma path_resolve_root_slash p :
  JS.path_resolve_root (p +:+ "/") = JS.path_resolve_root p.
Proof.
  unfold JS.path_resolve_root. by rewrite split_slash_snoc, normalize_snoc_empty.
Qed.

Lemma strip_trailing_slash_cases p :
  JS.strip_trailing_slash p = p ∨ p = JS.strip_trailing_slash p +:+ "/".
Proof.
  induction p as [|c p IH]; [by left|].
  destruct p as [|d p].
  - cbn [JS.strip_trailing_slash]. destruct (Ascii.eqb c "/") eqn:E; [|by left].
    right. apply Ascii.eqb_eq in E. by subst.
  - change (JS.strip_trailing_slash (String c (String d p)))
      with (String c (JS.strip_trailing_slash (String d p))).
    destruct IH as [IH|IH]; [left; by rewrite IH|right].
    rewrite append_cons. by rewrite <- IH.
Qed.

Lemma path_resolve_root_strip p :
  JS.path_resolve_root (JS.strip_trailing_slash p) = JS.path_resolve_root p.
Proof.
  destruct (strip_trailing_slash_cases p) as [E|E]; [by rewrite E|].
  rewrite E at 2. by rewrite path_resolve_root_slash.
Qed.

(** X1.  The canonical path of a request ignores a trailing slash: a request
    whose pathname is [p] followed by ["/"] is routed to the same path as
    the request with pathname [p], whatever [p] is. *)
Theorem X1_trailing_slash_ignored m p q ct cl h x :
  reqPathOf (mkRequest m (p +:+ "/") q ct cl h x) = reqPathOf (mkRequest m p q ct cl h x).
Proof.
  unfold reqPathOf. cbn [pathname].
  by rewrite !path_resolve_root_strip, path_resolve_root_slash.
Qed.

Lemma join_comma_cons x l :
  JS.join "," (x :: l) = x ∨ ∃ t, JS.join "," (x :: l) = x +:+ String "," t.
Proof. destruct l as [|y l]; [by left|right]. by exists (JS.join "," (y :: l)). Qed.

(** X2.  When the query gives [n] several times (the parsed value is an
    array), the receiver count is the one of a request that gives the
    first value alone: [parseInt] reads the array joined by commas and
    stops at the first comma. *)
Theorem X2_repeated_n_first_decides r r' s l :
  query_n r = JS.QArray (s :: l) →
  query_n r' = JS.QString s →
  getNReceivers r = getNReceivers r'.
Proof.
  intros E E'. unfold getNReceivers. rewrite E, E'. cbn [JS.toString].
  destruct (join_comma_cons s l) as [->|[t ->]]; [done|].
  by rewrite parseInt10_comma.
Qed.

(** ** The heads written to the receivers *)

Lemma runPipeBody_responses t path pipe part w :
  responses (node (runPipeBody t path pipe part w)) =
  foldl (λ R c, alter (with_head (receiverHeaders (pipe_sender pipe) part)) c R)
        (responses (node w)) (map conn (pipe_receivers pipe)).
Proof.
  unfold runPipeBody. fields.
  generalize (pipe_receivers pipe). intros l.
  match goal with |- context [foldl ?f ?w0 l] => set (F := f); set (x := w0) end.
  change (responses (node w)) with (responses (node x)). clearbody x. revert x.
  induction l as [|y l IH]; intros x; simpl; [done|].
  rewrite IH. unfold F. fields. done.
Qed.

Lemma foldl_alter_head hs (R : gmap nat Response) cs c :
  foldl (λ R c, alter (with_head hs) c R) R cs !! c =
  if decide (c ∈ cs) then with_head hs <$> R !! c else R !! c.
Proof.
  revert R. induction cs as [|d cs IH]; intros R; simpl; [done|].
  rewrite IH. destruct (decide (d = c)) as [->|Hne].
  - rewrite lookup_alter_eq. rewrite (decide_True (P := c ∈ c :: cs)) by apply list_elem_of_here.
    case_decide; [|done]. by destruct (R !! c).
  - rewrite lookup_alter_ne by done.
    destruct (decide (c ∈ cs)) as [Hin|Hout].
    + by rewrite decide_True by by apply list_elem_of_further.
    + rewrite decide_False; [done|]. intros [?|?]%elem_of_cons; congruence.
Qed.

(** X3.  When the sender is not multipart, [runPipe] gives the response of
    every receiver of the pipe the status 200 and the headers copied from
    the request of the sender ([Content-Length] and [Content-Type], each
    only if the sender gave it), leaves its body and its open or ended
    state as they were, and leaves the response of every other connection
    untouched. *)
Theorem X3_runPipe_writes_heads path pipe w c :
  JS.includes (default "" (content_type (req (pipe_sender pipe)))) "multipart/form-data"
    = false →
  responses (node (runPipe path pipe w)) !! c =
    if decide (c ∈ map conn (pipe_receivers pipe))
    then with_head (receiverHeaders (pipe_sender pipe) None) <$> responses (node w) !! c
    else responses (node w) !! c.
Proof.
  intros Hm. unfold runPipe. rewrite Hm.
  rewrite runPipeBody_responses. by rewrite foldl_alter_head.
Qed.

(** X4.  When the sender is multipart and nothing listens yet for a part on
    the form of the transfer about to start, [runPipe] writes to no
    response; once that form delivers its part, every receiver of the
    pipe gets the status 200 and the headers taken from the part (its
    byte count and its content type, each only if known), and no other
    response changes. *)
Theorem X4_multipart_heads_wait_for_part path pipe w part c :
  JS.includes (default "" (content_type (req (pipe_sender pipe)))) "multipart/form-data"
    = true →
  List.filter (fires (OnForm (nextTransfer (node w))) ev_part) (listeners (node w)) = [] →
  responses (node (runPipe path pipe w)) = responses (node w) ∧
  responses (node (emit (OnForm (nextTransfer (node w))) ev_part part (runPipe path pipe w)))
    !! c =
    if decide (c ∈ map conn (pipe_receivers pipe))
    then with_head (receiverHeaders (pipe_sender pipe) (Some part)) <$> responses (node w) !! c
    else responses (node w) !! c.
Proof.
  intros Hm Hnone. unfold runPipe. rewrite Hm. fields. split; [done|].
  unfold emit. fields. rewrite !List.filter_app, Hnone. cbn [List.filter app].
  rewrite (proj2 (fires_true _ _ _)) by done.
  cbn [andb foldl handler runHandler]. unfold runResolvePart. fields.
  rewrite lookup_insert_eq.
  rewrite runPipeBody_responses. by rewrite foldl_alter_head.
Qed.

(** ** No complete record waits *)

Lemma incomplete_insert s p up f :
  incomplete s → record_waits up →
  incomplete (mkServer f (<[p := up]> (pathToUnestablishedPipe s))).
Proof.
  intros Hinc Hup q uq. simpl. intros Hq.
  apply lookup_insert_Some in Hq as [[_ <-]|[_ Hq]]; [done|by eapply Hinc].
Qed.

Lemma incomplete_delete s p f :
  incomplete s → incomplete (mkServer f (delete p (pathToUnestablishedPipe s))).
Proof.
  intros Hinc q uq. simpl. intros Hq.
  apply lookup_delete_Some in Hq as [_ Hq]. by eapply Hinc.
Qed.

Lemma incomplete_same s s' :
  pathToUnestablishedPipe s' = pathToUnestablishedPipe s → incomplete s → incomplete s'.
Proof. intros E Hinc q uq. rewrite E. apply Hinc. Qed.

Lemma runCloseListener_incomplete ty rr p w :
  records_ok (server w) → incomplete (server w) →
  incomplete (server (runCloseListener ty rr p w)).
Proof.
  intros Hok Hinc. unfold runCloseListener.
  destruct (pathToUnestablishedPipe (server w) !! p) as [up|] eqn:Hup; [|done].
  destruct (Hok _ _ Hup) as [Hle Hpos].
  destruct ty.
  - destruct (sender up) eqn:Hs; [|done].
    case_decide as Hlast; fields; [by apply incomplete_delete|].
    apply incomplete_insert; [done|]. split; [by intros [[? ?] _]|].
    right. simpl. intros E. apply Hlast. by rewrite E.
  - destruct (list_find _ (receivers up)) as [[idx x]|] eqn:Hf; [|done].
    apply list_find_Some in Hf as (Hl & _).
    case_decide as Hlast; fields; [by apply incomplete_delete|].
    apply incomplete_insert; [done|]. split.
    + intros [_ Hlen]. simpl in Hlen.
      rewrite length_delete in Hlen by eauto.
      apply lookup_lt_Some in Hl. lia.
    + simpl in *. destruct (sender up); [left; eauto|right].
      intros E. apply Hlast. by rewrite E.
Qed.

Lemma runHandler_incomplete h arg w :
  records_ok (server w) → incomplete (server w) →
  incomplete (server (runHandler h arg w)).
Proof.
  intros Hok Hinc. destruct h; simpl.
  - by apply runCloseListener_incomplete.
  - unfold runResolvePart. destruct (transfers (node w) !! t); [|done].
    by rewrite runPipeBody_server.
  - unfold closeReceiver. destruct (transfers (node w) !! t); [|done].
    case_decide; [|done]. by eapply incomplete_same.
  - unfold closeReceiver. destruct (transfers (node w) !! t); [|done].
    case_decide; [|done]. by eapply incomplete_same.
  - by rewrite runSenderDataOnClose_server.
  - unfold runSenderDataOnEnd. destruct (transfers (node w) !! t); [|done].
    by eapply incomplete_same.
  - unfold runSenderDataOnError. destruct (transfers (node w) !! t); [|done].
    by eapply incomplete_same.
Qed.

Lemma emit_incomplete e ev arg w :
  records_ok (server w) → incomplete (server w) → incomplete (server (emit e ev arg w)).
Proof.
  unfold emit.
  generalize (List.filter (fires e ev) (listeners (node w))). intros fired.
  set (w0 := set_listeners _ w).
  change (server w) with (server w0). clearbody w0. revert w0.
  induction fired as [|l fired IH]; intros w0 Hok Hinc; simpl; [done|].
  apply IH.
  - eapply evolves_records_ok; [apply runHandler_evolves|done].
  - by apply runHandler_incomplete.
Qed.

Lemma handleSender_incomplete rr p w :
  incomplete (server w) → incomplete (server (handleSender rr p w)).
Proof.
  intros Hinc. unfold handleSender.
  case_decide as Hn; [done|].
  case_decide as Hest; [done|].
  destruct (pathToUnestablishedPipe (server w) !! p) as [up|] eqn:Hup.
  - destruct (sender up) eqn:Hs; [done|].
    case_decide as Hsame; [|done]. fields.
    match goal with |- context [getPipeIfEstablished ?u ?x] =>
      pose proof (getPipeIfEstablished_server u x) as Hsrv;
      pose proof (getPipeIfEstablished_is_Some u x) as Hsome;
      destruct (getPipeIfEstablished u x) as [[pipe|] w1] end; fields.
    + rewrite runPipe_server. fields. rewrite Hsrv. fields.
      rewrite delete_insert_eq. by apply incomplete_delete.
    + rewrite Hsrv. fields. apply incomplete_insert; [done|]. split; [|left; simpl; eauto].
      intros Hp. apply Hsome in Hp. by destruct Hp.
  - fields. apply incomplete_insert; [done|]. split; [|left; simpl; eauto].
    intros [_ Hl]. simpl in Hl. lia.
Qed.

Lemma handleReceiver_incomplete rr p w :
  incomplete (server w) → incomplete (server (handleReceiver rr p w)).
Proof.
  intros Hinc. unfold handleReceiver.
  case_decide as Hn; [done|].
  case_decide as Hest; [done|].
  destruct (pathToUnestablishedPipe (server w) !! p) as [up|] eqn:Hup.
  - case_decide as Hsame; [|done].
    case_decide as Hroom; [|done]. fields.
    destruct (sender up) as [s|] eqn:Hs;
      (match goal with |- context [getPipeIfEstablished ?u ?x] =>
         pose proof (getPipeIfEstablished_server u x) as Hsrv;
         pose proof (getPipeIfEstablished_is_Some u x) as Hsome;
         destruct (getPipeIfEstablished u x) as [[pipe|] w1] end; fields;
       [rewrite runPipe_server; fields; rewrite Hsrv; fields;
        rewrite delete_insert_eq; by apply incomplete_delete
       |rewrite Hsrv; fields; apply incomplete_insert; [done|];
        split; [intros Hp; apply Hsome in Hp; by destruct Hp|];
        right; simpl; by destruct (receivers up)]).
  - fields. apply incomplete_insert; [done|]. split; [by intros [[? ?] _]|by right].
Qed.

(** ** Shapes and counts of the listeners *)

Lemma fires_same_event e ev e' o h :
  fires e ev (mkListener e' ev o h) = bool_decide (e' = e).
Proof. unfold fires. simpl. rewrite (bool_decide_eq_true_2 (ev = ev)) by done. apply andb_true_r. Qed.

Lemma filter_filter_keep {A} (f g : A → bool) (l : list A) :
  (∀ x, x ∈ l → f x = true → g x = true) →
  List.filter f (List.filter g l) = List.filter f l.
Proof.
  induction l as [|y l IH]; intros H; simpl; [done|].
  assert (List.filter f (List.filter g l) = List.filter f l) as IH'.
  { apply IH. intros x Hx. apply H. by apply list_elem_of_further. }
  destruct (g y) eqn:Hg; simpl.
  - by rewrite IH'.
  - destruct (f y) eqn:Hf; [|done].
    rewrite (H y (list_elem_of_here _ _) Hf) in Hg. done.
Qed.

Lemma filter_remove_first (f : Listener → bool) e ev h ls :
  (∀ x, x ∈ ls → on_emitter x = e ∧ on_event x = ev ∧ handler x = h → f x = false) →
  List.filter f (remove_first e ev h ls) = List.filter f ls.
Proof.
  induction ls as [|l ls IH]; intros H; simpl; [done|].
  case_decide as Hm.
  - by rewrite (H l (list_elem_of_here _ _) Hm).
  - simpl. rewrite IH; [done|]. intros x Hx. apply H. by apply list_elem_of_further.
Qed.

Lemma filter_unsubscribed (f : Listener → bool) e ev h ls :
  (∀ x, x ∈ ls → on_emitter x = e ∧ on_event x = ev ∧ handler x = h → f x = false) →
  List.filter f (rev (remove_first e ev h (rev ls))) = List.filter f ls.
Proof.
  intros H. rewrite filter_rev, filter_remove_first.
  - by rewrite filter_rev, rev_involutive.
  - intros x Hx. apply H. by apply list_elem_of_In, in_rev, list_elem_of_In.
Qed.

Lemma remove_first_other_handler e ev h ls l :
  handler l ≠ h → l ∈ ls → l ∈ remove_first e ev h ls.
Proof.
  intros Hne. induction ls as [|x ls IH]; intros Hin; simpl; [done|].
  apply elem_of_cons in Hin as [->|Hin].
  - rewrite decide_False; [apply list_elem_of_here|]. by intros (_ & _ & ?).
  - case_decide; [done|]. apply list_elem_of_further. by apply IH.
Qed.

Lemma unsubscribed_other_handler e ev h ls l :
  handler l ≠ h → l ∈ ls → l ∈ rev (remove_first e ev h (rev ls)).
Proof.
  intros Hne Hl. apply list_elem_of_In, (proj1 (in_rev _ _)), list_elem_of_In.
  apply remove_first_other_handler; [done|].
  by apply list_elem_of_In, (proj1 (in_rev _ _)), list_elem_of_In.
Qed.

Lemma unsubscribed_sublist e ev h ls : rev (remove_first e ev h (rev ls)) `sublist_of` ls.
Proof.
  rewrite <- (rev_involutive ls) at 2. apply sublist_rev, remove_first_sublist.
Qed.

Lemma shape_bump nc l : shape nc l → shape (S nc) l.
Proof. unfold shape. destruct (handler l); try done. intros (? & ? & ? & ?). repeat split; try done. lia. Qed.

Lemma shape_watcher_bound nc c l :
  shape nc l → fires (OnReq c) ev_close l && once l = true → (c < nc)%nat.
Proof.
  intros Hs [[Hem Hev]%fires_true Ho]%andb_true_iff. unfold shape in Hs.
  destruct (handler l); [|congruence|..].
  2-6: destruct Hs as [He' Ho']; congruence.
  destruct Hs as (_ & _ & Hem' & Hlt). congruence.
Qed.

Lemma st_unwatched T L nc c : st_parts T L nc → (nc ≤ c)%nat → watchers c L = [].
Proof.
  intros Hst Hle. apply filter_nil_iff. intros l Hl.
  destruct (fires (OnReq c) ev_close l && once l) eqn:E; [|done].
  pose proof (shape_watcher_bound nc c l (st_shape _ _ _ Hst l Hl) E). lia.
Qed.

Lemma st_bump T L nc : st_parts T L nc → st_parts T L (S nc).
Proof.
  intros [H1 H2 H3 H4 H5]. split; try done.
  intros l Hl. by apply shape_bump, H1.
Qed.

Lemma st_frames T T' L nc :
  st_parts T L nc →
  (∀ t tr' e, T' !! t = Some tr' → t_senderData tr' = Some e →
     ∃ tr, T !! t = Some tr ∧ t_senderData tr = Some e) →
  st_parts T' L nc.
Proof.
  intros [H1 H2 H3 H4 H5] HT. split; try done.
  intros t tr' e Ht He. destruct (HT t tr' e Ht He) as (tr & Htr & Hsd). by eapply H5.
Qed.

Lemma st_add_watcher T L nc ty rr p :
  st_parts T L nc → (conn rr < nc)%nat → watchers (conn rr) L = [] →
  st_parts T (L ++ [watcher ty rr p]) nc.
Proof.
  intros [H1 H2 H3 H4 H5] Hlt Hnone. split.
  - intros l [Hl| ->%list_elem_of_singleton]%elem_of_app; [by apply H1|].
    unfold shape, watcher. simpl. done.
  - intros e. unfold end_listeners. rewrite err_listeners_app, List.filter_app, !length_app.
    unfold watcher. cbn [List.filter]. rewrite fires_other_event by done. simpl.
    specialize (H2 e). unfold end_listeners in H2. lia.
  - intros e. unfold close_listeners. rewrite err_listeners_app, List.filter_app, !length_app.
    unfold watcher. cbn [List.filter once negb]. rewrite andb_false_r. simpl.
    specialize (H3 e). unfold close_listeners in H3. lia.
  - intros c. unfold watchers. rewrite List.filter_app, length_app.
    destruct (decide (c = conn rr)) as [->|Hne].
    + fold (watchers (conn rr) L). rewrite Hnone. simpl.
      destruct (_ && _); simpl; lia.
    + unfold watcher. cbn [List.filter]. rewrite fires_same_event.
      rewrite bool_decide_eq_false_2 by congruence. simpl.
      specialize (H4 c). unfold watchers in H4. lia.
  - intros t tr e Ht He. destruct (H5 t tr e Ht He). split; apply elem_of_app; by left.
Qed.

Lemma st_add_form T L nc t :
  st_parts T L nc → st_parts T (L ++ [mkListener (OnForm t) ev_part true (resolvePart t)]) nc.
Proof.
  intros [H1 H2 H3 H4 H5]. split.
  - intros l [Hl| ->%list_elem_of_singleton]%elem_of_app; [by apply H1|]. done.
  - intros e. unfold end_listeners. rewrite err_listeners_app, List.filter_app, !length_app.
    cbn [List.filter]. rewrite fires_other_event by done. simpl.
    specialize (H2 e). unfold end_listeners in H2. lia.
  - intros e. unfold close_listeners. rewrite err_listeners_app, List.filter_app, !length_app.
    cbn [List.filter]. rewrite fires_other_event by done. simpl.
    specialize (H3 e). unfold close_listeners in H3. lia.
  - intros c. unfold watchers. rewrite List.filter_app, length_app.
    cbn [List.filter]. rewrite fires_other_event by done. simpl.
    specialize (H4 c). unfold watchers in H4. lia.
  - intros t' tr e Ht He. destruct (H5 t' tr e Ht He). split; apply elem_of_app; by left.
Qed.

(** The listeners that are not removed by taking a watcher away. *)
Lemma st_unsubscribe T L nc e ty rr p :
  st_parts T L nc →
  st_parts T (rev (remove_first e ev_close (closeListener ty rr p) (rev L))) nc.
Proof.
  intros Hst. pose proof Hst as [H1 H2 H3 H4 H5].
  assert (∀ x, x ∈ L → on_emitter x = e ∧ on_event x = ev_close ∧
                       handler x = closeListener ty rr p →
            on_event x = ev_close ∧ once x = true) as Hrm.
  { intros x Hx (_ & _ & Hh). specialize (H1 x Hx). unfold shape in H1.
    rewrite Hh in H1. tauto. }
  assert (∀ e', err_listeners e' (rev (remove_first e ev_close (closeListener ty rr p) (rev L)))
                = err_listeners e' L) as Herr.
  { intros e'. apply filter_unsubscribed. intros x Hx Hm.
    destruct (Hrm x Hx Hm) as [Hev _]. apply fires_false. intros [_ ?]. congruence. }
  split.
  - intros l Hl. apply H1. eapply elem_of_sublist; [done|apply unsubscribed_sublist].
  - intros e'. rewrite Herr. unfold end_listeners. rewrite filter_unsubscribed; [apply H2|].
    intros x Hx Hm. destruct (Hrm x Hx Hm) as [Hev _].
    apply fires_false. intros [_ ?]. congruence.
  - intros e'. rewrite Herr. unfold close_listeners. rewrite filter_unsubscribed; [apply H3|].
    intros x Hx Hm. destruct (Hrm x Hx Hm) as [_ ->]. apply andb_false_r.
  - intros c. etransitivity; [|apply (H4 c)].
    apply filter_sublist_length, unsubscribed_sublist.
  - intros t tr e' Ht He. destruct (H5 t tr e' Ht He).
    split; by apply unsubscribed_other_handler.
Qed.

Lemma st_once_filter T L nc e ev :
  st_parts T L nc →
  st_parts T (List.filter (λ l, negb (fires e ev l && once l)) L) nc.
Proof.
  intros Hst. pose proof Hst as [H1 H2 H3 H4 H5].
  assert (∀ x, x ∈ L → once x = false → negb (fires e ev x && once x) = true) as Hk.
  { intros x _ ->. by rewrite andb_false_r. }
  assert (∀ x ev', x ∈ L → on_event x = ev' → ev' = ev_error ∨ ev' = ev_end → once x = false)
    as Hno.
  { intros x ev' Hx Hev Hor. specialize (H1 x Hx). unfold shape in H1.
    destruct (handler x); [|destruct Hor; congruence|..].
    2-6: by destruct H1 as [H1 H1'].
    destruct H1 as (H1 & _). destruct Hor; congruence. }
  assert (∀ e', err_listeners e' (List.filter (λ l, negb (fires e ev l && once l)) L)
                = err_listeners e' L) as Herr.
  { intros e'. apply filter_filter_keep. intros x Hx [_ Hev]%fires_true.
    apply Hk; [done|]. eapply Hno; eauto. }
  split.
  - intros l [Hl _]%filter_elem_of. by apply H1.
  - intros e'. rewrite Herr. unfold end_listeners. rewrite filter_filter_keep; [apply H2|].
    intros x Hx [_ Hev]%fires_true. apply Hk; [done|]. eapply Hno; eauto.
  - intros e'. rewrite Herr. unfold close_listeners. rewrite filter_filter_keep; [apply H3|].
    intros x Hx [_ Ho]%andb_true_iff. apply Hk; [done|]. by destruct (once x).
  - intros c. etransitivity; [|apply (H4 c)]. apply filter_sublist_length, filter_sublist.
  - intros t tr e' Ht He. destruct (H5 t tr e' Ht He).
    split; (apply filter_elem_of; split; [done|]); simpl; by rewrite andb_false_r.
Qed.

Lemma transfer_listeners_elem t sd rs l :
  l ∈ transfer_listeners t sd rs →
  (∃ r, l = mkListener (OnReq (conn r)) ev_close false (receiverOnClose t r)) ∨
  (∃ r, l = mkListener (OnReq (conn r)) ev_error false (receiverOnError t r)) ∨
  l = mkListener sd ev_close false (senderDataOnClose t) ∨
  l = mkListener sd ev_end false (senderDataOnEnd t) ∨
  l = mkListener sd ev_error false (senderDataOnError t).
Proof.
  unfold transfer_listeners. intros [Hl|Hl]%elem_of_app.
  - apply list_elem_of_In, in_concat in Hl as (k & Hk & Hl).
    apply in_map_iff in Hk as (r & <- & Hr).
    destruct Hl as [<-|[<-|[]]]; eauto.
  - rewrite !elem_of_cons, elem_of_nil in Hl. tauto.
Qed.

Lemma transfer_listeners_shape nc t sd rs l : l ∈ transfer_listeners t sd rs → shape nc l.
Proof.
  intros Hl. apply transfer_listeners_elem in Hl as [[r ->]|[[r ->]|[->|[->| ->]]]]; done.
Qed.

Lemma transfer_listeners_counts e t sd rs :
  (length (end_listeners e (transfer_listeners t sd rs))
   ≤ length (err_listeners e (transfer_listeners t sd rs)))%nat ∧
  (length (close_listeners e (transfer_listeners t sd rs))
   ≤ length (err_listeners e (transfer_listeners t sd rs)))%nat.
Proof.
  unfold transfer_listeners, end_listeners, close_listeners, err_listeners.
  rewrite !List.filter_app, !length_app.
  assert (∀ k : list ReqRes,
    let ls := concat (map (λ r, [mkListener (OnReq (conn r)) ev_close false
                                   (receiverOnClose t r);
                                 mkListener (OnReq (conn r)) ev_error false
                                   (receiverOnError t r)]) k) in
    length (List.filter (fires e ev_end) ls) = 0%nat ∧
    length (List.filter (λ l, fires e ev_close l && negb (once l)) ls)
      = length (List.filter (fires e ev_error) ls)) as Hrs.
  { induction k as [|r k [IH1 IH2]]; [done|]. cbn [map concat app List.filter once negb].
    rewrite !(fires_other_event e ev_end _ ev_close), !(fires_other_event e ev_end _ ev_error),
      !(fires_other_event e ev_close _ ev_error), !(fires_other_event e ev_error _ ev_close)
      by done.
    rewrite !fires_same_event. cbn [andb]. rewrite !andb_true_r. split; [exact IH1|].
    destruct (bool_decide _); simpl; by rewrite IH2. }
  destruct (Hrs rs) as [-> ->]. cbn [List.filter once negb].
  rewrite !(fires_other_event e ev_end _ ev_close), !(fires_other_event e ev_end _ ev_error),
    !(fires_other_event e ev_close _ ev_error), !(fires_other_event e ev_error _ ev_close),
    !(fires_other_event e ev_close _ ev_end), !(fires_other_event e ev_error _ ev_end)
    by done.
  rewrite !fires_same_event. cbn [andb]. rewrite !andb_true_r.
  destruct (bool_decide _); simpl; lia.
Qed.

Lemma transfer_listeners_watchers c t sd rs : watchers c (transfer_listeners t sd rs) = [].
Proof.
  apply filter_nil_iff. intros l Hl.
  apply transfer_listeners_elem in Hl as [[r ->]|[[r ->]|[->|[->| ->]]]];
    simpl; apply andb_false_r.
Qed.

Lemma transfer_listeners_close t sd rs :
  mkListener sd ev_close false (senderDataOnClose t) ∈ transfer_listeners t sd rs ∧
  mkListener sd ev_end false (senderDataOnEnd t) ∈ transfer_listeners t sd rs.
Proof.
  unfold transfer_listeners. split; apply elem_of_app; right.
  - apply list_elem_of_here.
  - apply list_elem_of_further, list_elem_of_here.
Qed.

Lemma st_start T L nc t path pipe sd cc pd :
  st_parts T L nc →
  st_parts (<[t := mkTransfer path pipe (Some sd) cc pd]> T)
           (L ++ transfer_listeners t sd (pipe_receivers pipe)) nc.
Proof.
  intros [H1 H2 H3 H4 H5].
  split.
  - intros l [Hl|Hl]%elem_of_app; [by apply H1|by eapply transfer_listeners_shape].
  - intros e. destruct (transfer_listeners_counts e t sd (pipe_receivers pipe)) as [He _].
    unfold end_listeners in *. rewrite err_listeners_app, List.filter_app, !length_app.
    specialize (H2 e). lia.
  - intros e. destruct (transfer_listeners_counts e t sd (pipe_receivers pipe)) as [_ Hc].
    unfold close_listeners in *. rewrite err_listeners_app, List.filter_app, !length_app.
    specialize (H3 e). lia.
  - intros c. pose proof (transfer_listeners_watchers c t sd (pipe_receivers pipe)) as Hw.
    unfold watchers in *. rewrite List.filter_app, Hw, app_nil_r. apply H4.
  - intros t' tr e Ht He. destruct (decide (t' = t)) as [->|Hne].
    + rewrite lookup_insert_eq in Ht. injection Ht as <-. simpl in He. injection He as <-.
      destruct (transfer_listeners_close t sd (pipe_receivers pipe)).
      split; apply elem_of_app; by right.
    + rewrite lookup_insert_ne in Ht by done. destruct (H5 t' tr e Ht He).
      split; apply elem_of_app; by left.
Qed.

(** ** The listeners under the handlers *)

Lemma runPipeBody_static t path pipe part w : static w → static (runPipeBody t path pipe part w).
Proof.
  intros Hst. unfold static.
  rewrite runPipeBody_listeners, runPipeBody_transfers, runPipeBody_counters.
  by apply st_start.
Qed.

Lemma runPipe_static path pipe w : static w → static (runPipe path pipe w).
Proof.
  intros Hst. unfold runPipe. destruct (JS.includes _ _).
  - unfold static. fields. apply st_add_form. eapply st_frames; [exact Hst|].
    intros t tr' e Ht He. destruct (decide (t = nextTransfer (node w))) as [->|Hne].
    + rewrite lookup_insert_eq in Ht. by injection Ht as <-.
    + rewrite lookup_insert_ne in Ht by done. eauto.
  - by apply runPipeBody_static.
Qed.

Lemma closeReceiver_static t r w : static w → static (closeReceiver t r w).
Proof.
  intros Hst. unfold closeReceiver.
  destruct (transfers (node w) !! t) as [tr|] eqn:Ht; [|done].
  assert (st_parts
            (alter (λ tr0, mkTransfer (t_path tr0) (t_pipe tr0) (t_senderData tr0)
                             (closeCount tr0)
                             (List.filter (λ x, negb (x =? conn r)%nat) (piped tr0))) t
               (<[t := mkTransfer (t_path tr) (t_pipe tr) (t_senderData tr)
                         (closeCount tr + 1) (piped tr)]> (transfers (node w))))
            (listeners (node w)) (nextConn (node w))) as H.
  { eapply st_frames; [exact Hst|]. intros t' tr' e. rewrite alter_insert_eq.
    destruct (decide (t' = t)) as [->|Hne].
    - rewrite lookup_insert_eq. intros [= <-]. simpl. eauto.
    - rewrite lookup_insert_ne by done. eauto. }
  case_decide; exact H.
Qed.

Lemma foldl_destroy_static (rs : list ReqRes) w :
  static w → static (foldl (λ w receiver, destroy (conn receiver) w) w rs).
Proof.
  revert w. induction rs as [|r rs IH]; intros w Hst; simpl; [done|]. by apply IH.
Qed.

Lemma runCloseListener_static ty rr p w : static w → static (runCloseListener ty rr p w).
Proof.
  intros Hst. unfold runCloseListener.
  destruct (pathToUnestablishedPipe (server w) !! p) as [up|]; [|done].
  destruct ty.
  - destruct (sender up); [|done]. by case_decide.
  - destruct (list_find _ _) as [[idx x]|]; [|done]. by case_decide.
Qed.

Lemma runHandler_static h arg w : static w → static (runHandler h arg w).
Proof.
  intros Hst. destruct h; simpl.
  - by apply runCloseListener_static.
  - unfold runResolvePart. destruct (transfers (node w) !! t); [|done].
    by apply runPipeBody_static.
  - by apply closeReceiver_static.
  - by apply closeReceiver_static.
  - unfold runSenderDataOnClose. destruct (transfers (node w) !! t); [|done].
    by apply foldl_destroy_static.
  - unfold runSenderDataOnEnd. by destruct (transfers (node w) !! t).
  - unfold runSenderDataOnError. by destruct (transfers (node w) !! t).
Qed.

Lemma emit_static e ev arg w : static w → static (emit e ev arg w).
Proof.
  intros Hst. unfold emit.
  generalize (List.filter (fires e ev) (listeners (node w))). intros fired.
  assert (static (set_listeners (List.filter (λ l, negb (fires e ev l && once l))) w)) as H0.
  { unfold static. fields. by apply st_once_filter. }
  set (w0 := set_listeners _ w) in *. clearbody w0. revert w0 H0.
  induction fired as [|l fired IH]; intros w0 H0; simpl; [done|].
  apply IH. by apply runHandler_static.
Qed.

Lemma unsubscribe_static r w :
  static w → (∃ ty rr p, unsubscribeCloseListener r = closeListener ty rr p) →
  static (unsubscribe r w).
Proof.
  intros Hst (ty & rr & p & Hh). unfold static, unsubscribe, removeListener. fields.
  rewrite Hh. by apply st_unsubscribe.
Qed.

Lemma foldl_unsubscribe_static (rs : list ReqResAndUnsubscribe) w :
  static w →
  (∀ x, x ∈ rs → ∃ ty rr p, unsubscribeCloseListener x = closeListener ty rr p) →
  static (foldl (λ w r, unsubscribe r w) w rs).
Proof.
  revert w. induction rs as [|r rs IH]; intros w Hst Hrs; simpl; [done|].
  apply IH.
  - apply unsubscribe_static; [done|]. apply Hrs, list_elem_of_here.
  - intros x Hx. apply Hrs. by apply list_elem_of_further.
Qed.

Lemma getPipeIfEstablished_static up w :
  static w →
  (∀ x, x ∈ receivers up → ∃ ty rr p, unsubscribeCloseListener x = closeListener ty rr p) →
  static (getPipeIfEstablished up w).2.
Proof.
  intros Hst Hrs. unfold getPipeIfEstablished.
  destruct (sender up); [|done]. case_decide; [|done]. cbn [snd].
  by apply foldl_unsubscribe_static.
Qed.

(** ** The close-watchers of the waiting participants *)

Lemma participants_sender up ty x :
  (ty, x) ∈ participants up ↔
  (ty = sender_type ∧ sender up = Some x) ∨ (ty = receiver_type ∧ x ∈ receivers up).
Proof.
  unfold participants. rewrite elem_of_app. split.
  - intros [H|H].
    + destruct (sender up) as [s|]; [|by apply elem_of_nil in H].
      apply list_elem_of_singleton in H as [= -> ->]. by left.
    + apply list_elem_of_fmap in H as (y & [= -> ->] & Hy). by right.
  - intros [[-> ->]|[-> Hx]].
    + left. apply list_elem_of_here.
    + right. apply list_elem_of_fmap. eauto.
Qed.

Lemma watched_grow U L L' : watched U L → (∀ l, l ∈ L → l ∈ L') → watched U L'.
Proof.
  intros Hw Hsub p up ty x Hup Hx. destruct (Hw p up ty x Hup Hx). split; [done|by apply Hsub].
Qed.

Lemma watched_delete U L p : watched U L → watched (delete p U) L.
Proof.
  intros Hw q up ty x Hup Hx. apply lookup_delete_Some in Hup as [_ Hup]. by eapply Hw.
Qed.

Lemma watched_insert U L p up :
  watched U L →
  (∀ ty x, (ty, x) ∈ participants up →
     unsubscribeCloseListener x = closeListener ty (reqRes x) p ∧ watcher ty (reqRes x) p ∈ L) →
  watched (<[p := up]> U) L.
Proof.
  intros Hw Hup q uq ty x Hq Hx.
  apply lookup_insert_Some in Hq as [[<- <-]|[_ Hq]]; [by apply Hup|by eapply Hw].
Qed.

Lemma foldl_unsubscribe_keeps (rs : list ReqResAndUnsubscribe) w l :
  (∀ x, x ∈ rs → handler l ≠ unsubscribeCloseListener x) →
  l ∈ listeners (node w) → l ∈ listeners (node (foldl (λ w r, unsubscribe r w) w rs)).
Proof.
  revert w. induction rs as [|r rs IH]; intros w Hrs Hl; simpl; [done|].
  apply IH.
  - intros x Hx. apply Hrs. by apply list_elem_of_further.
  - unfold unsubscribe, removeListener. fields.
    apply unsubscribed_other_handler; [|done]. apply Hrs, list_elem_of_here.
Qed.

Lemma foldl_unsubscribe_server (rs : list ReqResAndUnsubscribe) w :
  server (foldl (λ w r, unsubscribe r w) w rs) = server w.
Proof. by apply foldl_server. Qed.

(** The end of both handlers: the record just written is established, or
    left as it is. *)
Lemma establish_tidy (announce : Pipe → World → World) p up w :
  (∀ pipe x, pathToUnestablishedPipe (server (announce pipe x))
               = pathToUnestablishedPipe (server x) ∧
             transfers (node (announce pipe x)) = transfers (node x) ∧
             listeners (node (announce pipe x)) = listeners (node x) ∧
             nextConn (node (announce pipe x)) = nextConn (node x)) →
  tidy w → pathToUnestablishedPipe (server w) !! p = Some up →
  tidy (match getPipeIfEstablished up w with
      | (Some pipe, x) => runPipe p pipe (announce pipe x)
      | (None, x) => x
      end).
Proof.
  intros Hann [Hst Hw] Hup.
  assert (∀ x, x ∈ receivers up →
            unsubscribeCloseListener x = closeListener receiver_type (reqRes x) p) as Hrs.
  { intros x Hx. apply (Hw p up receiver_type x Hup). apply participants_sender. by right. }
  pose proof (getPipeIfEstablished_static up w Hst) as Hst2.
  unfold getPipeIfEstablished in *.
  destruct (sender up) as [s|]; [|done]. case_decide; [|done]. cbn [fst snd] in *.
  set (x := foldl (λ w r, unsubscribe r w) w (receivers up)) in *.
  match goal with |- context [announce ?pp x] => set (pipe := pp) end.
  destruct (Hann pipe x) as (Ha1 & Ha2 & Ha3 & Ha4).
  split.
  - apply runPipe_static. unfold static. rewrite Ha2, Ha3, Ha4. apply Hst2.
    intros y Hy. rewrite (Hrs y Hy). eauto.
  - rewrite runPipe_server. cbn [pathToUnestablishedPipe]. rewrite Ha1.
    unfold x at 1. rewrite foldl_unsubscribe_server.
    intros q uq ty y Hq Hy. apply lookup_delete_Some in Hq as [Hne Hq].
    destruct (Hw q uq ty y Hq Hy) as [Hh Hin]. split; [done|].
    apply runPipe_keeps_listeners. rewrite Ha3. apply foldl_unsubscribe_keeps; [|done].
    intros z Hz. rewrite (Hrs z Hz). simpl. congruence.
Qed.

Lemma handleSender_tidy rr p w :
  tidy w → (conn rr < nextConn (node w))%nat → watchers (conn rr) (listeners (node w)) = [] →
  tidy (handleSender rr p w).
Proof.
  intros [Hst Hw] Hlt Hnone. unfold handleSender.
  case_decide; [done|]. case_decide; [done|].
  assert (st_parts (transfers (node w)) (listeners (node w) ++ [watcher sender_type rr p])
                   (nextConn (node w))) as Hadd by by apply st_add_watcher.
  assert (watched (pathToUnestablishedPipe (server w))
                  (listeners (node w) ++ [watcher sender_type rr p])) as Hw'.
  { eapply watched_grow; [exact Hw|]. intros l Hl. apply elem_of_app. by left. }
  destruct (pathToUnestablishedPipe (server w) !! p) as [up|] eqn:Hup.
  - destruct (sender up) eqn:Hs; [done|]. case_decide; [|done]. fields.
    apply (establish_tidy (λ _, write (conn rr) ("Start sending!" +:+ JS.nl))).
    + done.
    + split; [exact Hadd|]. fields. apply watched_insert; [exact Hw'|].
      intros ty x [[-> [= <-]]|[-> Hx]]%participants_sender.
      * split; [done|]. apply elem_of_app. right. apply list_elem_of_here.
      * apply (Hw' p up receiver_type x Hup). apply participants_sender. by right.
    + fields. by rewrite lookup_insert_eq.
  - split; [exact Hadd|]. fields. apply watched_insert; [exact Hw'|].
    intros ty x [[-> [= <-]]|[-> Hx]]%participants_sender.
    + split; [done|]. apply elem_of_app. right. apply list_elem_of_here.
    + by apply elem_of_nil in Hx.
Qed.

Lemma handleReceiver_tidy rr p w :
  tidy w → (conn rr < nextConn (node w))%nat → watchers (conn rr) (listeners (node w)) = [] →
  tidy (handleReceiver rr p w).
Proof.
  intros [Hst Hw] Hlt Hnone. unfold handleReceiver.
  case_decide; [done|]. case_decide; [done|].
  assert (st_parts (transfers (node w)) (listeners (node w) ++ [watcher receiver_type rr p])
                   (nextConn (node w))) as Hadd by by apply st_add_watcher.
  assert (watched (pathToUnestablishedPipe (server w))
                  (listeners (node w) ++ [watcher receiver_type rr p])) as Hw'.
  { eapply watched_grow; [exact Hw|]. intros l Hl. apply elem_of_app. by left. }
  destruct (pathToUnestablishedPipe (server w) !! p) as [up|] eqn:Hup.
  - case_decide; [|done]. case_decide; [|done]. fields.
    apply (establish_tidy (λ pipe, write (conn (pipe_sender pipe))
             ("[INFO] Start sending with "
              +:+ JS.string_of_number (Z.of_nat (length (pipe_receivers pipe)))
              +:+ " receiver(s)!" +:+ JS.nl))).
    + done.
    + assert (tidy (mkWorld
                (mkServer (pathToEstablished (server w))
                   (<[p := mkUnestablished (sender up)
                             (receivers up ++ [mkRRU rr (closeListener receiver_type rr p)])
                             (nReceivers up)]> (pathToUnestablishedPipe (server w))))
                (mkNode (responses (node w)) (destroyed (node w))
                   (listeners (node w) ++ [watcher receiver_type rr p])
                   (transfers (node w)) (nextConn (node w)) (nextTransfer (node w)))))
        as Hrec.
      { split; [exact Hadd|]. fields. apply watched_insert; [exact Hw'|].
        intros ty x [[-> Hx]|[-> Hx]]%participants_sender; simpl in Hx.
        - apply (Hw' p up sender_type x Hup). apply participants_sender. by left.
        - apply elem_of_app in Hx as [Hx| ->%list_elem_of_singleton].
          + apply (Hw' p up receiver_type x Hup). apply participants_sender. by right.
          + split; [done|]. apply elem_of_app. right. apply list_elem_of_here. }
      destruct Hrec as [Hr1 Hr2]. destruct (sender up); split; fields; done.
    + destruct (sender up); fields; by rewrite lookup_insert_eq.
  - split; [exact Hadd|]. fields. apply watched_insert; [exact Hw'|].
    intros ty x [[-> [=]]|[-> Hx]]%participants_sender.
    apply list_elem_of_singleton in Hx as ->.
    split; [done|]. apply elem_of_app. right. apply list_elem_of_here.
Qed.

Lemma runHandler_listeners h arg w :
  (∀ t, h ≠ resolvePart t) → listeners (node (runHandler h arg w)) = listeners (node w).
Proof.
  intros Hh. destruct h; simpl.
  - unfold runCloseListener.
    destruct (pathToUnestablishedPipe (server w) !! reqPath) as [up|]; [|done].
    destruct removerType.
    + destruct (sender up); [|done]. by case_decide.
    + destruct (list_find _ _) as [[idx x]|]; [|done]. by case_decide.
  - by destruct (Hh t).
  - unfold closeReceiver. destruct (transfers (node w) !! t); [|done]. by case_decide.
  - unfold closeReceiver. destruct (transfers (node w) !! t); [|done]. by case_decide.
  - unfold runSenderDataOnClose. destruct (transfers (node w) !! t) as [tr|]; [|done].
    generalize (pipe_receivers (t_pipe tr)). intros l. revert w.
    induction l as [|x l IH]; intros w; simpl; [done|]. by rewrite IH.
  - unfold runSenderDataOnEnd. by destruct (transfers (node w) !! t).
  - unfold runSenderDataOnError. by destruct (transfers (node w) !! t).
Qed.

Lemma runHandler_listeners_grow h arg w l :
  l ∈ listeners (node w) → l ∈ listeners (node (runHandler h arg w)).
Proof.
  intros Hl. destruct h; try (by rewrite runHandler_listeners).
  simpl. unfold runResolvePart. destruct (transfers (node w) !! t); [|done].
  rewrite runPipeBody_listeners. apply elem_of_app. by left.
Qed.

Lemma runHandler_unestablished h arg w :
  (∀ ty rr p, h ≠ closeListener ty rr p) →
  pathToUnestablishedPipe (server (runHandler h arg w)) = pathToUnestablishedPipe (server w).
Proof.
  intros Hh. destruct h; simpl.
  - by destruct (Hh removerType receiverReqRes reqPath).
  - unfold runResolvePart. destruct (transfers (node w) !! t); [|done].
    by rewrite runPipeBody_server.
  - unfold closeReceiver. destruct (transfers (node w) !! t); [|done]. by case_decide.
  - unfold closeReceiver. destruct (transfers (node w) !! t); [|done]. by case_decide.
  - by rewrite runSenderDataOnClose_server.
  - unfold runSenderDataOnEnd. by destruct (transfers (node w) !! t).
  - unfold runSenderDataOnError. by destruct (transfers (node w) !! t).
Qed.

(** What the close-watcher leaves of the records. *)
Lemma runCloseListener_participants ty0 rr0 p0 w q up' ty x :
  pathToUnestablishedPipe (server (runCloseListener ty0 rr0 p0 w)) !! q = Some up' →
  (ty, x) ∈ participants up' →
  ∃ up, pathToUnestablishedPipe (server w) !! q = Some up ∧ (ty, x) ∈ participants up.
Proof.
  unfold runCloseListener.
  destruct (pathToUnestablishedPipe (server w) !! p0) as [up|] eqn:Hup; [|eauto].
  assert (∀ up0, (∀ ty x, (ty, x) ∈ participants up0 → (ty, x) ∈ participants up) →
     pathToUnestablishedPipe
       (server (if decide (length (receivers up0) = 0%nat ∧ sender up0 = None)
                then set_unestablished (delete p0) w
                else set_unestablished (<[p0 := up0]>) w)) !! q = Some up' →
     (ty, x) ∈ participants up' →
     ∃ up, pathToUnestablishedPipe (server w) !! q = Some up ∧ (ty, x) ∈ participants up)
    as Hcase.
  { intros up0 Hsub. case_decide; fields.
    - intros [_ Hq]%lookup_delete_Some. eauto.
    - intros [[<- <-]|[_ Hq]]%lookup_insert_Some; eauto. }
  destruct ty0.
  - destruct (sender up) eqn:Hs; [|eauto]. apply Hcase.
    intros ty' x'. rewrite !participants_sender. simpl. intros [[_ [=]]|[-> Hx]]. by right.
  - destruct (list_find _ (receivers up)) as [[idx y]|] eqn:Hf; [|eauto]. apply Hcase.
    intros ty' x'. rewrite !participants_sender. simpl. intros [[-> Hx]|[-> Hx]]; [by left|].
    right. split; [done|]. by eapply list_elem_of_delete_inv.
Qed.

Lemma NoDup_delete_conn (rs : list ReqResAndUnsubscribe) idx y x :
  NoDup (map (λ r, conn (reqRes r)) rs) → rs !! idx = Some y → x ∈ delete idx rs →
  conn (reqRes x) ≠ conn (reqRes y).
Proof.
  revert idx. induction rs as [|r rs IH]; intros idx Hnd Hy Hx; [done|].
  apply NoDup_cons in Hnd as [Hr Hnd]. destruct idx as [|idx]; simpl in *.
  - injection Hy as ->. intros E. apply Hr. rewrite <- E.
    apply (list_elem_of_fmap_2 (λ r, conn (reqRes r))). done.
  - apply elem_of_cons in Hx as [->|Hx].
    + intros E. apply Hr. rewrite E.
      apply (list_elem_of_fmap_2 (λ r, conn (reqRes r))). by eapply list_elem_of_lookup_2.
    + by eapply IH.
Qed.

Lemma runCloseListener_removes ty0 rr0 p0 w up' x :
  well_formed w →
  pathToUnestablishedPipe (server (runCloseListener ty0 rr0 p0 w)) !! p0 = Some up' →
  (ty0, x) ∈ participants up' → conn (reqRes x) ≠ conn rr0.
Proof.
  intros Hwf. unfold runCloseListener.
  destruct (pathToUnestablishedPipe (server w) !! p0) as [up|] eqn:Hup; [|congruence].
  destruct (record_group_facts w p0 up Hwf Hup) as [Hnd _].
  destruct ty0.
  - destruct (sender up) eqn:Hs.
    + case_decide; fields.
      * by rewrite lookup_delete_eq.
      * rewrite lookup_insert_eq. intros [= <-].
        rewrite participants_sender. simpl. by intros [[_ [=]]|[[=] _]].
    + rewrite Hup. intros [= <-]. rewrite participants_sender, Hs. by intros [[_ [=]]|[[=] _]].
  - destruct (list_find _ (receivers up)) as [[idx y]|] eqn:Hf.
    + apply list_find_Some in Hf as (Hy & Hc & _).
      case_decide; fields.
      * by rewrite lookup_delete_eq.
      * rewrite lookup_insert_eq. intros [= <-].
        rewrite participants_sender. simpl. intros [[[=] _]|[_ Hx]].
        rewrite <- Hc. eapply NoDup_delete_conn; [|done|done].
        unfold conns_of in Hnd. by apply NoDup_app in Hnd as (_ & _ & ?).
    + rewrite Hup. intros [= <-]. rewrite participants_sender. intros [[[=] _]|[_ Hx]].
      apply list_find_None in Hf. rewrite Forall_forall in Hf. by apply Hf.
Qed.

Lemma fold_plain_watched (fired : list Listener) arg w :
  Forall (λ l, ∀ ty rr p, handler l ≠ closeListener ty rr p) fired →
  watched (pathToUnestablishedPipe (server w)) (listeners (node w)) →
  watched (pathToUnestablishedPipe (server (foldl (λ w l, runHandler (handler l) arg w) w fired)))
          (listeners (node (foldl (λ w l, runHandler (handler l) arg w) w fired))).
Proof.
  intros Hplain. revert w. induction Hplain as [|l fired Hl _ IH]; intros w Hw; simpl; [done|].
  apply IH. rewrite runHandler_unestablished by done.
  eapply watched_grow; [exact Hw|]. intros l'. apply runHandler_listeners_grow.
Qed.

Lemma fold_close_watched c nc arg L0 (rest : list Listener) w :
  Forall (λ l, fires (OnReq c) ev_close l = true ∧ shape nc l) rest →
  well_formed w → listeners (node w) = L0 →
  (∀ p up ty x, pathToUnestablishedPipe (server w) !! p = Some up →
     (ty, x) ∈ participants up →
     unsubscribeCloseListener x = closeListener ty (reqRes x) p ∧
     if decide (conn (reqRes x) = c) then watcher ty (reqRes x) p ∈ rest
     else watcher ty (reqRes x) p ∈ L0) →
  watched (pathToUnestablishedPipe (server (foldl (λ w l, runHandler (handler l) arg w) w rest)))
          (listeners (node (foldl (λ w l, runHandler (handler l) arg w) w rest))).
Proof.
  intros Hrest. revert w.
  induction Hrest as [|l rest [[Hem Hev]%fires_true Hsh] _ IH]; intros w Hwf HL Hpart; simpl.
  - rewrite HL. intros p up ty x Hup Hx. destruct (Hpart p up ty x Hup Hx) as [Hh Hin].
    split; [done|]. case_decide; [by apply elem_of_nil in Hin|done].
  - assert (∀ t, handler l ≠ resolvePart t) as Hnp.
    { intros t Hh. unfold shape in Hsh. rewrite Hh in Hsh. congruence. }
    apply IH.
    + by apply runHandler_wf.
    + by rewrite runHandler_listeners.
    + intros q up' ty x Hq Hx.
      destruct (handler l) as [ty0 rr0 p0| | | | | |] eqn:Hh.
      * simpl in Hq.
        destruct (runCloseListener_participants _ _ _ _ _ _ _ _ Hq Hx) as (up & Hup & Hx0).
        destruct (Hpart q up ty x Hup Hx0) as [Hok Hin]. split; [done|].
        case_decide as Hc; [|done].
        apply elem_of_cons in Hin as [Hin|Hin]; [|done].
        unfold watcher in Hin. rewrite <- Hin in Hh. simpl in Hh. injection Hh as -> Hrr ->.
        destruct (runCloseListener_removes _ _ _ _ _ x Hwf Hq Hx). by rewrite Hrr.
      * by destruct (Hnp t).
      * rewrite runHandler_unestablished in Hq by done.
        destruct (Hpart q up' ty x Hq Hx) as [Hok Hin]. split; [done|].
        case_decide; [|done]. apply elem_of_cons in Hin as [Hin|Hin]; [|done].
        unfold watcher in Hin. rewrite <- Hin in Hh. done.
      * rewrite runHandler_unestablished in Hq by done.
        destruct (Hpart q up' ty x Hq Hx) as [Hok Hin]. split; [done|].
        case_decide; [|done]. apply elem_of_cons in Hin as [Hin|Hin]; [|done].
        unfold watcher in Hin. rewrite <- Hin in Hh. done.
      * rewrite runHandler_unestablished in Hq by done.
        destruct (Hpart q up' ty x Hq Hx) as [Hok Hin]. split; [done|].
        case_decide; [|done]. apply elem_of_cons in Hin as [Hin|Hin]; [|done].
        unfold watcher in Hin. rewrite <- Hin in Hh. done.
      * rewrite runHandler_unestablished in Hq by done.
        destruct (Hpart q up' ty x Hq Hx) as [Hok Hin]. split; [done|].
        case_decide; [|done]. apply elem_of_cons in Hin as [Hin|Hin]; [|done].
        unfold watcher in Hin. rewrite <- Hin in Hh. done.
      * rewrite runHandler_unestablished in Hq by done.
        destruct (Hpart q up' ty x Hq Hx) as [Hok Hin]. split; [done|].
        case_decide; [|done]. apply elem_of_cons in Hin as [Hin|Hin]; [|done].
        unfold watcher in Hin. rewrite <- Hin in Hh. done.
Qed.

Lemma emit_tidy e ev arg w : tidy w → well_formed w → tidy (emit e ev arg w).
Proof.
  intros [Hst Hw] Hwf. split; [by apply emit_static|].
  unfold emit.
  pose proof (once_filter_wf e ev w Hwf) as Hwf0.
  set (w0 := set_listeners _ w) in *.
  set (fired := List.filter (fires e ev) (listeners (node w))).
  assert ((∃ c, e = OnReq c ∧ ev = ev_close) ∨ ¬ (∃ c, e = OnReq c ∧ ev = ev_close))
    as [(c & -> & ->)|Hother].
  { destruct e as [c|t|t]; destruct ev; eauto; right; intros (? & ? & ?); congruence. }
  - apply (fold_close_watched c (nextConn (node w)) arg (listeners (node w0))); [|done|done|].
    + apply Forall_forall. intros l [Hl Hf]%filter_elem_of. split; [done|].
      by apply (st_shape _ _ _ Hst).
    + intros p up ty x Hup Hx. destruct (Hw p up ty x Hup Hx) as [Hok Hin].
      split; [done|]. case_decide as Hc.
      * apply filter_elem_of. split; [done|]. apply fires_true. simpl. by rewrite Hc.
      * unfold w0. fields. apply filter_elem_of. split; [done|].
        rewrite (proj2 (fires_false _ _ _)); [done|]. simpl. intros [[= ?] _]. done.
  - apply fold_plain_watched.
    + apply Forall_forall. intros l [Hl [Hem Hev]%fires_true]%filter_elem_of ty rr p Hh.
      pose proof (st_shape _ _ _ Hst l Hl) as Hsh. unfold shape in Hsh. rewrite Hh in Hsh.
      destruct Hsh as (Hev' & _ & Hem' & _). apply Hother. exists (conn rr).
      split; congruence.
    + unfold w0. fields. intros p up ty x Hup Hx. destruct (Hw p up ty x Hup Hx) as [Hok Hin].
      split; [done|]. apply filter_elem_of. split; [done|].
      rewrite (proj2 (fires_false _ _ _)); [done|]. simpl. intros [<- <-]. apply Hother. eauto.
Qed.

Lemma tidy_init : tidy init.
Proof.
  split.
  - split; simpl.
    + intros l Hl. by apply elem_of_nil in Hl.
    + done.
    + done.
    + intros c. simpl. lia.
    + intros t tr e. by rewrite lookup_empty.
  - intros p up ty x. simpl. by rewrite lookup_empty.
Qed.

(** ** Listeners called by one event *)

Lemma filter_split_length {A} (f g : A → bool) (l : list A) :
  length (List.filter f l) =
  (length (List.filter (λ x, f x && g x) l)
   + length (List.filter (λ x, f x && negb (g x)) l))%nat.
Proof.
  induction l as [|x l IH]; simpl; [done|].
  destruct (f x), (g x); simpl; lia.
Qed.

Lemma filter_all {A} (f : A → bool) (l : list A) :
  (∀ x, x ∈ l → f x = true) → List.filter f l = l.
Proof.
  induction l as [|y l IH]; intros H; simpl; [done|].
  rewrite (H y (list_elem_of_here _ _)). rewrite IH; [done|].
  intros x Hx. apply H. by apply list_elem_of_further.
Qed.

(** Nothing installed for the events of a transfer is removed by [emit]. *)
Lemma once_filter_plain T L nc e ev :
  st_parts T L nc → ev ≠ ev_close → ev ≠ ev_part →
  List.filter (λ l, negb (fires e ev l && once l)) L = L.
Proof.
  intros Hst Hc Hp. apply filter_all. intros l Hl.
  destruct (fires e ev l) eqn:Hf; [|done]. apply fires_true in Hf as [_ Hev].
  pose proof (st_shape _ _ _ Hst l Hl) as Hsh. unfold shape in Hsh.
  destruct (handler l); [|congruence|..].
  2-6: destruct Hsh as [_ ->]; by rewrite andb_false_r.
  destruct Hsh as [? _]. congruence.
Qed.

Lemma list_find_NoDup {A B} `{EqDecision B} (f : A → B) (l : list A) idx x :
  NoDup (map f l) → l !! idx = Some x →
  list_find (λ r, f r = f x) l = Some (idx, x).
Proof.
  intros Hnd Hx. apply list_find_Some. split; [done|]. split; [done|].
  intros j y Hy Hlt Heq.
  assert (map f l !! j = Some (f y)) as Hj by (by rewrite list_lookup_fmap, Hy).
  assert (map f l !! idx = Some (f x)) as Hi by (by rewrite list_lookup_fmap, Hx).
  rewrite Heq in Hj. pose proof (NoDup_lookup _ _ _ _ Hnd Hj Hi). lia.
Qed.

(** The listeners called when the source of a transfer closes. *)
Lemma fold_source_close e t tr arg (fired : list Listener) w :
  Forall (λ l, (∃ ty rr p, handler l = closeListener ty rr p) ∨
               l = mkListener e ev_close false (senderDataOnClose t)) fired →
  transfers (node w) !! t = Some tr →
  responses (node (foldl (λ w l, runHandler (handler l) arg w) w fired)) = responses (node w) ∧
  transfers (node (foldl (λ w l, runHandler (handler l) arg w) w fired)) = transfers (node w) ∧
  pathToEstablished (server (foldl (λ w l, runHandler (handler l) arg w) w fired))
    = pathToEstablished (server w) ∧
  ∀ c, c ∈ destroyed (node (foldl (λ w l, runHandler (handler l) arg w) w fired)) ↔
       c ∈ destroyed (node w) ∨
       (mkListener e ev_close false (senderDataOnClose t) ∈ fired ∧
        c ∈ map conn (pipe_receivers (t_pipe tr))).
Proof.
  intros Hall. revert w. induction Hall as [|l fired Hl _ IH]; intros w Ht; simpl.
  - repeat split; try done; [tauto|]. intros [?|[Hin _]]; [done|by apply elem_of_nil in Hin].
  - destruct Hl as [(ty & rr & p & Hh)| ->].
    + rewrite Hh. simpl.
      assert (node (runCloseListener ty rr p w) = node w ∧
              pathToEstablished (server (runCloseListener ty rr p w))
                = pathToEstablished (server w)) as [Hn He].
      { unfold runCloseListener.
        destruct (pathToUnestablishedPipe (server w) !! p) as [up|]; [|done].
        destruct ty.
        - destruct (sender up); [|done]. by case_decide.
        - destruct (list_find _ _) as [[idx x]|]; [|done]. by case_decide. }
      destruct (IH (runCloseListener ty rr p w)) as (H1 & H2 & H3 & H4); [by rewrite Hn|].
      rewrite H1, H2, H3, Hn, He. repeat split; try done.
      * intros Hc. apply H4 in Hc as [Hc|[Hin Hc]]; [left; by rewrite <- Hn|].
        right. split; [by apply list_elem_of_further|done].
      * intros [Hc|[Hin Hc]]; apply H4; [left; by rewrite Hn|].
        apply elem_of_cons in Hin as [Hin|Hin]; [|by right].
        rewrite <- Hin in Hh. done.
    + simpl. unfold runSenderDataOnClose at 1 2 3 4. rewrite Ht.
      set (w1 := foldl (λ w receiver, destroy (conn receiver) w) w (pipe_receivers (t_pipe tr))).
      assert (server w1 = server w ∧ responses (node w1) = responses (node w) ∧
              transfers (node w1) = transfers (node w) ∧
              ∀ c, c ∈ destroyed (node w1) ↔
                   c ∈ destroyed (node w) ∨ c ∈ map conn (pipe_receivers (t_pipe tr)))
        as (Hs1 & Hr1 & Ht1 & Hd1).
      { unfold w1. generalize (pipe_receivers (t_pipe tr)). intros rs. clear.
        revert w. induction rs as [|r rs IH]; intros w; simpl.
        - repeat split; try done; [tauto|]. intros [?|Hin]; [done|by apply elem_of_nil in Hin].
        - destruct (IH (destroy (conn r) w)) as (H1 & H2 & H3 & H4).
          rewrite H1, H2, H3. repeat split; try done.
          + intros Hc. apply H4 in Hc as [Hc|Hc].
            * unfold destroy in Hc. fields. apply elem_of_union in Hc as [Hc|Hc]; [|by left].
              apply elem_of_singleton in Hc as ->. right. apply list_elem_of_here.
            * right. by apply list_elem_of_further.
          + intros Hc. apply H4. unfold destroy. fields. rewrite elem_of_union, elem_of_singleton.
            destruct Hc as [Hc|Hc]; [by left; right|].
            apply elem_of_cons in Hc as [->|Hc]; [by left; left|by right]. }
      destruct (IH w1) as (H1 & H2 & H3 & H4); [by rewrite Ht1|].
      rewrite H1, H2, H3, Hr1, Ht1, Hs1. repeat split; try done.
      * intros Hc. apply H4 in Hc as [Hc|[Hin Hc]].
        -- apply Hd1 in Hc as [Hc|Hc]; [by left|]. right. split; [apply list_elem_of_here|done].
        -- right. split; [by apply list_elem_of_further|done].
      * intros [Hc|[Hin Hc]]; apply H4; left; apply Hd1; [by left|by right].
Qed.

(** ** The outcome of a registration *)

Lemma runPipe_counters path pipe w :
  nextConn (node (runPipe path pipe w)) = nextConn (node w).
Proof.
  unfold runPipe. destruct (JS.includes _ _); [done|]. by rewrite runPipeBody_counters.
Qed.

Lemma establish_outcome (announce : Pipe → World → World) p up w :
  (∀ pipe x, server (announce pipe x) = server x ∧
             nextConn (node (announce pipe x)) = nextConn (node x) ∧
             nextTransfer (node (announce pipe x)) = nextTransfer (node x)) →
  pathToUnestablishedPipe (server w) !! p = Some up →
  registered_outcome p up w
    (match getPipeIfEstablished up w with
     | (Some pipe, x) => runPipe p pipe (announce pipe x)
     | (None, x) => x
     end).
Proof.
  intros Hann Hup.
  pose proof (getPipeIfEstablished_server up w) as Hsrv.
  pose proof (getPipeIfEstablished_node_counters up w) as Hcnt.
  pose proof (getPipeIfEstablished_counters up w) as [Hcc _].
  pose proof (getPipeIfEstablished_is_Some up w) as Hsome.
  pose proof (getPipeIfEstablished_pipe up w) as Hpipe.
  destruct (getPipeIfEstablished up w) as [[pipe|] x]; cbn [fst snd] in *.
  - destruct (Hann pipe x) as (Ha1 & Ha2 & Ha3).
    destruct (Hpipe pipe eq_refl) as (s & Hs & ->).
    unfold registered_outcome. rewrite decide_True by (apply Hsome; eauto).
    rewrite runPipe_counters, Ha2, Hcc. split; [done|].
    rewrite runPipe_server, Ha1, Hsrv. cbn [pathToEstablished pathToUnestablishedPipe].
    rewrite lookup_insert_eq, lookup_delete_eq. split; [done|]. split; [done|].
    split; [by rewrite runPipe_started, Ha3, Hcnt|].
    destruct (runPipe_frame p (mkPipe (reqRes s) (map reqRes (receivers up)))
                (announce (mkPipe (reqRes s) (map reqRes (receivers up))) x))
      as (tr & Htr & Hpath & Hpp & _).
    rewrite Ha3, Hcnt in Htr. eauto 10.
  - unfold registered_outcome. rewrite decide_False.
    + rewrite Hsrv, Hcc, Hcnt. done.
    + intros Hp. apply Hsome in Hp. by destruct Hp.
Qed.

Lemma registered_outcome_from p up w0 w w' :
  nextConn (node w0) = nextConn (node w) →
  pathToEstablished (server w0) = pathToEstablished (server w) →
  nextTransfer (node w0) = nextTransfer (node w) →
  registered_outcome p up w0 w' → registered_outcome p up w w'.
Proof.
  unfold registered_outcome. intros -> -> ->. done.
Qed.

Lemma handleSender_outcome rr p w up :
  sender_registration rr p w = Some up → registered_outcome p up w (handleSender rr p w).
Proof.
  unfold handleSender, sender_registration.
  destruct (decide (getNReceivers (req rr) ≤ 0)) as [Hn|Hn];
    [rewrite decide_False by lia; done|].
  destruct (decide (is_Some (pathToEstablished (server w) !! p))) as [Hest|Hest].
  { rewrite decide_False; [done|]. intros [_ E]. rewrite E in Hest. by destruct Hest. }
  apply eq_None_not_Some in Hest.
  rewrite decide_True by (split; [lia|done]).
  destruct (pathToUnestablishedPipe (server w) !! p) as [up0|] eqn:Hup.
  - destruct (sender up0) eqn:Hs; [rewrite decide_False by (by intros [? _]); done|].
    destruct (decide (getNReceivers (req rr) = nReceivers up0)) as [Hsame|Hsame];
      [|rewrite decide_False by (by intros [_ ?]); done].
    rewrite decide_True by done. intros [= <-]. fields.
    eapply registered_outcome_from;
      [| | |apply (establish_outcome (λ _, write (conn rr) ("Start sending!" +:+ JS.nl)))];
      [done|done|done|done|].
    fields. by rewrite lookup_insert_eq.
  - intros [= <-]. fields. unfold registered_outcome. fields.
    rewrite decide_False; [by rewrite lookup_insert_eq|].
    intros [_ Hl]. simpl in Hl. lia.
Qed.

Lemma handleReceiver_outcome rr p w up :
  receiver_registration rr p w = Some up → registered_outcome p up w (handleReceiver rr p w).
Proof.
  unfold handleReceiver, receiver_registration.
  destruct (decide (getNReceivers (req rr) ≤ 0)) as [Hn|Hn];
    [rewrite decide_False by lia; done|].
  destruct (decide (is_Some (pathToEstablished (server w) !! p))) as [Hest|Hest].
  { rewrite decide_False; [done|]. intros [_ E]. rewrite E in Hest. by destruct Hest. }
  apply eq_None_not_Some in Hest.
  rewrite decide_True by (split; [lia|done]).
  destruct (pathToUnestablishedPipe (server w) !! p) as [up0|] eqn:Hup.
  - destruct (decide (getNReceivers (req rr) = nReceivers up0)) as [Hsame|Hsame];
      [|rewrite decide_False by (by intros [? _]); done].
    destruct (decide (Z.of_nat (length (receivers up0)) < nReceivers up0)) as [Hroom|Hroom];
      [|rewrite decide_False by (by intros [_ ?]); done].
    rewrite decide_True by done. intros [= <-]. fields.
    eapply registered_outcome_from;
      [| | |apply (establish_outcome (λ pipe, write (conn (pipe_sender pipe))
             ("[INFO] Start sending with "
              +:+ JS.string_of_number (Z.of_nat (length (pipe_receivers pipe)))
              +:+ " receiver(s)!" +:+ JS.nl)))].
    + by destruct (sender up0).
    + by destruct (sender up0).
    + by destruct (sender up0).
    + done.
    + destruct (sender up0); fields; by rewrite lookup_insert_eq.
  - intros [= <-]. fields. unfold registered_outcome. fields.
    rewrite decide_False; [by rewrite lookup_insert_eq|].
    by intros [[? ?] _].
Qed.

Lemma arrivals_app c l k :
  arrivals c (l ++ k) = arrivals c l ++ arrivals (c + length l) k.
Proof.
  revert c. induction l as [|r l IH]; intros c; simpl.
  - by rewrite Nat.add_0_r.
  - rewrite IH. by rewrite Nat.add_succ_r.
Qed.

Lemma filter_snoc {A} (f : A → bool) (l : list A) (x : A) :
  List.filter f (l ++ [x]) = List.filter f l ++ (if f x then [x] else []).
Proof. by rewrite List.filter_app. Qed.

(** The record once one more request of the rendezvous is registered. *)
Lemma registration_next p N (A : list ReqRes) rr w :
  0 < N →
  reqPathOf (req rr) = p → getNReceivers (req rr) = N → role_of (req rr) ≠ NoRole →
  (length (List.filter is_sender (A ++ [rr])) ≤ 1)%nat →
  Z.of_nat (length (List.filter (λ x, negb (is_sender x)) (A ++ [rr]))) ≤ N →
  pathToEstablished (server w) !! p = None →
  pathToUnestablishedPipe (server w) !! p =
    match A with [] => None | _ => Some (record_of p N A) end →
  registration rr w = Some (record_of p N (A ++ [rr])).
Proof.
  intros HN Hp Hn Hrole Hs Hr Hest Hup.
  rewrite !filter_snoc, !length_app in Hs, Hr.
  unfold registration, record_of. rewrite !filter_snoc. rewrite Hp.
  unfold is_sender in *. destruct (role_of (req rr)) eqn:E; [| |done]; simpl in Hs, Hr.
  - unfold sender_registration. rewrite Hn, decide_True by done. rewrite Hup.
    assert (List.filter is_sender A = []) as Hnil.
    { destruct (List.filter is_sender A) eqn:F; [done|].
      unfold is_sender in F. rewrite F in Hs. simpl in Hs. lia. }
    unfold is_sender in Hnil. rewrite Hnil. cbn [negb app head fmap option_fmap option_map].
    rewrite app_nil_r. destruct A as [|a A]; [done|].
    unfold record_of. cbn [sender nReceivers receivers]. unfold is_sender. rewrite Hnil.
    cbn [head fmap option_fmap option_map]. by rewrite decide_True.
  - unfold receiver_registration. rewrite Hn, decide_True by done. rewrite Hup.
    cbn [negb]. rewrite app_nil_r, map_app. destruct A as [|a A]; [done|].
    unfold record_of. cbn [sender nReceivers receivers]. unfold is_sender.
    rewrite decide_True; [done|]. split; [done|]. rewrite length_map. lia.
Qed.

Lemma record_of_predicate p N (A : list ReqRes) :
  (length (List.filter is_sender A) ≤ 1)%nat →
  establishment_predicate (record_of p N A) ↔
  length (List.filter is_sender A) = 1%nat ∧
  Z.of_nat (length (List.filter (λ x, negb (is_sender x)) A)) = N.
Proof.
  intros Hs. unfold establishment_predicate, record_of. simpl. rewrite length_map.
  destruct (List.filter is_sender A) as [|s [|s' l]]; simpl in *.
  - split; [by intros [[? ?] _]|]. by intros [? _].
  - split; intros [_ ?]; split; eauto.
  - lia.
Qed.

(** ** Responses only grow *)

Lemma extends_refl r : extends r r.
Proof. split; [done|]. done. Qed.

Lemma extends_trans r1 r2 r3 : extends r1 r2 → extends r2 r3 → extends r1 r3.
Proof.
  intros [H1 H2] [H3 H4]. split; [by etransitivity|].
  intros Hf. specialize (H2 Hf).
  assert (finished r2 = true) as Hf2.
  { unfold content in H2. injection H2 as _ ->. done. }
  rewrite (H4 Hf2). done.
Qed.

Lemma extends_head r code hs : extends r (mkResponse code true hs (body r) (finished r)).
Proof. split; done. Qed.

Lemma extends_write r chunk :
  extends r (if finished r then r
             else mkResponse (statusCode r) (headWritten r) (resHeaders r)
                             (body r ++ [chunk]) false).
Proof.
  destruct (finished r) eqn:E; [apply extends_refl|].
  split; [by apply prefix_app_r|]. simpl. congruence.
Qed.

Lemma extends_end r chunk :
  extends r (if finished r then r
             else mkResponse (statusCode r) (headWritten r) (resHeaders r)
                             (body r ++ [chunk]) true).
Proof.
  destruct (finished r) eqn:E; [apply extends_refl|].
  split; [by apply prefix_app_r|]. simpl. congruence.
Qed.

Lemma responses_grow_refl R : responses_grow R R.
Proof. intros c. destruct (R !! c) as [r|] eqn:E; [|done]. exists r. split; [done|apply extends_refl]. Qed.

Lemma responses_grow_trans R1 R2 R3 :
  responses_grow R1 R2 → responses_grow R2 R3 → responses_grow R1 R3.
Proof.
  intros H12 H23 c. specialize (H12 c). specialize (H23 c).
  destruct (R1 !! c) as [r1|].
  - destruct H12 as (r2 & E2 & H12). rewrite E2 in H23. destruct H23 as (r3 & E3 & H23).
    exists r3. split; [done|by eapply extends_trans].
  - by rewrite H12 in H23.
Qed.

Lemma responses_grow_alter R (f : Response → Response) c :
  (∀ r, extends r (f r)) → responses_grow R (alter f c R).
Proof.
  intros Hf c'. destruct (decide (c = c')) as [->|Hne].
  - rewrite lookup_alter_eq. destruct (R !! c') as [r|]; simpl; [|done]. eauto.
  - rewrite lookup_alter_ne by done. destruct (R !! c') as [r|] eqn:E; [|done].
    exists r. split; [done|apply extends_refl].
Qed.

Lemma grows_refl w : grows w w.
Proof. split; [apply responses_grow_refl|done]. Qed.

Lemma grows_trans w1 w2 w3 : grows w1 w2 → grows w2 w3 → grows w1 w3.
Proof.
  intros [H1 H2] [H3 H4]. split; [by eapply responses_grow_trans|congruence].
Qed.

Lemma grows_same w w' :
  responses (node w') = responses (node w) → nextConn (node w') = nextConn (node w) →
  grows w w'.
Proof. intros E1 E2. split; [rewrite E1; apply responses_grow_refl|done]. Qed.

Lemma grows_writeHead c code hs w : grows w (writeHead c code hs w).
Proof. split; [|done]. apply responses_grow_alter. intros r. apply extends_head. Qed.

Lemma grows_write c chunk w : grows w (write c chunk w).
Proof. split; [|done]. apply responses_grow_alter. intros r. apply extends_write. Qed.

Lemma grows_end c chunk w : grows w (end_ c chunk w).
Proof. split; [|done]. apply responses_grow_alter. intros r. apply extends_end. Qed.

Lemma grows_foldl {A} (f : World → A → World) (l : list A) w :
  (∀ w x, grows w (f w x)) → grows w (foldl f w l).
Proof.
  intros Hf. revert w. induction l as [|x l IH]; intros w; simpl; [apply grows_refl|].
  eapply grows_trans; [apply Hf|apply IH].
Qed.

Lemma grows_set_unestablished f w : grows w (set_unestablished f w).
Proof. by apply grows_same. Qed.

Lemma grows_set_established f w : grows w (set_established f w).
Proof. by apply grows_same. Qed.

Lemma grows_set_transfers f w : grows w (set_transfers f w).
Proof. by apply grows_same. Qed.

Lemma grows_addListener e ev o h w : grows w (addListener e ev o h w).
Proof. by apply grows_same. Qed.

Lemma grows_destroy c w : grows w (destroy c w).
Proof. by apply grows_same. Qed.

(** Composing the elementary operations. *)
Ltac grow :=
  repeat first
    [ apply grows_refl
    | eapply grows_trans; [|apply grows_end]
    | eapply grows_trans; [|apply grows_write]
    | eapply grows_trans; [|apply grows_writeHead]
    | eapply grows_trans; [|apply grows_set_unestablished]
    | eapply grows_trans; [|apply grows_set_established]
    | eapply grows_trans; [|apply grows_set_transfers]
    | eapply grows_trans; [|apply grows_addListener]
    | eapply grows_trans; [|apply grows_destroy] ].

Lemma runPipeBody_grows t path pipe part w : grows w (runPipeBody t path pipe part w).
Proof.
  unfold runPipeBody. cbv zeta.
  do 3 (eapply grows_trans; [|apply grows_addListener]).
  eapply grows_trans; [|apply grows_foldl].
  - apply grows_set_transfers.
  - intros x r. unfold pipeTo. grow.
Qed.

Lemma runCloseListener_node ty rr p w : node (runCloseListener ty rr p w) = node w.
Proof.
  unfold runCloseListener.
  destruct (pathToUnestablishedPipe (server w) !! p) as [up|]; [|done].
  destruct ty.
  - destruct (sender up); [|done]. by case_decide.
  - destruct (list_find _ _) as [[idx x]|]; [|done]. by case_decide.
Qed.

Lemma closeReceiver_grows t r w : grows w (closeReceiver t r w).
Proof.
  unfold closeReceiver. destruct (transfers (node w) !! t) as [tr|]; [|apply grows_refl].
  unfold unpipe. case_decide; grow.
Qed.

Lemma runHandler_grows h arg w : grows w (runHandler h arg w).
Proof.
  destruct h; simpl.
  - apply grows_same; by rewrite runCloseListener_node.
  - unfold runResolvePart. destruct (transfers (node w) !! t); [|apply grows_refl].
    apply runPipeBody_grows.
  - apply closeReceiver_grows.
  - apply closeReceiver_grows.
  - unfold runSenderDataOnClose. destruct (transfers (node w) !! t); [|apply grows_refl].
    apply grows_foldl. intros x r. apply grows_destroy.
  - unfold runSenderDataOnEnd. destruct (transfers (node w) !! t); [|apply grows_refl]. grow.
  - unfold runSenderDataOnError. destruct (transfers (node w) !! t); [|apply grows_refl].
    grow.
Qed.

Lemma conns_of_participant up c :
  c ∈ conns_of up → ∃ ty x, (ty, x) ∈ participants up ∧ conn (reqRes x) = c.
Proof.
  unfold conns_of. intros [Hc|Hc]%elem_of_app.
  - destruct (sender up) as [s|] eqn:Hs; [|by apply elem_of_nil in Hc].
    apply list_elem_of_singleton in Hc as ->. exists sender_type, s.
    split; [|done]. apply participants_sender. by left.
  - apply list_elem_of_fmap in Hc as (x & -> & Hx). exists receiver_type, x.
    split; [|done]. apply participants_sender. by right.
Qed.

(** ** Who waits has been sent nothing but progress lines *)

Lemma conns_of_elem up c :
  c ∈ conns_of up ↔
  (∃ s, sender up = Some s ∧ conn (reqRes s) = c) ∨
  c ∈ map (λ x, conn (reqRes x)) (receivers up).
Proof.
  unfold conns_of. rewrite elem_of_app. split.
  - intros [H|H]; [left|by right].
    destruct (sender up) as [s|]; [|by apply elem_of_nil in H].
    apply list_elem_of_singleton in H. eauto.
  - intros [(s & -> & <-)|H]; [left; apply list_elem_of_here|by right].
Qed.

(** What the close-watcher leaves of a record. *)
Lemma runCloseListener_shrinks ty rr p w q up' :
  pathToUnestablishedPipe (server (runCloseListener ty rr p w)) !! q = Some up' →
  ∃ up, pathToUnestablishedPipe (server w) !! q = Some up ∧
        (∀ s, sender up' = Some s → sender up = Some s) ∧
        (∀ x, x ∈ receivers up' → x ∈ receivers up).
Proof.
  unfold runCloseListener.
  destruct (pathToUnestablishedPipe (server w) !! p) as [up|] eqn:Hup; [|eauto].
  assert (∀ up0, (∀ s, sender up0 = Some s → sender up = Some s) →
                 (∀ x, x ∈ receivers up0 → x ∈ receivers up) →
     pathToUnestablishedPipe
       (server (if decide (length (receivers up0) = 0%nat ∧ sender up0 = None)
                then set_unestablished (delete p) w
                else set_unestablished (<[p := up0]>) w)) !! q = Some up' →
     ∃ up, pathToUnestablishedPipe (server w) !! q = Some up ∧
           (∀ s, sender up' = Some s → sender up = Some s) ∧
           (∀ x, x ∈ receivers up' → x ∈ receivers up)) as Hcase.
  { intros up0 Hs Hr. case_decide; fields.
    - intros [_ Hq]%lookup_delete_Some. eauto.
    - intros [[<- <-]|[_ Hq]]%lookup_insert_Some; eauto. }
  destruct ty.
  - destruct (sender up) eqn:Hs; [|eauto]. apply Hcase; [done|done].
  - destruct (list_find _ (receivers up)) as [[idx y]|] eqn:Hf; [|eauto]. apply Hcase; [done|].
    simpl. intros x Hx. by eapply list_elem_of_delete_inv.
Qed.

Lemma shrinks_conns up up' c :
  (∀ s, sender up' = Some s → sender up = Some s) →
  (∀ x, x ∈ receivers up' → x ∈ receivers up) →
  c ∈ conns_of up' → c ∈ conns_of up.
Proof.
  intros Hs Hr. rewrite !conns_of_elem. intros [(s & E & <-)|H]; [left; eauto|right].
  apply list_elem_of_fmap in H as (x & -> & Hx).
  apply (list_elem_of_fmap_2 (λ x, conn (reqRes x))). by apply Hr.
Qed.

Lemma shrinks_response up up' c r :
  (∀ x, x ∈ receivers up' → x ∈ receivers up) →
  waiting_response up c r → waiting_response up' c r.
Proof.
  intros Hr (H1 & H2 & H3 & H4). repeat split; try done.
  intros H. apply H4. apply list_elem_of_fmap in H as (x & -> & Hx).
  apply (list_elem_of_fmap_2 (λ x, conn (reqRes x))). by apply Hr.
Qed.

Lemma runHandler_shrinks h arg w q up' :
  pathToUnestablishedPipe (server (runHandler h arg w)) !! q = Some up' →
  ∃ up, pathToUnestablishedPipe (server w) !! q = Some up ∧
        (∀ s, sender up' = Some s → sender up = Some s) ∧
        (∀ x, x ∈ receivers up' → x ∈ receivers up).
Proof.
  destruct h; try (rewrite runHandler_unestablished by done; eauto).
  apply runCloseListener_shrinks.
Qed.

Lemma foldl_destroy_node_parts (rs : list ReqRes) w :
  transfers (node (foldl (λ w receiver, destroy (conn receiver) w) w rs)) = transfers (node w) ∧
  responses (node (foldl (λ w receiver, destroy (conn receiver) w) w rs)) = responses (node w).
Proof.
  revert w. induction rs as [|r rs IH]; intros w; simpl; [done|].
  destruct (IH (destroy (conn r) w)) as [-> ->]. done.
Qed.

(** The handlers leave the pipes of the frames as they are and start no
    frame. *)
Lemma runHandler_frames h arg w t tr' :
  transfers (node (runHandler h arg w)) !! t = Some tr' →
  ∃ tr, transfers (node w) !! t = Some tr ∧ t_pipe tr = t_pipe tr'.
Proof.
  destruct h; simpl.
  - rewrite runCloseListener_node. eauto.
  - unfold runResolvePart. destruct (transfers (node w) !! t0) as [tr0|] eqn:Ht0; [|eauto].
    rewrite runPipeBody_transfers. destruct (decide (t = t0)) as [->|Hne].
    + rewrite lookup_insert_eq. intros [= <-]. eauto.
    + rewrite lookup_insert_ne by done. eauto.
  - unfold closeReceiver. destruct (transfers (node w) !! t0) as [tr0|] eqn:Ht0; [|eauto].
    assert (∀ f, alter (λ tr1, mkTransfer (t_path tr1) (t_pipe tr1) (t_senderData tr1)
                                 (closeCount tr1) (f tr1)) t0
               (<[t0 := mkTransfer (t_path tr0) (t_pipe tr0) (t_senderData tr0)
                          (closeCount tr0 + 1) (piped tr0)]> (transfers (node w))) !! t
             = Some tr' →
            ∃ tr, transfers (node w) !! t = Some tr ∧ t_pipe tr = t_pipe tr') as H.
    { intros f. rewrite alter_insert_eq. destruct (decide (t = t0)) as [->|Hne].
      - rewrite lookup_insert_eq. intros [= <-]. eauto.
      - rewrite lookup_insert_ne by done. eauto. }
    case_decide; fields; apply H.
  - unfold closeReceiver. destruct (transfers (node w) !! t0) as [tr0|] eqn:Ht0; [|eauto].
    assert (∀ f, alter (λ tr1, mkTransfer (t_path tr1) (t_pipe tr1) (t_senderData tr1)
                                 (closeCount tr1) (f tr1)) t0
               (<[t0 := mkTransfer (t_path tr0) (t_pipe tr0) (t_senderData tr0)
                          (closeCount tr0 + 1) (piped tr0)]> (transfers (node w))) !! t
             = Some tr' →
            ∃ tr, transfers (node w) !! t = Some tr ∧ t_pipe tr = t_pipe tr') as H.
    { intros f. rewrite alter_insert_eq. destruct (decide (t = t0)) as [->|Hne].
      - rewrite lookup_insert_eq. intros [= <-]. eauto.
      - rewrite lookup_insert_ne by done. eauto. }
    case_decide; fields; apply H.
  - unfold runSenderDataOnClose. destruct (transfers (node w) !! t0) as [tr0|]; [|eauto].
    destruct (foldl_destroy_node_parts (pipe_receivers (t_pipe tr0)) w) as [-> _]. eauto.
  - unfold runSenderDataOnEnd. destruct (transfers (node w) !! t0) as [tr0|]; eauto.
  - unfold runSenderDataOnError. destruct (transfers (node w) !! t0) as [tr0|]; eauto.
Qed.

(** The handlers write to the connections of their transfer only. *)
Lemma runHandler_responses_other h arg w c :
  ¬ promoted (transfers (node w)) c →
  responses (node (runHandler h arg w)) !! c = responses (node w) !! c.
Proof.
  intros Hnp.
  assert (∀ t tr, transfers (node w) !! t = Some tr →
            c ≠ conn (pipe_sender (t_pipe tr)) ∧ c ∉ map conn (pipe_receivers (t_pipe tr)))
    as Hout.
  { intros t tr Ht. split.
    - intros ->. apply Hnp. exists t, tr. split; [done|apply list_elem_of_here].
    - intros Hin. apply Hnp. exists t, tr. split; [done|by apply list_elem_of_further]. }
  destruct h; simpl.
  - by rewrite runCloseListener_node.
  - unfold runResolvePart. destruct (transfers (node w) !! t) as [tr|] eqn:Ht; [|done].
    destruct (Hout t tr Ht) as [_ Hr].
    rewrite runPipeBody_responses, foldl_alter_head. by rewrite decide_False.
  - unfold closeReceiver. destruct (transfers (node w) !! t) as [tr|] eqn:Ht; [|done].
    destruct (Hout t tr Ht) as [Hs _]. case_decide; fields; [|done].
    by rewrite lookup_alter_ne.
  - unfold closeReceiver. destruct (transfers (node w) !! t) as [tr|] eqn:Ht; [|done].
    destruct (Hout t tr Ht) as [Hs _]. case_decide; fields; [|done].
    by rewrite lookup_alter_ne.
  - unfold runSenderDataOnClose. destruct (transfers (node w) !! t) as [tr|]; [|done].
    by destruct (foldl_destroy_node_parts (pipe_receivers (t_pipe tr)) w) as [_ ->].
  - unfold runSenderDataOnEnd. destruct (transfers (node w) !! t) as [tr|] eqn:Ht; [|done].
    destruct (Hout t tr Ht) as [Hs _]. fields. by rewrite lookup_alter_ne.
  - unfold runSenderDataOnError. destruct (transfers (node w) !! t) as [tr|] eqn:Ht; [|done].
    destruct (Hout t tr Ht) as [Hs _]. fields. by rewrite lookup_alter_ne.
Qed.

Lemma runHandler_calm h arg w : calm w → calm (runHandler h arg w).
Proof.
  intros [HP HQ].
  assert (∀ c, waits (pathToUnestablishedPipe (server (runHandler h arg w))) c →
               waits (pathToUnestablishedPipe (server w)) c) as Hw.
  { intros c (q & up' & Hq & Hc).
    destruct (runHandler_shrinks h arg w q up' Hq) as (up & Hup & Hs & Hr).
    exists q, up. split; [done|]. by eapply shrinks_conns. }
  assert (∀ c, promoted (transfers (node (runHandler h arg w))) c →
               promoted (transfers (node w)) c) as Hp.
  { intros c (t & tr' & Ht & Hc).
    destruct (runHandler_frames h arg w t tr' Ht) as (tr & Htr & E).
    exists t, tr. split; [done|]. by rewrite E. }
  split.
  - intros c Hc. destruct (HP c (Hp c Hc)) as [Hlt Hnw].
    destruct (runHandler_grows h arg w) as [_ ->]. split; [done|]. intros H. by apply Hnw, Hw.
  - intros q up' c Hq Hc.
    destruct (runHandler_shrinks h arg w q up' Hq) as (up & Hup & Hs & Hr).
    assert (c ∈ conns_of up) as Hc0 by by eapply shrinks_conns.
    destruct (HQ q up c Hup Hc0) as (r & Hr0 & Hwr).
    exists r. split; [|by eapply shrinks_response].
    rewrite runHandler_responses_other; [done|].
    intros Hpr. destruct (HP c Hpr) as [_ Hnw]. apply Hnw. by exists q, up.
Qed.

Lemma emit_calm e ev arg w : calm w → calm (emit e ev arg w).
Proof.
  intros Hc. unfold emit.
  generalize (List.filter (fires e ev) (listeners (node w))). intros fired.
  assert (calm (set_listeners (List.filter (λ l, negb (fires e ev l && once l))) w)) as H0
    by exact Hc.
  set (w0 := set_listeners _ w) in *. clearbody w0. revert w0 H0.
  induction fired as [|l fired IH]; intros w0 H0; simpl; [done|].
  apply IH. by apply runHandler_calm.
Qed.

Lemma calm_same w w' :
  pathToUnestablishedPipe (server w') = pathToUnestablishedPipe (server w) →
  transfers (node w') = transfers (node w) →
  responses (node w') = responses (node w) →
  nextConn (node w') = nextConn (node w) →
  calm w → calm w'.
Proof. unfold calm. intros -> -> -> ->. done. Qed.

Lemma runPipe_transfers path pipe w :
  ∃ tr, transfers (node (runPipe path pipe w)) =
          <[nextTransfer (node w) := tr]> (transfers (node w)) ∧ t_pipe tr = pipe.
Proof.
  unfold runPipe. destruct (JS.includes _ _).
  - eexists. split; [reflexivity|done].
  - rewrite runPipeBody_transfers. eexists. split; [reflexivity|done].
Qed.

Lemma runPipe_responses_other path pipe w c :
  c ∉ map conn (pipe_receivers pipe) →
  responses (node (runPipe path pipe w)) !! c = responses (node w) !! c.
Proof.
  intros Hc. unfold runPipe. destruct (JS.includes _ _); [done|].
  rewrite runPipeBody_responses, foldl_alter_head. by rewrite decide_False.
Qed.

(** The end of both handlers: the record just written is established, or
    left as it is. *)
Lemma establish_calm (announce : Pipe → World → World) p up w :
  (∀ pipe x s, sender up = Some s → pipe_sender pipe = reqRes s →
             server (announce pipe x) = server x ∧
             transfers (node (announce pipe x)) = transfers (node x) ∧
             nextConn (node (announce pipe x)) = nextConn (node x) ∧
             nextTransfer (node (announce pipe x)) = nextTransfer (node x) ∧
             ∀ c, c ≠ conn (reqRes s) →
                  responses (node (announce pipe x)) !! c = responses (node x) !! c) →
  calm w → pathToUnestablishedPipe (server w) !! p = Some up →
  (∀ c, c ∈ conns_of up →
     (c < nextConn (node w))%nat ∧
     ∀ q uq, q ≠ p → pathToUnestablishedPipe (server w) !! q = Some uq → c ∉ conns_of uq) →
  calm (match getPipeIfEstablished up w with
        | (Some pipe, x) => runPipe p pipe (announce pipe x)
        | (None, x) => x
        end).
Proof.
  intros Hann Hcalm Hup Hapart.
  pose proof (getPipeIfEstablished_server up w) as Hsrv.
  pose proof (getPipeIfEstablished_responses up w) as Hresp.
  pose proof (getPipeIfEstablished_counters up w) as [Hnc Htr].
  pose proof (getPipeIfEstablished_node_counters up w) as Hnt.
  pose proof (getPipeIfEstablished_pipe up w) as Hpipe.
  destruct (getPipeIfEstablished up w) as [[pipe|] x]; cbn [fst snd] in *.
  2:{ eapply calm_same; [| | | |exact Hcalm]; [by rewrite Hsrv|done|done|done]. }
  destruct (Hpipe pipe eq_refl) as (s & Hs & ->).
  set (pipe := mkPipe (reqRes s) (map reqRes (receivers up))) in *.
  assert (pipe_conns pipe = conns_of up) as Hpc by by apply pipe_conns_record.
  destruct (Hann pipe x s Hs eq_refl) as (Ha1 & Ha2 & Ha3 & Ha4 & Ha5).
  destruct (runPipe_transfers p pipe (announce pipe x)) as (tr & HT & Htp).
  destruct Hcalm as [HP HQ].
  assert (∀ c, c ∉ conns_of up →
            responses (node (runPipe p pipe (announce pipe x))) !! c = responses (node w) !! c)
    as HR.
  { intros c Hc. rewrite <- Hpc in Hc. unfold pipe_conns in Hc.
    apply not_elem_of_cons in Hc as [Hc1 Hc2].
    rewrite runPipe_responses_other by done. rewrite Ha5 by done. by rewrite Hresp. }
  split.
  - intros c (t & tr' & Ht & Hc). rewrite HT, Ha4, Hnt in Ht.
    rewrite runPipe_counters, Ha3, Hnc. rewrite runPipe_server, Ha1, Hsrv.
    cbn [pathToUnestablishedPipe].
    apply lookup_insert_Some in Ht as [[_ <-]|[_ Ht]].
    + rewrite Htp, Hpc in Hc. destruct (Hapart c Hc) as [Hlt Hq]. split; [done|].
      intros (q & uq & [Hne Huq]%lookup_delete_Some & Hin). by apply (Hq q uq).
    + rewrite Ha2, Htr in Ht. destruct (HP c) as [Hlt Hnw]; [by exists t, tr'|].
      split; [done|]. intros (q & uq & [Hne Huq]%lookup_delete_Some & Hin).
      apply Hnw. by exists q, uq.
  - intros q uq c. rewrite runPipe_server, Ha1, Hsrv. cbn [pathToUnestablishedPipe].
    intros [Hne Huq]%lookup_delete_Some Hc.
    rewrite HR; [by apply (HQ q uq)|].
    intros Hin. destruct (Hapart c Hin) as [_ Hq]. by apply (Hq q uq).
Qed.

(** A request is registered in the record of its path. *)
Lemma registered_calm p up' w w3 c0 :
  calm w → well_formed w →
  (c0 < nextConn (node w))%nat →
  ¬ waits (pathToUnestablishedPipe (server w)) c0 →
  ¬ promoted (transfers (node w)) c0 →
  pathToUnestablishedPipe (server w3) = <[p := up']> (pathToUnestablishedPipe (server w)) →
  transfers (node w3) = transfers (node w) →
  nextConn (node w3) = nextConn (node w) →
  (∀ c, c ∈ conns_of up' →
     c = c0 ∨ ∃ up, pathToUnestablishedPipe (server w) !! p = Some up ∧ c ∈ conns_of up) →
  (∀ c, c ∈ conns_of up' → ∃ r, responses (node w3) !! c = Some r ∧ waiting_response up' c r) →
  (∀ c, c ∉ conns_of up' → responses (node w3) !! c = responses (node w) !! c) →
  calm w3 ∧
  ∀ c, c ∈ conns_of up' →
    (c < nextConn (node w3))%nat ∧
    ∀ q uq, q ≠ p → pathToUnestablishedPipe (server w3) !! q = Some uq → c ∉ conns_of uq.
Proof.
  intros [HP HQ] Hwf Hlt Hnw Hnp HU HT Hnc Hfrom Hresp Hother.
  assert (∀ c q uq, c ∈ conns_of up' → q ≠ p →
            pathToUnestablishedPipe (server w) !! q = Some uq → c ∉ conns_of uq) as Hapart.
  { intros c q uq Hc Hne Huq Hin. destruct (Hfrom c Hc) as [->|(up & Hup & Hcu)].
    - apply Hnw. by exists q, uq.
    - destruct (record_group_facts w p up Hwf Hup) as [_ Hg].
      destruct (Hg c Hcu) as (_ & _ & Hd).
      apply (Hd (inl q) (conns_of uq)); [|done]. simpl.
      by rewrite lookup_delete_ne, Huq. }
  split; [split|].
  - intros c Hc. rewrite HT in Hc. rewrite Hnc, HU. destruct (HP c Hc) as [Hl Hn].
    split; [done|]. intros (q & uq & Hq & Hin).
    apply lookup_insert_Some in Hq as [[<- <-]|[Hne Hq]].
    + destruct (Hfrom c Hin) as [->|(up & Hup & Hcu)]; [done|]. apply Hn. by exists p, up.
    + apply Hn. by exists q, uq.
  - intros q uq c. rewrite HU. intros [[<- <-]|[Hne Hq]]%lookup_insert_Some Hc.
    + by apply Hresp.
    + rewrite Hother; [by apply (HQ q uq)|]. intros Hin. by apply (Hapart c q uq).
  - intros c Hc. rewrite Hnc. split.
    + destruct (Hfrom c Hc) as [->|(up & Hup & Hcu)]; [done|].
      destruct (record_group_facts w p up Hwf Hup) as [_ Hg]. by destruct (Hg c Hcu).
    + intros q uq Hne. rewrite HU, lookup_insert_ne by done. by apply Hapart.
Qed.

Lemma calm_other w w' c0 :
  calm w →
  pathToUnestablishedPipe (server w') = pathToUnestablishedPipe (server w) →
  transfers (node w') = transfers (node w) →
  nextConn (node w') = nextConn (node w) →
  ¬ waits (pathToUnestablishedPipe (server w)) c0 →
  (∀ c, c ≠ c0 → responses (node w') !! c = responses (node w) !! c) →
  calm w'.
Proof.
  intros [HP HQ] HU HT Hnc Hnw HR. split.
  - rewrite HT, Hnc, HU. exact HP.
  - rewrite HU. intros q uq c Hq Hc. rewrite HR; [by apply (HQ q uq)|].
    intros ->. apply Hnw. by exists q, uq.
Qed.

Lemma refused_calm c0 code hs msg w :
  calm w → ¬ waits (pathToUnestablishedPipe (server w)) c0 →
  calm (end_ c0 msg (writeHead c0 code hs w)).
Proof.
  intros Hc Hnw. apply (calm_other w _ c0 Hc); try done.
  intros c Hne. fields. by rewrite !lookup_alter_ne.
Qed.

Lemma handleSender_calm rr p w :
  calm w → well_formed w →
  (conn rr < nextConn (node w))%nat →
  ¬ waits (pathToUnestablishedPipe (server w)) (conn rr) →
  ¬ promoted (transfers (node w)) (conn rr) →
  responses (node w) !! conn rr = Some newResponse →
  calm (handleSender rr p w).
Proof.
  intros Hcalm Hwf Hlt Hnw Hnp Hnew. unfold handleSender.
  case_decide; [by apply refused_calm|]. case_decide; [by apply refused_calm|].
  destruct (pathToUnestablishedPipe (server w) !! p) as [up|] eqn:Hup.
  - destruct (sender up) eqn:Hs; [by apply refused_calm|].
    case_decide; [|by apply refused_calm]. fields.
    assert (∀ c, c ∈ map (λ x, conn (reqRes x)) (receivers up) → c ≠ conn rr) as Hrc.
    { intros c Hc ->. apply Hnw. exists p, up. split; [done|]. apply conns_of_elem. by right. }
    match goal with |- context [getPipeIfEstablished ?u ?x] =>
      destruct (registered_calm p u w x (conn rr) Hcalm Hwf Hlt Hnw Hnp) as [Hc3 Ha3] end;
      try done.
    + intros c [(s & [= <-] & <-)|Hc]%conns_of_elem; [by left|]. right. exists up.
      split; [done|]. apply conns_of_elem. by right.
    + intros c [(s & [= <-] & <-)|Hc]%conns_of_elem; fields.
      * rewrite !lookup_alter_eq, Hnew. simpl. eexists. split; [done|].
        repeat split; try done. intros Hin. by destruct (Hrc _ Hin).
      * rewrite !lookup_alter_ne by (intros E; by apply (Hrc c Hc)).
        destruct Hcalm as [_ HQ]. destruct (HQ p up c Hup) as (r & Hr & Hwr).
        { apply conns_of_elem. by right. }
        exists r. split; [done|]. by eapply shrinks_response.
    + intros c Hc. fields.
      assert (conn rr ≠ c) as Hne.
      { intros E. apply Hc, conns_of_elem. left. eexists. split; [done|]. done. }
      by rewrite !lookup_alter_ne.
    + apply (establish_calm (λ _, write (conn rr) ("Start sending!" +:+ JS.nl))).
      * intros pipe x s [= <-] _. repeat split.
        intros c Hne. fields. by rewrite lookup_alter_ne.
      * exact Hc3.
      * fields. by rewrite lookup_insert_eq.
      * exact Ha3.
  - fields.
    match goal with |- calm ?x =>
      destruct (registered_calm p
                  (mkUnestablished (Some (mkRRU rr (closeListener sender_type rr p))) []
                                   (getNReceivers (req rr)))
                  w x (conn rr) Hcalm Hwf Hlt Hnw Hnp) as [Hc3 _] end; try done.
    + intros c [(s & [= <-] & <-)|Hc]%conns_of_elem; [by left|]. by apply elem_of_nil in Hc.
    + intros c [(s & [= <-] & <-)|Hc]%conns_of_elem; [|by apply elem_of_nil in Hc]. fields.
      rewrite lookup_alter_eq, Hnew. simpl. eexists. split; [done|].
      repeat split; try done. intros Hin. by apply elem_of_nil in Hin.
    + intros c Hc. fields.
      assert (conn rr ≠ c) as Hne.
      { intros E. apply Hc, conns_of_elem. left. eexists. split; [done|]. done. }
      by rewrite lookup_alter_ne.
Qed.

Lemma handleReceiver_calm rr p w :
  calm w → well_formed w →
  (conn rr < nextConn (node w))%nat →
  ¬ waits (pathToUnestablishedPipe (server w)) (conn rr) →
  ¬ promoted (transfers (node w)) (conn rr) →
  responses (node w) !! conn rr = Some newResponse →
  calm (handleReceiver rr p w).
Proof.
  intros Hcalm Hwf Hlt Hnw Hnp Hnew. unfold handleReceiver.
  case_decide; [by apply refused_calm|]. case_decide; [by apply refused_calm|].
  destruct (pathToUnestablishedPipe (server w) !! p) as [up|] eqn:Hup.
  - case_decide; [|by apply refused_calm]. case_decide; [|by apply refused_calm]. fields.
    destruct (record_group_facts w p up Hwf Hup) as [Hnd _].
    assert (∀ c, c ∈ conns_of up → c ≠ conn rr) as Hrc.
    { intros c Hc ->. apply Hnw. by exists p, up. }
    set (up' := mkUnestablished (sender up)
                  (receivers up ++ [mkRRU rr (closeListener receiver_type rr p)])
                  (nReceivers up)).
    assert (∀ c, c ∈ conns_of up' ↔ c ∈ conns_of up ∨ c = conn rr) as Hconns.
    { intros c. unfold conns_of, up'. simpl. rewrite map_app, !elem_of_app. simpl.
      rewrite list_elem_of_singleton. tauto. }
    assert (∀ c, c ∈ map (λ x, conn (reqRes x)) (receivers up') ↔
                 c ∈ map (λ x, conn (reqRes x)) (receivers up) ∨ c = conn rr) as Hrecv.
    { intros c. unfold up'. simpl. rewrite map_app, elem_of_app. simpl.
      by rewrite list_elem_of_singleton. }
    assert (∀ s, sender up = Some s →
              conn (reqRes s) ∉ map (λ x, conn (reqRes x)) (receivers up)) as Hsr.
    { intros s Hs. unfold conns_of in Hnd. rewrite Hs in Hnd. simpl in Hnd.
      by apply NoDup_cons in Hnd as [? _]. }
    match goal with |- context [getPipeIfEstablished ?u ?x] =>
      destruct (registered_calm p u w x (conn rr) Hcalm Hwf Hlt Hnw Hnp) as [Hc3 Ha3] end.
    + by destruct (sender up).
    + by destruct (sender up).
    + by destruct (sender up).
    + fold up'. intros c [Hc| ->]%Hconns; [|by left]. right. eauto.
    + fold up'. destruct Hcalm as [_ HQ]. intros c [Hc| ->]%Hconns.
      * destruct (HQ p up c Hup Hc) as (r & Hr & Hf & Hh & Hst & Hrn).
        apply conns_of_elem in Hc as Hcase.
        destruct (sender up) as [s|] eqn:Hs; fields.
        -- destruct (decide (c = conn (reqRes s))) as [->|Hne].
           ++ rewrite lookup_alter_eq, Hr. simpl. rewrite Hf. eexists. split; [done|].
              repeat split; try done.
              intros [Hin|E]%Hrecv; [by destruct (Hsr s eq_refl)|].
              destruct (Hrc _ Hc). done.
           ++ rewrite lookup_alter_ne by done. exists r. split; [done|].
              repeat split; try done. intros _. apply Hrn.
              destruct Hcase as [(s' & [= <-] & E)|Hin]; [congruence|done].
        -- exists r. split; [done|]. repeat split; try done. intros _. apply Hrn.
           destruct Hcase as [(s' & [=] & E)|Hin]. done.
      * assert (responses (node w) !! conn rr = Some newResponse) as Hn by done.
        destruct (sender up) as [s|] eqn:Hs; fields.
        -- rewrite lookup_alter_ne.
           ++ exists newResponse. split; [done|]. by repeat split.
           ++ intros E. apply (Hrc (conn rr)); [|done]. apply conns_of_elem. left.
              exists s. by rewrite Hs.
        -- exists newResponse. split; [done|]. by repeat split.
    + fold up'. intros c Hc. destruct (sender up) as [s|] eqn:Hs; fields; [|done].
      rewrite lookup_alter_ne; [done|]. intros <-. apply Hc, Hconns. left.
      apply conns_of_elem. left. exists s. by rewrite Hs.
    + apply (establish_calm (λ pipe, write (conn (pipe_sender pipe))
               ("[INFO] Start sending with "
                +:+ JS.string_of_number (Z.of_nat (length (pipe_receivers pipe)))
                +:+ " receiver(s)!" +:+ JS.nl))).
      * intros pipe x s Hs ->. repeat split.
        intros c Hne. fields. by rewrite lookup_alter_ne.
      * exact Hc3.
      * destruct (sender up); fields; by rewrite lookup_insert_eq.
      * exact Ha3.
  - fields.
    match goal with |- calm ?x =>
      destruct (registered_calm p
                  (mkUnestablished None [mkRRU rr (closeListener receiver_type rr p)]
                                   (getNReceivers (req rr)))
                  w x (conn rr) Hcalm Hwf Hlt Hnw Hnp) as [Hc3 _] end; try done.
    + intros c [(s & [=] & _)|Hc]%conns_of_elem. simpl in Hc.
      apply list_elem_of_singleton in Hc. by left.
    + intros c [(s & [=] & _)|Hc]%conns_of_elem. simpl in Hc.
      apply list_elem_of_singleton in Hc as ->. fields.
      exists newResponse. split; [done|]. by repeat split.
Qed.

Lemma calm_init : calm init.
Proof.
  split.
  - intros c (t & tr & Ht & _). simpl in Ht. by rewrite lookup_empty in Ht.
  - intros p up c. simpl. by rewrite lookup_empty.
Qed.

(** ** The behaviour of the server, request by request and event by event *)

Section Behaviour.

Context (VERSION indexPage : string).

Lemma step_arrive useHttps r w :
  step VERSION indexPage w (Arrive useHttps r) =
  generateHandler VERSION indexPage useHttps (mkReqRes (nextConn (node w)) r) (accept r w).2.
Proof. reflexivity. Qed.

Lemma role_of_sender r :
  method r = "POST" ∨ method r = "PUT" → reqPathOf r ∉ RESERVED_PATHS →
  role_of r = SenderRole.
Proof. intros Hm Hp. unfold role_of. rewrite decide_True by done. by rewrite decide_False. Qed.

Lemma role_of_receiver r :
  method r = "GET" → reqPathOf r ∉ RESERVED_PATHS → role_of r = ReceiverRole.
Proof.
  intros Hm Hp. unfold role_of.
  rewrite decide_False; [|rewrite Hm; by intros [?|?]].
  rewrite decide_True by done. by rewrite decide_False.
Qed.

Lemma refused_frame r msg w :
  server (refused r msg w) = server w ∧
  responses (node (refused r msg w)) =
    <[nextConn (node w) := mkResponse 400 true [] [msg] true]> (responses (node w)) ∧
  listeners (node (refused r msg w)) = listeners (node w) ∧
  transfers (node (refused r msg w)) = transfers (node w) ∧
  destroyed (node (refused r msg w)) = destroyed (node w).
Proof.
  unfold refused, accept. fields. repeat split.
  by rewrite !alter_insert_eq.
Qed.

(** X5.  A POST or PUT with a receiver count [N] of at least 1, on a path
    that is not reserved, not established and without a record, creates
    the record of the path with this sender, no receiver and [N]; it
    writes [[INFO] Waiting for <N> receiver(s)...] to the response, which
    stays open with the default status, installs the close-watcher of the
    sender once on the request, and changes nothing else. *)
Theorem X5_sender_opens_record useHttps r w :
  method r = "POST" ∨ method r = "PUT" →
  reqPathOf r ∉ RESERVED_PATHS →
  0 < getNReceivers r →
  pathToEstablished (server w) !! reqPathOf r = None →
  pathToUnestablishedPipe (server w) !! reqPathOf r = None →
  let rr := mkReqRes (nextConn (node w)) r in
  let w' := step VERSION indexPage w (Arrive useHttps r) in
  server w' =
    mkServer (pathToEstablished (server w))
      (<[reqPathOf r :=
           mkUnestablished (Some (mkRRU rr (closeListener sender_type rr (reqPathOf r)))) []
                           (getNReceivers r)]> (pathToUnestablishedPipe (server w))) ∧
  responses (node w') =
    <[nextConn (node w) :=
        mkResponse 200 false []
          ["[INFO] Waiting for " +:+ JS.string_of_number (getNReceivers r)
           +:+ " receiver(s)..." +:+ JS.nl] false]> (responses (node w)) ∧
  listeners (node w') =
    listeners (node w) ++
    [mkListener (OnReq (nextConn (node w))) ev_close true
       (closeListener sender_type rr (reqPathOf r))] ∧
  transfers (node w') = transfers (node w) ∧
  destroyed (node w') = destroyed (node w).
Proof.
  intros Hm Hres Hn Hest Hup rr w'. unfold w'.
  rewrite step_arrive, generateHandler_sender by by apply role_of_sender.
  unfold handleSender, accept. fields.
  rewrite decide_False by lia.
  rewrite decide_False by (rewrite Hest; by intros [? ?]).
  rewrite Hup. fields. repeat split.
  by rewrite alter_insert_eq.
Qed.

(** X6.  A GET with a receiver count [N] of at least 1, on a path that is not
    reserved, not established and without a record, creates the record of
    the path with no sender, this one receiver and [N]; nothing is written
    to the response, the close-watcher of the receiver is installed once
    on the request, and nothing else changes. *)
Theorem X6_receiver_opens_record useHttps r w :
  method r = "GET" →
  reqPathOf r ∉ RESERVED_PATHS →
  0 < getNReceivers r →
  pathToEstablished (server w) !! reqPathOf r = None →
  pathToUnestablishedPipe (server w) !! reqPathOf r = None →
  let rr := mkReqRes (nextConn (node w)) r in
  let w' := step VERSION indexPage w (Arrive useHttps r) in
  server w' =
    mkServer (pathToEstablished (server w))
      (<[reqPathOf r :=
           mkUnestablished None [mkRRU rr (closeListener receiver_type rr (reqPathOf r))]
                           (getNReceivers r)]> (pathToUnestablishedPipe (server w))) ∧
  responses (node w') = <[nextConn (node w) := newResponse]> (responses (node w)) ∧
  listeners (node w') =
    listeners (node w) ++
    [mkListener (OnReq (nextConn (node w))) ev_close true
       (closeListener receiver_type rr (reqPathOf r))] ∧
  transfers (node w') = transfers (node w) ∧
  destroyed (node w') = destroyed (node w).
Proof.
  intros Hm Hres Hn Hest Hup rr w'. unfold w'.
  rewrite step_arrive, generateHandler_receiver by by apply role_of_receiver.
  unfold handleReceiver, accept. fields.
  rewrite decide_False by lia.
  rewrite decide_False by (rewrite Hest; by intros [? ?]).
  rewrite Hup. fields. done.
Qed.

(** X7.  In a reachable world, a POST or PUT with a receiver count of at
    least 1 on a path whose record already has a sender is answered with
    status 400 and [[ERROR] Another sender has been registered on
    '<path>'.], whether or not its receiver count is the one of the record; apart
    from this response nothing changes. *)
Theorem X7_duplicate_sender_refused useHttps r w up s :
  reachable VERSION indexPage w →
  method r = "POST" ∨ method r = "PUT" →
  reqPathOf r ∉ RESERVED_PATHS →
  0 < getNReceivers r →
  pathToUnestablishedPipe (server w) !! reqPathOf r = Some up →
  sender up = Some s →
  step VERSION indexPage w (Arrive useHttps r) =
    refused r ("[ERROR] Another sender has been registered on '" +:+ reqPathOf r +:+ "'."
               +:+ JS.nl) w.
Proof.
  intros Hr Hm Hres Hn Hup Hs.
  pose proof (reachable_exclusive VERSION indexPage w Hr (reqPathOf r)) as Hex.
  rewrite Hup in Hex. specialize (Hex (ltac:(eauto))).
  rewrite step_arrive, generateHandler_sender by by apply role_of_sender.
  unfold handleSender, refused. cbn [conn req]. rewrite accept_server.
  rewrite decide_False by lia.
  rewrite decide_False by (rewrite Hex; by intros [? ?]).
  by rewrite Hup, Hs.
Qed.

(** X8.  In a reachable world, a request routed to a sender or a receiver
    whose receiver count [N] is at least 1 and differs from the count [M]
    of the record of its path (for a sender: a record without sender) is
    answered with status 400 and [Error: The number of receivers should
    be <M> but <N>.]; apart from this response nothing changes. *)
Theorem X8_count_mismatch_refused useHttps r w up :
  reachable VERSION indexPage w →
  role_of r ≠ NoRole →
  0 < getNReceivers r →
  pathToUnestablishedPipe (server w) !! reqPathOf r = Some up →
  (role_of r = SenderRole → sender up = None) →
  nReceivers up ≠ getNReceivers r →
  step VERSION indexPage w (Arrive useHttps r) =
    refused r ("Error: The number of receivers should be "
               +:+ JS.string_of_number (nReceivers up) +:+ " but "
               +:+ JS.string_of_number (getNReceivers r) +:+ "." +:+ JS.nl) w.
Proof.
  intros Hr Hrole Hn Hup Hs Hne.
  pose proof (reachable_exclusive VERSION indexPage w Hr (reqPathOf r)) as Hex.
  rewrite Hup in Hex. specialize (Hex (ltac:(eauto))).
  rewrite step_arrive. destruct (role_of r) eqn:E; [| |done].
  - rewrite generateHandler_sender by done.
    unfold handleSender, refused. cbn [conn req]. rewrite accept_server.
    rewrite decide_False by lia.
    rewrite decide_False by (rewrite Hex; by intros [? ?]).
    rewrite Hup, Hs by done. by rewrite decide_False.
  - rewrite generateHandler_receiver by done.
    unfold handleReceiver, refused. cbn [conn req]. rewrite accept_server.
    rewrite decide_False by lia.
    rewrite decide_False by (rewrite Hex; by intros [? ?]).
    rewrite Hup. by rewrite decide_False.
Qed.

(** X9.  In a reachable world, a GET with the receiver count of the record of
    its path, when the record already holds that many receivers, is
    answered with status 400 and [Error: The number of receivers has
    reached limits.]; apart from this response nothing changes. *)
Theorem X9_receivers_full_refused useHttps r w up :
  reachable VERSION indexPage w →
  method r = "GET" →
  reqPathOf r ∉ RESERVED_PATHS →
  pathToUnestablishedPipe (server w) !! reqPathOf r = Some up →
  nReceivers up = getNReceivers r →
  Z.of_nat (length (receivers up)) = nReceivers up →
  step VERSION indexPage w (Arrive useHttps r) =
    refused r ("Error: The number of receivers has reached limits." +:+ JS.nl) w.
Proof.
  intros Hr Hm Hres Hup Hsame Hfull.
  destruct (reachable_records_ok VERSION indexPage w Hr _ _ Hup) as [Hle Hpos].
  pose proof (reachable_exclusive VERSION indexPage w Hr (reqPathOf r)) as Hex.
  rewrite Hup in Hex. specialize (Hex (ltac:(eauto))).
  rewrite step_arrive, generateHandler_receiver by by apply role_of_receiver.
  unfold handleReceiver, refused. cbn [conn req]. rewrite accept_server.
  rewrite decide_False by lia.
  rewrite decide_False by (rewrite Hex; by intros [? ?]).
  rewrite Hup. rewrite decide_True by done. by rewrite decide_False by lia.
Qed.

Lemma waiting_sender_older w p up s :
  well_formed w → pathToUnestablishedPipe (server w) !! p = Some up →
  sender up = Some s → (conn (reqRes s) < nextConn (node w))%nat.
Proof.
  intros Hwf Hup Hs.
  assert (waiting (pathToUnestablishedPipe (server w)) (transfers (node w)) (inl p)
            = Some (conns_of up)) as Hw by (simpl; by rewrite Hup).
  destruct (wf_group _ _ _ _ _ Hwf _ _ Hw) as [_ Hc].
  destruct (Hc (conn (reqRes s))) as [Hlt _]; [|done].
  unfold conns_of. rewrite Hs. apply elem_of_app. left. apply list_elem_of_here.
Qed.

(** X10.  In a reachable world, a GET that joins the record of its path (same
    receiver count, room left): the waiting sender, if there is one and
    its response is open, is sent [[INFO] A receiver was connected.] and
    then, exactly when the receiver completes the record,
    [[INFO] Start sending with <N> receiver(s)!]; without a sender the
    responses change only by the new, empty one of the receiver; and unless the
    transfer starts, nothing is written to the response of the receiver. *)
Theorem X10_receiver_joins_record useHttps r w up :
  reachable VERSION indexPage w →
  method r = "GET" →
  reqPathOf r ∉ RESERVED_PATHS →
  pathToUnestablishedPipe (server w) !! reqPathOf r = Some up →
  nReceivers up = getNReceivers r →
  Z.of_nat (length (receivers up)) < nReceivers up →
  let w' := step VERSION indexPage w (Arrive useHttps r) in
  (∀ s x, sender up = Some s →
     responses (node w) !! conn (reqRes s) = Some x → finished x = false →
     content <$> responses (node w') !! conn (reqRes s) =
       Some (body x
             ++ ["[INFO] A receiver was connected." +:+ JS.nl]
             ++ (if decide (Z.of_nat (length (receivers up)) + 1 = nReceivers up)
                 then ["[INFO] Start sending with "
                       +:+ JS.string_of_number (Z.of_nat (length (receivers up)) + 1)
                       +:+ " receiver(s)!" +:+ JS.nl]
                 else []), false)) ∧
  (sender up = None →
     responses (node w') = <[nextConn (node w) := newResponse]> (responses (node w))) ∧
  (¬ (is_Some (sender up) ∧ Z.of_nat (length (receivers up)) + 1 = nReceivers up) →
     responses (node w') !! nextConn (node w) = Some newResponse).
Proof.
  intros Hr Hm Hres Hup Hsame Hroom w'. unfold w'. clear w'.
  destruct (reachable_records_ok VERSION indexPage w Hr _ _ Hup) as [Hle Hpos].
  pose proof (reachable_exclusive VERSION indexPage w Hr (reqPathOf r)) as Hex.
  rewrite Hup in Hex. specialize (Hex (ltac:(eauto))).
  pose proof (reachable_wf VERSION indexPage w Hr) as Hwf.
  rewrite step_arrive, generateHandler_receiver by by apply role_of_receiver.
  unfold handleReceiver, accept. fields.
  rewrite decide_False by lia.
  rewrite decide_False by (rewrite Hex; by intros [? ?]).
  rewrite Hup. rewrite decide_True by done. rewrite decide_True by done. fields.
  destruct (sender up) as [s|] eqn:Hs.
  - pose proof (waiting_sender_older w _ up s Hwf Hup Hs) as Hlt.
    match goal with |- context [getPipeIfEstablished ?u ?x] =>
      pose proof (getPipeIfEstablished_responses u x) as Hresp;
      pose proof (getPipeIfEstablished_is_Some u x) as Hsome;
      pose proof (getPipeIfEstablished_pipe u x) as Hpipe;
      destruct (getPipeIfEstablished u x) as [[pipe|] w1] end; fields.
    + assert (Z.of_nat (length (receivers up)) + 1 = nReceivers up) as HK.
      { destruct Hsome as [Hsome _]. destruct Hsome as [_ Hl]; [eauto|]. simpl in Hl.
        rewrite length_app in Hl. simpl in Hl. lia. }
      destruct (Hpipe pipe eq_refl) as (s' & [= <-] & ->). fields.
      split; [|split; [done|]].
      * intros s' x [= <-] Hx Hf. rewrite decide_True by done.
        rewrite runPipe_content. fields. rewrite Hresp. fields.
        rewrite !lookup_alter_eq, lookup_insert_ne, Hx by lia. simpl.
        rewrite Hf. simpl. rewrite length_map, length_app. simpl.
        replace (Z.of_nat (length (receivers up) + 1)) with (Z.of_nat (length (receivers up)) + 1)
          by lia.
        by rewrite <- app_assoc.
      * intros Hnot. destruct Hnot. split; [eauto|done].
    + assert (Z.of_nat (length (receivers up)) + 1 ≠ nReceivers up) as HK.
      { intros E. destruct Hsome as [_ Hsome]. destruct Hsome; [|done].
        split; simpl; [eauto|]. rewrite length_app. simpl. lia. }
      rewrite Hresp. fields. split; [|split; [done|]].
      * intros s' x [= <-] Hx Hf. rewrite decide_False by done.
        rewrite !lookup_alter_eq, lookup_insert_ne, Hx by lia. simpl.
        rewrite Hf. done.
      * intros _. rewrite lookup_alter_ne, lookup_insert_eq by lia. done.
  - unfold getPipeIfEstablished. fields. split; [done|]. split; [done|].
    intros _. by rewrite lookup_insert_eq.
Qed.

(** X11.  A request that is not registered (a reserved path, an unsupported
    method, or a refusal by [handleSender] or [handleReceiver]) changes
    nothing but its own response: the step is the end of that response
    with one chunk, after [writeHead(400)] or without it. *)
Theorem X11_unregistered_request_only_answered useHttps r w :
  registration (mkReqRes (nextConn (node w)) r) w = None →
  ∃ msg, step VERSION indexPage w (Arrive useHttps r) = refused r msg w ∨
         step VERSION indexPage w (Arrive useHttps r) =
           end_ (nextConn (node w)) msg (accept r w).2.
Proof.
  unfold registration. cbn [req]. rewrite step_arrive. intros Hreg.
  destruct (role_of r) eqn:Hrole.
  - rewrite generateHandler_sender by done.
    unfold sender_registration in Hreg. cbn [req] in Hreg.
    unfold handleSender, refused. cbn [conn req]. rewrite accept_server.
    destruct (decide (getNReceivers r ≤ 0)) as [Hn|Hn]; [eauto|].
    destruct (decide (is_Some (pathToEstablished (server w) !! reqPathOf r))) as [Hest|Hest];
      [eauto|].
    apply eq_None_not_Some in Hest. rewrite decide_True in Hreg by (split; [lia|done]).
    destruct (pathToUnestablishedPipe (server w) !! reqPathOf r) as [up|]; [|done].
    destruct (sender up) eqn:Hs; [eauto|].
    destruct (decide (getNReceivers r = nReceivers up)) as [Hsame|Hsame]; [|eauto].
    by rewrite decide_True in Hreg.
  - rewrite generateHandler_receiver by done.
    unfold receiver_registration in Hreg. cbn [req] in Hreg.
    unfold handleReceiver, refused. cbn [conn req]. rewrite accept_server.
    destruct (decide (getNReceivers r ≤ 0)) as [Hn|Hn]; [eauto|].
    destruct (decide (is_Some (pathToEstablished (server w) !! reqPathOf r))) as [Hest|Hest];
      [eauto|].
    apply eq_None_not_Some in Hest. rewrite decide_True in Hreg by (split; [lia|done]).
    destruct (pathToUnestablishedPipe (server w) !! reqPathOf r) as [up|]; [|done].
    destruct (decide (getNReceivers r = nReceivers up)) as [Hsame|Hsame]; [|eauto].
    destruct (decide (Z.of_nat (length (receivers up)) < nReceivers up)) as [Hroom|Hroom];
      [|eauto].
    by rewrite decide_True in Hreg.
  - unfold role_of in Hrole. unfold generateHandler, refused. cbn [conn req].
    case_decide as Hm.
    + case_decide; [eauto|done].
    + case_decide as Hg; [|eauto].
      case_decide as Hp; [|done].
      repeat (case_decide; [eauto|]).
      apply reserved_cases in Hp. tauto.
Qed.

Lemma generateHandler_incomplete useHttps rr w :
  incomplete (server w) →
  incomplete (server (generateHandler VERSION indexPage useHttps rr w)).
Proof.
  intros Hinc. unfold generateHandler.
  case_decide.
  - case_decide; [done|]. by apply handleSender_incomplete.
  - case_decide; [|done]. case_decide; [done|]. case_decide; [done|].
    case_decide; [done|]. by apply handleReceiver_incomplete.
Qed.

Lemma reachable_incomplete w : reachable VERSION indexPage w → incomplete (server w).
Proof.
  induction 1 as [|w e Hr IH].
  - intros p up. simpl. by rewrite lookup_empty.
  - destruct e as [useHttps r|e ev arg]; simpl.
    + by apply (generateHandler_incomplete useHttps (mkReqRes (nextConn (node w)) r)
                  (accept r w).2).
    + apply emit_incomplete; [|done]. by apply (reachable_records_ok VERSION indexPage).
Qed.

(** X12.  In every reachable world, the path of a record is not established,
    somebody waits in the record (it has a sender or at least one
    receiver), and a record with a sender has strictly fewer receivers
    than it expects: a complete record never stays in the dictionary. *)
Theorem X12_waiting_record_shape w p up :
  reachable VERSION indexPage w →
  pathToUnestablishedPipe (server w) !! p = Some up →
  pathToEstablished (server w) !! p = None ∧
  (is_Some (sender up) ∨ receivers up ≠ []) ∧
  (is_Some (sender up) → Z.of_nat (length (receivers up)) < nReceivers up).
Proof.
  intros Hr Hup.
  destruct (reachable_incomplete w Hr p up Hup) as [Hinc Hne].
  destruct (reachable_records_ok VERSION indexPage w Hr p up Hup) as [Hle _].
  split; [|split; [done|]].
  - apply (reachable_exclusive VERSION indexPage w Hr). eauto.
  - intros Hs. destruct (decide (Z.of_nat (length (receivers up)) = nReceivers up)) as [E|E];
      [|lia].
    destruct Hinc. by split.
Qed.

Lemma generateHandler_tidy useHttps rr w :
  tidy w → (conn rr < nextConn (node w))%nat → watchers (conn rr) (listeners (node w)) = [] →
  tidy (generateHandler VERSION indexPage useHttps rr w).
Proof.
  intros Ht Hlt Hnone. unfold generateHandler.
  case_decide.
  - case_decide; [done|]. by apply handleSender_tidy.
  - case_decide; [|done]. case_decide; [done|]. case_decide; [done|].
    case_decide; [done|]. by apply handleReceiver_tidy.
Qed.

Lemma step_tidy w e : well_formed w → tidy w → tidy (step VERSION indexPage w e).
Proof.
  intros Hwf [Hst Hw]. destruct e as [useHttps r|e ev arg]; simpl.
  - apply (generateHandler_tidy useHttps (mkReqRes (nextConn (node w)) r) (accept r w).2).
    + split; unfold accept; fields; [by apply st_bump|done].
    + unfold accept. fields. lia.
    + unfold accept. fields. by eapply st_unwatched.
  - by apply emit_tidy.
Qed.

Lemma reachable_tidy w : reachable VERSION indexPage w → tidy w.
Proof.
  induction 1 as [|w e Hr IH]; [apply tidy_init|].
  apply step_tidy; [by eapply reachable_wf|done].
Qed.

Lemma reachable_end_listener w t tr e :
  reachable VERSION indexPage w →
  transfers (node w) !! t = Some tr → t_senderData tr = Some e →
  List.filter (fires e ev_end) (listeners (node w)) =
    [mkListener e ev_end false (senderDataOnEnd t)].
Proof.
  intros Hr Ht Hsd.
  pose proof (reachable_wf VERSION indexPage w Hr) as Hwf.
  destruct (reachable_tidy w Hr) as [Hst _].
  apply filter_singleton_elem.
  - etransitivity; [apply (st_end _ _ _ Hst e)|apply (wf_error_once _ _ _ _ _ Hwf e)].
  - by apply (st_source _ _ _ Hst t tr e).
  - by apply fires_true.
Qed.

(** X13.  In a reachable world, when the source of a transfer emits ["end"],
    [end] is called on the response of the sender with
    [[INFO] Sending Successful!] (written as its last chunk unless the
    response had ended before), the established flag of the path is
    deleted and no other flag changes, the waiting records are unchanged
    and no connection is destroyed.  What the pipes of the runtime pass
    on to the responses of the receivers at this event is outside the
    embedding, and nothing is stated about those responses. *)
Theorem X13_source_end e t tr arg r w :
  reachable VERSION indexPage w →
  transfers (node w) !! t = Some tr →
  t_senderData tr = Some e →
  responses (node w) !! conn (pipe_sender (t_pipe tr)) = Some r →
  let w' := step VERSION indexPage w (Emit e ev_end arg) in
  responses (node w') !! conn (pipe_sender (t_pipe tr)) =
    Some (if finished r then r
          else mkResponse (statusCode r) (headWritten r) (resHeaders r)
                          (body r ++ ["[INFO] Sending Successful!" +:+ JS.nl]) true) ∧
  pathToEstablished (server w') = delete (t_path tr) (pathToEstablished (server w)) ∧
  pathToUnestablishedPipe (server w') = pathToUnestablishedPipe (server w) ∧
  destroyed (node w') = destroyed (node w).
Proof.
  intros Hr Ht Hsd Hresp w'. unfold w'. clear w'. cbn [step]. unfold emit.
  rewrite (reachable_end_listener w t tr e Hr Ht Hsd).
  destruct (reachable_tidy w Hr) as [Hst _].
  assert (set_listeners (List.filter (λ l, negb (fires e ev_end l && once l))) w = w) as ->.
  { unfold set_listeners, on_node. rewrite (once_filter_plain _ _ _ e ev_end Hst) by done.
    by destruct w as [s [? ? ? ? ? ?]]. }
  cbn [foldl handler runHandler]. unfold runSenderDataOnEnd. rewrite Ht. fields.
  rewrite lookup_alter_eq, Hresp. simpl. by destruct (finished r).
Qed.

(** X14.  In a reachable world, when the source of a transfer emits
    ["close"] while the response of the sender is still open (the source
    has then not ended, no receiver has been cut off as the last one, and
    the response of no receiver has finished, so that each
    [receiver.res.connection] is there to be destroyed), the connections
    destroyed afterwards are those destroyed before and those of all the
    receivers of the transfer; no response is written, and the frames and
    the established flags are unchanged. *)
Theorem X14_source_close e t tr arg r w :
  reachable VERSION indexPage w →
  transfers (node w) !! t = Some tr →
  t_senderData tr = Some e →
  responses (node w) !! conn (pipe_sender (t_pipe tr)) = Some r →
  finished r = false →
  let w' := step VERSION indexPage w (Emit e ev_close arg) in
  (∀ c, c ∈ destroyed (node w') ↔
        c ∈ destroyed (node w) ∨ c ∈ map conn (pipe_receivers (t_pipe tr))) ∧
  responses (node w') = responses (node w) ∧
  transfers (node w') = transfers (node w) ∧
  pathToEstablished (server w') = pathToEstablished (server w).
Proof.
  intros Hr Ht Hsd _ _ w'. unfold w'. clear w'. cbn [step]. unfold emit.
  pose proof (reachable_wf VERSION indexPage w Hr) as Hwf.
  destruct (reachable_tidy w Hr) as [Hst _].
  destruct (st_source _ _ _ Hst t tr e Ht Hsd) as [Hin _].
  set (Lt := mkListener e ev_close false (senderDataOnClose t)) in *.
  assert (close_listeners e (listeners (node w)) = [Lt]) as Hcl.
  { apply filter_singleton_elem; [|done|].
    - etransitivity; [apply (st_close _ _ _ Hst e)|apply (wf_error_once _ _ _ _ _ Hwf e)].
    - unfold Lt. simpl. rewrite andb_true_r. by apply fires_true. }
  set (fired := List.filter (fires e ev_close) (listeners (node w))).
  assert (Lt ∈ fired) as Hfired.
  { apply filter_elem_of. split; [done|]. by apply fires_true. }
  assert (Forall (λ l, (∃ ty rr p, handler l = closeListener ty rr p) ∨ l = Lt) fired)
    as Hall.
  { apply Forall_forall. intros l [Hl Hf]%filter_elem_of.
    destruct (once l) eqn:Ho.
    - left. pose proof (st_shape _ _ _ Hst l Hl) as Hsh. unfold shape in Hsh.
      apply fires_true in Hf as [_ Hev].
      destruct (handler l); [eauto|congruence|..].
      all: destruct Hsh as [_ Ho']; congruence.
    - right. assert (l ∈ close_listeners e (listeners (node w))) as Hlc.
      { apply filter_elem_of. split; [done|]. by rewrite Hf, Ho. }
      rewrite Hcl in Hlc. by apply list_elem_of_singleton in Hlc. }
  match goal with |- context [foldl ?f ?x fired] =>
    destruct (fold_source_close e t tr arg fired x Hall) as (H1 & H2 & H3 & H4) end.
  { by fields. }
  rewrite H1, H2, H3. fields. repeat split; try done.
  - intros Hc. apply H4 in Hc as [Hc|[_ Hc]]; [by left|by right].
  - intros [Hc|Hc]; apply H4; [by left|by right].
Qed.

(** When a waiting participant closes, its close-watcher is the only
    listener called. *)
Lemma waiting_close_fired w p up ty x :
  reachable VERSION indexPage w →
  pathToUnestablishedPipe (server w) !! p = Some up →
  (ty, x) ∈ participants up →
  List.filter (fires (OnReq (conn (reqRes x))) ev_close) (listeners (node w)) =
    [watcher ty (reqRes x) p].
Proof.
  intros Hr Hup Hx.
  pose proof (reachable_wf VERSION indexPage w Hr) as Hwf.
  destruct (reachable_tidy w Hr) as [Hst Hw].
  destruct (Hw p up ty x Hup Hx) as [_ Hin].
  destruct (record_group_facts w p up Hwf Hup) as [_ Hc].
  destruct (Hc (conn (reqRes x))) as (_ & Herr & _).
  { unfold conns_of. apply participants_sender in Hx as [[-> Hs]|[-> Hx]].
    - rewrite Hs. apply elem_of_app. left. apply list_elem_of_here.
    - apply elem_of_app. right. by apply (list_elem_of_fmap_2 (λ r, conn (reqRes r))). }
  apply filter_singleton_elem; [|done|by apply fires_true].
  rewrite (filter_split_length _ once).
  pose proof (st_watch _ _ _ Hst (conn (reqRes x))) as H1.
  pose proof (st_close _ _ _ Hst (OnReq (conn (reqRes x)))) as H2.
  rewrite Herr in H2. unfold watchers in H1. unfold close_listeners in H2. simpl in H2. lia.
Qed.

Lemma waiting_close_step w p up ty x arg :
  reachable VERSION indexPage w →
  pathToUnestablishedPipe (server w) !! p = Some up →
  (ty, x) ∈ participants up →
  step VERSION indexPage w (Emit (OnReq (conn (reqRes x))) ev_close arg) =
    runCloseListener ty (reqRes x) p
      (set_listeners (List.filter (λ l, negb (fires (OnReq (conn (reqRes x))) ev_close l
                                               && once l))) w).
Proof.
  intros Hr Hup Hx. cbn [step]. unfold emit.
  by rewrite (waiting_close_fired w p up ty x Hr Hup Hx).
Qed.

(** X15.  In a reachable world, when the request of the sender waiting in a
    record closes, the sender is removed from the record, and the record is
    deleted when no receiver waits in it; the established flags, all the
    responses (nobody is notified), the destroyed connections and the
    frames are unchanged. *)
Theorem X15_waiting_sender_closes w p up s arg :
  reachable VERSION indexPage w →
  pathToUnestablishedPipe (server w) !! p = Some up →
  sender up = Some s →
  let w' := step VERSION indexPage w (Emit (OnReq (conn (reqRes s))) ev_close arg) in
  pathToUnestablishedPipe (server w') =
    (if decide (receivers up = []) then delete p (pathToUnestablishedPipe (server w))
     else <[p := mkUnestablished None (receivers up) (nReceivers up)]>
            (pathToUnestablishedPipe (server w))) ∧
  pathToEstablished (server w') = pathToEstablished (server w) ∧
  responses (node w') = responses (node w) ∧
  destroyed (node w') = destroyed (node w) ∧
  transfers (node w') = transfers (node w).
Proof.
  intros Hr Hup Hs w'. unfold w'. clear w'.
  rewrite (waiting_close_step w p up sender_type s arg Hr Hup)
    by (apply participants_sender; by left).
  unfold runCloseListener. fields. rewrite Hup, Hs. fields.
  destruct (receivers up) as [|y rs] eqn:E.
  - rewrite decide_True by done. rewrite decide_True by done. by fields.
  - rewrite decide_False by by intros [? _]. rewrite decide_False by done. by fields.
Qed.

(** X16.  In a reachable world, when the request of a receiver waiting in a
    record closes, exactly that receiver is removed from the list, and the
    record is deleted when it was the only participant; the established
    flags, all the responses, the destroyed connections and the frames
    are unchanged. *)
Theorem X16_waiting_receiver_closes w p up idx x arg :
  reachable VERSION indexPage w →
  pathToUnestablishedPipe (server w) !! p = Some up →
  receivers up !! idx = Some x →
  let w' := step VERSION indexPage w (Emit (OnReq (conn (reqRes x))) ev_close arg) in
  pathToUnestablishedPipe (server w') =
    (if decide (length (receivers up) = 1%nat ∧ sender up = None)
     then delete p (pathToUnestablishedPipe (server w))
     else <[p := mkUnestablished (sender up) (delete idx (receivers up)) (nReceivers up)]>
            (pathToUnestablishedPipe (server w))) ∧
  pathToEstablished (server w') = pathToEstablished (server w) ∧
  responses (node w') = responses (node w) ∧
  destroyed (node w') = destroyed (node w) ∧
  transfers (node w') = transfers (node w).
Proof.
  intros Hr Hup Hx w'. unfold w'. clear w'.
  pose proof (reachable_wf VERSION indexPage w Hr) as Hwf.
  destruct (record_group_facts w p up Hwf Hup) as [Hnd _].
  rewrite (waiting_close_step w p up receiver_type x arg Hr Hup)
    by (apply participants_sender; right; split; [done|by eapply list_elem_of_lookup_2]).
  unfold runCloseListener. fields. rewrite Hup.
  rewrite (list_find_NoDup (λ r, conn (reqRes r)) _ idx x); [|  |done].
  2:{ unfold conns_of in Hnd. by apply NoDup_app in Hnd as (_ & _ & ?). }
  fields. rewrite length_delete by eauto.
  pose proof (lookup_lt_Some _ _ _ Hx) as Hlt.
  destruct (decide (length (receivers up) = 1%nat ∧ sender up = None)) as [[H1 H2]|Hn].
  - rewrite decide_True by (split; [lia|done]). by fields.
  - rewrite decide_False by (intros [? ?]; apply Hn; split; [lia|done]). by fields.
Qed.

(** The first request on a free path opens a record that holds it alone. *)
Lemma first_arrival_server useHttps r w :
  role_of r ≠ NoRole →
  0 < getNReceivers r →
  pathToEstablished (server w) !! reqPathOf r = None →
  pathToUnestablishedPipe (server w) !! reqPathOf r = None →
  ∃ ty up,
    server (step VERSION indexPage w (Arrive useHttps r)) =
      mkServer (pathToEstablished (server w))
               (<[reqPathOf r := up]> (pathToUnestablishedPipe (server w))) ∧
    participants up =
      [(ty, mkRRU (mkReqRes (nextConn (node w)) r)
                  (closeListener ty (mkReqRes (nextConn (node w)) r) (reqPathOf r)))].
Proof.
  intros Hrole Hn Hest Hup. rewrite step_arrive.
  destruct (role_of r) eqn:E; [| |done].
  - rewrite generateHandler_sender by done. exists sender_type. eexists.
    unfold handleSender, accept. fields.
    rewrite decide_False by lia.
    rewrite decide_False by (rewrite Hest; by intros [? ?]).
    rewrite Hup. fields. split; [reflexivity|done].
  - rewrite generateHandler_receiver by done. exists receiver_type. eexists.
    unfold handleReceiver, accept. fields.
    rewrite decide_False by lia.
    rewrite decide_False by (rewrite Hest; by intros [? ?]).
    rewrite Hup. fields. split; [reflexivity|done].
Qed.

(** X17.  In a reachable world, a sender or a receiver that arrives on a free
    path (not established, no record) and whose request closes next leaves
    the two dictionaries exactly as they were before it arrived. *)
Theorem X17_arrival_then_close_restores useHttps r arg w :
  reachable VERSION indexPage w →
  role_of r ≠ NoRole →
  0 < getNReceivers r →
  pathToEstablished (server w) !! reqPathOf r = None →
  pathToUnestablishedPipe (server w) !! reqPathOf r = None →
  server (step VERSION indexPage (step VERSION indexPage w (Arrive useHttps r))
            (Emit (OnReq (nextConn (node w))) ev_close arg)) = server w.
Proof.
  intros Hr Hrole Hn Hest Hup.
  destruct (first_arrival_server useHttps r w Hrole Hn Hest Hup) as (ty & up & Hsrv & Hpart).
  set (w1 := step VERSION indexPage w (Arrive useHttps r)) in *.
  assert (reachable VERSION indexPage w1) as Hr1 by by apply reachable_step.
  set (rr := mkReqRes (nextConn (node w)) r) in *.
  assert (pathToUnestablishedPipe (server w1) !! reqPathOf r = Some up) as Hup1.
  { rewrite Hsrv. simpl. by rewrite lookup_insert_eq. }
  assert ((ty, mkRRU rr (closeListener ty rr (reqPathOf r))) ∈ participants up) as Hin.
  { rewrite Hpart. apply list_elem_of_here. }
  pose proof (waiting_close_step w1 _ up ty _ arg Hr1 Hup1 Hin) as Hstep.
  cbn [reqRes conn] in Hstep. unfold rr at 1 in Hstep. cbn [conn] in Hstep.
  rewrite Hstep. unfold runCloseListener. fields. rewrite Hup1.
  apply participants_sender in Hin as Hcase.
  assert (∀ ty' x', (ty', x') ∈ participants up →
            ty' = ty ∧ x' = mkRRU rr (closeListener ty rr (reqPathOf r))) as Honly.
  { intros ty' x'. rewrite Hpart. by intros [= -> ->]%list_elem_of_singleton. }
  assert (server w = mkServer (pathToEstablished (server w))
            (delete (reqPathOf r) (pathToUnestablishedPipe (server w1)))) as Hback.
  { rewrite Hsrv. cbn [pathToUnestablishedPipe]. rewrite delete_insert_id by done.
    by destruct (server w). }
  assert (pathToEstablished (server w1) = pathToEstablished (server w)) as Hsame
    by by rewrite Hsrv.
  destruct Hcase as [[-> Hs]|[-> Hx]].
  - rewrite Hs. fields.
    assert (receivers up = []) as ->.
    { destruct (receivers up) as [|y rs] eqn:Hrs; [done|].
      destruct (Honly receiver_type y) as [[=] _].
      apply participants_sender. right. split; [done|]. rewrite Hrs. apply list_elem_of_here. }
    rewrite decide_True by done. fields. by rewrite Hsame, <- Hback.
  - assert (sender up = None) as Hs.
    { destruct (sender up) as [s|] eqn:Hs; [|done].
      destruct (Honly sender_type s) as [[=] _]. apply participants_sender. by left. }
    assert (receivers up = [mkRRU rr (closeListener receiver_type rr (reqPathOf r))]) as Hrs.
    { unfold participants in Hpart. rewrite Hs in Hpart. simpl in Hpart.
      destruct (receivers up) as [|y [|z rs]]; simpl in Hpart; [done| |done].
      by injection Hpart as ->. }
    rewrite Hrs, Hs. cbn [list_find]. rewrite decide_True by done. fields.
    rewrite decide_True by done. fields. by rewrite Hsame, <- Hback.
Qed.

Lemma arrival_outcome useHttps r w up :
  registration (mkReqRes (nextConn (node w)) r) w = Some up →
  registered_outcome (reqPathOf r) up (accept r w).2 (step VERSION indexPage w (Arrive useHttps r)).
Proof.
  unfold registration. cbn [req]. rewrite step_arrive.
  destruct (role_of r) eqn:Hrole; [| |done].
  - rewrite generateHandler_sender by done. intros Hreg.
    by apply handleSender_outcome.
  - rewrite generateHandler_receiver by done. intros Hreg.
    by apply handleReceiver_outcome.
Qed.

Lemma prefix_state useHttps p N w (pre : list Request) :
  reachable VERSION indexPage w →
  0 < N →
  pathToEstablished (server w) !! p = None →
  pathToUnestablishedPipe (server w) !! p = None →
  Forall (joins p N) pre →
  (length (List.filter is_sender (arrivals (nextConn (node w)) pre)) ≤ 1)%nat →
  Z.of_nat (length (List.filter (λ x, negb (is_sender x)) (arrivals (nextConn (node w)) pre)))
    ≤ N →
  ¬ (length (List.filter is_sender (arrivals (nextConn (node w)) pre)) = 1%nat ∧
     Z.of_nat (length (List.filter (λ x, negb (is_sender x))
                         (arrivals (nextConn (node w)) pre))) = N) →
  let w1 := run VERSION indexPage w (map (Arrive useHttps) pre) in
  reachable VERSION indexPage w1 ∧
  nextConn (node w1) = (nextConn (node w) + length pre)%nat ∧
  nextTransfer (node w1) = nextTransfer (node w) ∧
  pathToEstablished (server w1) !! p = None ∧
  pathToUnestablishedPipe (server w1) !! p =
    match arrivals (nextConn (node w)) pre with
    | [] => None
    | _ => Some (record_of p N (arrivals (nextConn (node w)) pre))
    end.
Proof.
  intros Hr HN Hest Hup. induction pre as [|r pre IH] using rev_ind;
    intros Hall Hs Hrc Hnc w1.
  - unfold w1. simpl. rewrite Nat.add_0_r. done.
  - apply Forall_app in Hall as [Hall Hlast]. rewrite Forall_singleton in Hlast.
    unfold joins in Hlast. destruct Hlast as (Hp & Hn & Hrole).
    rewrite arrivals_app in Hs, Hrc, Hnc |- *. cbn [arrivals] in Hs, Hrc, Hnc |- *.
    set (A := arrivals (nextConn (node w)) pre) in *.
    set (rr := mkReqRes (nextConn (node w) + length pre) r) in *.
    pose proof Hs as Hs'. pose proof Hrc as Hrc'.
    rewrite filter_snoc, length_app in Hs', Hrc'.
    assert (length (if is_sender rr then [rr] else []) +
            length (if negb (is_sender rr) then [rr] else []) = 1)%nat as Hone
      by (by destruct (is_sender rr)).
    destruct IH as (Hr1 & Hc1 & Ht1 & Hest1 & Hup1); [done|lia|lia|lia|].
    set (w0 := run VERSION indexPage w (map (Arrive useHttps) pre)) in *.
    assert (w1 = step VERSION indexPage w0 (Arrive useHttps r)) as Hw1.
    { unfold w1, w0. by rewrite map_app, run_app. }
    assert (registration (mkReqRes (nextConn (node w0)) r) w0
            = Some (record_of p N (A ++ [rr]))) as Hreg.
    { rewrite Hc1. by apply registration_next. }
    pose proof (arrival_outcome useHttps r w0 _ Hreg) as Hout.
    rewrite <- Hw1 in Hout. unfold registered_outcome in Hout.
    rewrite decide_False in Hout by (rewrite record_of_predicate by done; lia).
    destruct Hout as (Ho1 & Ho2 & Ho3 & Ho4). rewrite Hp in Ho2.
    split; [rewrite Hw1; by apply reachable_step|].
    split; [rewrite Ho1, length_app; unfold accept; fields; simpl; lia|].
    split; [rewrite Ho4; unfold accept; by fields|].
    split; [by rewrite Ho3|].
    rewrite Ho2. by destruct A.
Qed.

(** X18.  In a reachable world with path [p] free, when one sender and [N]
    receivers, all with receiver count [N] on [p], arrive one after the
    other in any order, the transfer is established with the last
    arrival: the flag of [p] is set, its record is gone, and the pipe of
    the frame holds the sender and the [N] receivers in their order of
    arrival. *)
Theorem X18_rendezvous_in_any_order useHttps p N w (rs : list Request) :
  reachable VERSION indexPage w →
  0 < N →
  pathToEstablished (server w) !! p = None →
  pathToUnestablishedPipe (server w) !! p = None →
  Forall (joins p N) rs →
  length (List.filter is_sender (arrivals (nextConn (node w)) rs)) = 1%nat →
  Z.of_nat (length (List.filter (λ x, negb (is_sender x)) (arrivals (nextConn (node w)) rs)))
    = N →
  let w' := run VERSION indexPage w (map (Arrive useHttps) rs) in
  pathToEstablished (server w') !! p = Some true ∧
  pathToUnestablishedPipe (server w') !! p = None ∧
  ∃ tr s, transfers (node w') !! nextTransfer (node w) = Some tr ∧
          t_path tr = p ∧
          List.filter is_sender (arrivals (nextConn (node w)) rs) = [s] ∧
          t_pipe tr =
            mkPipe s (List.filter (λ x, negb (is_sender x)) (arrivals (nextConn (node w)) rs)).
Proof.
  intros Hr HN Hest Hup Hall Hs Hrc w'.
  induction rs as [|r pre _] using rev_ind; [done|].
  apply Forall_app in Hall as [Hall Hlast]. rewrite Forall_singleton in Hlast.
  unfold joins in Hlast. destruct Hlast as (Hp & Hn & Hrole).
  rewrite arrivals_app in Hs, Hrc |- *. cbn [arrivals] in Hs, Hrc |- *.
  set (A := arrivals (nextConn (node w)) pre) in *.
  set (rr := mkReqRes (nextConn (node w) + length pre) r) in *.
  pose proof Hs as Hs'. pose proof Hrc as Hrc'.
  rewrite filter_snoc, length_app in Hs', Hrc'.
  assert (length (if is_sender rr then [rr] else []) +
          length (if negb (is_sender rr) then [rr] else []) = 1)%nat as Hone
    by (by destruct (is_sender rr)).
  destruct (prefix_state useHttps p N w pre Hr HN Hest Hup Hall) as (Hr1 & Hc1 & Ht1 & Hest1 & Hup1);
    [fold A; lia|fold A; lia|fold A; lia|].
  fold A in Hup1.
  set (w0 := run VERSION indexPage w (map (Arrive useHttps) pre)) in *.
  assert (w' = step VERSION indexPage w0 (Arrive useHttps r)) as Hw'.
  { unfold w', w0. by rewrite map_app, run_app. }
  assert (registration (mkReqRes (nextConn (node w0)) r) w0
          = Some (record_of p N (A ++ [rr]))) as Hreg.
  { rewrite Hc1. apply registration_next; try done; lia. }
  pose proof (arrival_outcome useHttps r w0 _ Hreg) as Hout.
  rewrite <- Hw' in Hout. unfold registered_outcome in Hout.
  rewrite decide_True in Hout by (rewrite record_of_predicate by lia; done).
  destruct Hout as (_ & Ho1 & Ho2 & _ & tr & s & Htr & Hpath & Hsend & Hpipe).
  rewrite Hp in Ho1, Ho2, Hpath. split; [done|]. split; [done|].
  change (nextTransfer (node (accept r w0).2)) with (nextTransfer (node w0)) in Htr.
  rewrite Ht1 in Htr. unfold record_of in Hsend, Hpipe. cbn [sender receivers] in Hsend, Hpipe.
  destruct (List.filter is_sender (A ++ [rr])) as [|s0 [|s1 l]] eqn:F; simpl in Hs; try lia.
  simpl in Hsend. injection Hsend as <-. exists tr, s0. split; [done|]. split; [done|].
  split; [done|]. rewrite Hpipe. cbn [reqRes]. f_equal.
  rewrite map_map. simpl. apply map_id.
Qed.

(** X20.  In a reachable world, once the request of a waiting participant has
    emitted ["close"], the same event delivered again changes nothing:
    the close-watcher was registered with [once]. *)
Theorem X20_waiting_close_twice w p up c arg arg' :
  reachable VERSION indexPage w →
  pathToUnestablishedPipe (server w) !! p = Some up →
  c ∈ conns_of up →
  step VERSION indexPage (step VERSION indexPage w (Emit (OnReq c) ev_close arg))
       (Emit (OnReq c) ev_close arg') =
  step VERSION indexPage w (Emit (OnReq c) ev_close arg).
Proof.
  intros Hr Hup (ty & x & Hx & <-)%conns_of_participant.
  rewrite (waiting_close_step w p up ty x arg Hr Hup Hx).
  pose proof (waiting_close_fired w p up ty x Hr Hup Hx) as Hfired.
  set (c := conn (reqRes x)) in *.
  set (F := λ l, negb (fires (OnReq c) ev_close l && once l)).
  set (w1 := runCloseListener ty (reqRes x) p (set_listeners (List.filter F) w)).
  assert (listeners (node w1) = List.filter F (listeners (node w))) as HL.
  { unfold w1. by rewrite runCloseListener_node. }
  cbn [step]. unfold emit. rewrite HL.
  assert (List.filter (fires (OnReq c) ev_close) (List.filter F (listeners (node w))) = [])
    as ->.
  { apply filter_nil_iff. intros l [Hl HF]%filter_elem_of.
    destruct (fires (OnReq c) ev_close l) eqn:Hf; [|done].
    assert (l ∈ List.filter (fires (OnReq c) ev_close) (listeners (node w))) as Hin
      by by apply filter_elem_of.
    rewrite Hfired in Hin. apply list_elem_of_singleton in Hin as ->.
    unfold F in HF. rewrite Hf in HF. done. }
  cbn [foldl]. fold F.
  assert (List.filter F (listeners (node w1)) = listeners (node w1)) as Hid.
  { rewrite HL. apply filter_filter_keep. done. }
  unfold set_listeners, on_node. rewrite Hid. by destruct w1 as [s [? ? ? ? ? ?]].
Qed.

Lemma generateHandler_calm useHttps rr w :
  calm w → well_formed w →
  (conn rr < nextConn (node w))%nat →
  ¬ waits (pathToUnestablishedPipe (server w)) (conn rr) →
  ¬ promoted (transfers (node w)) (conn rr) →
  responses (node w) !! conn rr = Some newResponse →
  calm (generateHandler VERSION indexPage useHttps rr w).
Proof.
  intros Hcalm Hwf Hlt Hnw Hnp Hnew. unfold generateHandler.
  assert (∀ msg, calm (end_ (conn rr) msg w)) as Hend.
  { intros msg. apply (calm_other w _ (conn rr) Hcalm); try done.
    intros c Hne. fields. by rewrite lookup_alter_ne. }
  case_decide.
  - case_decide; [by apply refused_calm|]. by apply handleSender_calm.
  - case_decide; [|done]. case_decide; [done|]. case_decide; [done|].
    case_decide; [done|]. by apply handleReceiver_calm.
Qed.

Lemma step_calm w e : well_formed w → calm w → calm (step VERSION indexPage w e).
Proof.
  intros Hwf Hcalm. destruct e as [useHttps r|e ev arg]; simpl; [|by apply emit_calm].
  pose proof Hcalm as [HP HQ].
  assert (¬ waits (pathToUnestablishedPipe (server w)) (nextConn (node w))) as Hnw.
  { intros (q & uq & Hq & Hc). destruct (record_group_facts w q uq Hwf Hq) as [_ Hg].
    destruct (Hg _ Hc) as [Hlt _]. lia. }
  assert (¬ promoted (transfers (node w)) (nextConn (node w))) as Hnp.
  { intros Hp. destruct (HP _ Hp) as [Hlt _]. lia. }
  apply (generateHandler_calm useHttps (mkReqRes (nextConn (node w)) r) (accept r w).2).
  - unfold accept. split; fields.
    + intros c Hc. destruct (HP c Hc). split; [lia|done].
    + intros q uq c Hq Hc. rewrite lookup_insert_ne; [by apply (HQ q uq)|].
      intros <-. apply Hnw. by exists q, uq.
  - unfold well_formed, accept. fields. by apply wf_bump.
  - unfold accept. fields. lia.
  - done.
  - done.
  - unfold accept. fields. by rewrite lookup_insert_eq.
Qed.

Lemma reachable_calm w : reachable VERSION indexPage w → calm w.
Proof.
  induction 1 as [|w e Hr IH]; [apply calm_init|].
  apply step_calm; [by eapply reachable_wf|done].
Qed.

(** X21.  In every reachable world, a receiver that waits in a record has been
    sent nothing: its response is the one the runtime created, without
    head and without chunk; and the response of a sender that waits in a
    record is open, with the default status 200 and no head written. *)
Theorem X21_waiting_untouched w p up :
  reachable VERSION indexPage w →
  pathToUnestablishedPipe (server w) !! p = Some up →
  (∀ x, x ∈ receivers up → responses (node w) !! conn (reqRes x) = Some newResponse) ∧
  (∀ s, sender up = Some s →
     ∃ r, responses (node w) !! conn (reqRes s) = Some r ∧
          finished r = false ∧ headWritten r = false ∧ statusCode r = 200).
Proof.
  intros Hr Hup. destruct (reachable_calm w Hr) as [_ HQ]. split.
  - intros x Hx.
    assert (conn (reqRes x) ∈ map (λ x, conn (reqRes x)) (receivers up)) as Hin
      by by apply (list_elem_of_fmap_2 (λ x, conn (reqRes x))).
    destruct (HQ p up (conn (reqRes x)) Hup) as (r & Hr0 & _ & _ & _ & Hn).
    { apply conns_of_elem. by right. }
    by rewrite Hr0, (Hn Hin).
  - intros s Hs. destruct (HQ p up (conn (reqRes s)) Hup) as (r & Hr0 & Hf & Hh & Hst & _).
    { apply conns_of_elem. left. eauto. }
    eauto.
Qed.

(** X22.  In every reachable world, a connection that takes part in a transfer
    (as its sender or as one of its receivers, the transfer running or
    over) waits in no record: what the listeners of a transfer do to their
    connections never reaches a waiting participant. *)
Theorem X22_transfer_connections_do_not_wait w t tr c p up :
  reachable VERSION indexPage w →
  transfers (node w) !! t = Some tr →
  c ∈ pipe_conns (t_pipe tr) →
  pathToUnestablishedPipe (server w) !! p = Some up →
  c ∉ conns_of up.
Proof.
  intros Hr Ht Hc Hup Hin. destruct (reachable_calm w Hr) as [HP _].
  destruct (HP c) as [_ Hnw]; [by exists t, tr|]. apply Hnw. by exists p, up.
Qed.

End Behaviour.

(** ** The end-to-end scenarios of the specification *)

(** S1: the receiver first, then the sender; the source ends. *)
Example scenario_one_to_one :
  content <$> responses (node (runSample (one_to_one ++ [Emit (OnReq 1) ev_end noPart])))
    !! 1%nat =
    Some (["[INFO] Waiting for 1 receiver(s)..." +:+ JS.nl;
           "[INFO] 1 receiver(s) has/have been connected." +:+ JS.nl;
           "Start sending!" +:+ JS.nl;
           "[INFO] Sending Successful!" +:+ JS.nl], true) ∧
  statusCode <$> responses (node (runSample one_to_one)) !! 0%nat = Some 200 ∧
  pathToEstablished (server (runSample (one_to_one ++ [Emit (OnReq 1) ev_end noPart])))
    !! "/foo" = None.
Proof. repeat split; by vm_compute. Qed.

(** S2: the sender first. *)
Example scenario_sender_first :
  content <$> responses (node (runSample [Arrive false (post "/bar" JS.QUndefined)]))
    !! 0%nat = Some (["[INFO] Waiting for 1 receiver(s)..." +:+ JS.nl], false) ∧
  content <$> responses (node (runSample [Arrive false (post "/bar" JS.QUndefined);
                                          Arrive false (get "/bar" JS.QUndefined);
                                          Emit (OnReq 0) ev_end noPart])) !! 0%nat =
    Some (["[INFO] Waiting for 1 receiver(s)..." +:+ JS.nl;
           "[INFO] A receiver was connected." +:+ JS.nl;
           "[INFO] Start sending with 1 receiver(s)!" +:+ JS.nl;
           "[INFO] Sending Successful!" +:+ JS.nl], true).
Proof. split; by vm_compute. Qed.

(** S3: three receivers, then the sender: the transfer starts with the
    three receivers in their order of arrival. *)
Example scenario_fan_out_three :
  t_pipe <$> transfers (node (runSample [Arrive false (get "/x" (JS.QString "3"));
                                         Arrive false (get "/x" (JS.QString "3"));
                                         Arrive false (get "/x" (JS.QString "3"));
                                         Arrive false (post "/x" (JS.QString "3"))]))
    !! 0%nat =
    Some (mkPipe (mkReqRes 3 (post "/x" (JS.QString "3")))
                 [mkReqRes 0 (get "/x" (JS.QString "3"));
                  mkReqRes 1 (get "/x" (JS.QString "3"));
                  mkReqRes 2 (get "/x" (JS.QString "3"))]).
Proof. by vm_compute. Qed.

(** S4: the counts disagree. *)
Example scenario_count_mismatch :
  responses (node (runSample [Arrive false (get "/y" (JS.QString "2"));
                              Arrive false (post "/y" (JS.QString "3"))])) !! 1%nat =
    Some (mkResponse 400 true []
            ["Error: The number of receivers should be 2 but 3." +:+ JS.nl] true).
Proof. by vm_compute. Qed.

(** S5: sending to a reserved path. *)
Example scenario_reserved_path :
  responses (node (runSample [Arrive false (post "/version" JS.QUndefined)])) !! 0%nat =
    Some (mkResponse 400 true []
            ["[ERROR] Cannot send to a reserved path '/version'. (e.g. '/mypath123')"
             +:+ JS.nl] true).
Proof. by vm_compute. Qed.

(** S6: the only receiver closes during the transfer. *)
Example scenario_receiver_drops :
  content <$> responses (node (runSample (one_to_one ++ [Emit (OnReq 0) ev_close noPart])))
    !! 1%nat =
    Some (["[INFO] Waiting for 1 receiver(s)..." +:+ JS.nl;
           "[INFO] 1 receiver(s) has/have been connected." +:+ JS.nl;
           "Start sending!" +:+ JS.nl;
           "[INFO] All receiver(s) was/were closed halfway." +:+ JS.nl], true) ∧
  destroyed (node (runSample (one_to_one ++ [Emit (OnReq 0) ev_close noPart]))) = {[1%nat]}.
Proof. split; by vm_compute. Qed.

(** A multipart sender: the receiver gets its headers from the part, once
    the form has delivered it. *)
Example scenario_multipart :
  responses (node (runSample
      [Arrive false (get "/m" JS.QUndefined);
       Arrive false (mkRequest "POST" "/m" JS.QUndefined
                       (Some "multipart/form-data; boundary=x") (Some "120") None None)]))
    !! 0%nat = Some newResponse ∧
  responses (node (runSample
      [Arrive false (get "/m" JS.QUndefined);
       Arrive false (mkRequest "POST" "/m" JS.QUndefined
                       (Some "multipart/form-data; boundary=x") (Some "120") None None);
       Emit (OnForm 0) ev_part (mkPart (Some 5) (Some "text/plain"))]))
    !! 0%nat =
    Some (mkResponse 200 true [("Content-Length", "5"); ("Content-Type", "text/plain")]
                     [] false).
Proof. split; by vm_compute. Qed.

(** ** Two scenarios the code mishandles *)

(** C2, at the failing input.  Once the transfer of [one_to_one] is
    established, the close-watcher of the receiver is gone from its
    request while the close-watcher of the sender is still installed on
    the sender's request.  When that request closes after the transfer
    has ended and a second sender waits on the path, the watcher removes
    the second sender and its record. *)
Theorem C2_sender_watcher_not_revoked :
  pathToEstablished (server (runSample one_to_one)) !! "/foo" = Some true ∧
  List.filter (fires (OnReq 1) ev_close) (listeners (node (runSample one_to_one))) =
    [mkListener (OnReq 1) ev_close true
       (closeListener sender_type (mkReqRes 1 (post "/foo" JS.QUndefined)) "/foo");
     mkListener (OnReq 1) ev_close false (senderDataOnClose 0)] ∧
  List.filter (fires (OnReq 0) ev_close) (listeners (node (runSample one_to_one))) =
    [mkListener (OnReq 0) ev_close false
       (receiverOnClose 0 (mkReqRes 0 (get "/foo" JS.QUndefined)))] ∧
  pathToUnestablishedPipe (server (runSample second_sender)) !! "/foo" =
    Some (mkUnestablished
            (Some (mkRRU (mkReqRes 2 (post "/foo" JS.QUndefined))
                         (closeListener sender_type (mkReqRes 2 (post "/foo" JS.QUndefined))
                                        "/foo")))
            [] 1) ∧
  pathToUnestablishedPipe (server (runSample first_sender_closes)) !! "/foo" = None.
Proof. repeat split; by vm_compute. Qed.

(** C4, at the failing input.  In a transfer with two receivers, the
    ["error"] and the ["close"] event of the first receiver bring the
    close-count to 2: the sender is sent
    [[INFO] All receiver(s) was/were closed halfway.], its connection is
    destroyed and the established flag is cleared, while the second
    receiver is still piped from the source. *)
Theorem C4_close_count_counts_events :
  (t_pipe <$> transfers (node (runSample first_receiver_fails)) !! 0%nat) =
    Some (mkPipe (mkReqRes 2 (post "/z" (JS.QString "2")))
                 [mkReqRes 0 (get "/z" (JS.QString "2"));
                  mkReqRes 1 (get "/z" (JS.QString "2"))]) ∧
  (closeCount <$> transfers (node (runSample first_receiver_fails)) !! 0%nat) = Some 2 ∧
  (piped <$> transfers (node (runSample first_receiver_fails)) !! 0%nat) = Some [1%nat] ∧
  (content <$> responses (node (runSample first_receiver_fails)) !! 2%nat) =
    Some (["[INFO] Waiting for 2 receiver(s)..." +:+ JS.nl;
           "[INFO] 2 receiver(s) has/have been connected." +:+ JS.nl;
           "Start sending!" +:+ JS.nl;
           "[INFO] All receiver(s) was/were closed halfway." +:+ JS.nl], true) ∧
  destroyed (node (runSample first_receiver_fails)) = {[2%nat]} ∧
  pathToEstablished (server (runSample fan_out_two)) !! "/z" = Some true ∧
  pathToEstablished (server (runSample first_receiver_fails)) !! "/z" = None.
Proof. repeat split; by vm_compute. Qed.

(** ** Where the specification departs from the code *)

(** In the transfer of [one_to_one] the source is the request of
    connection 1 and the receiver is connection 0.  After the source emits
    ["error"] no connection has been destroyed.  And when the receiver has
    closed before, which ends the response of the sender, the ["error"] of
    the source writes nothing to it. *)
Lemma C3_counterexample :
  transfers (node (runSample one_to_one)) !! 0%nat = Some one_to_one_transfer ∧
  destroyed (node (runSample (one_to_one ++ [Emit (OnReq 1) ev_error noPart]))) = ∅ ∧
  content <$> responses (node (runSample (one_to_one ++ [Emit (OnReq 0) ev_close noPart;
                                                         Emit (OnReq 1) ev_error noPart])))
    !! 1%nat =
    Some (["[INFO] Waiting for 1 receiver(s)..." +:+ JS.nl;
           "[INFO] 1 receiver(s) has/have been connected." +:+ JS.nl;
           "Start sending!" +:+ JS.nl;
           "[INFO] All receiver(s) was/were closed halfway." +:+ JS.nl], true).
Proof. repeat split; by vm_compute. Qed.

(** [n=2.5] is not an integer, and the receiver count read from it is 2,
    not 1. *)
Lemma C5_counterexample :
  JS.is_integer_literal "2.5" = false ∧
  getNReceivers (get "/foo" (JS.QString "2.5")) = 2 ∧
  getNReceivers (get "/foo" (JS.QString "2.5")) ≠ 1.
Proof. repeat split; by vm_compute. Qed.

(** A sender with [n=0] arriving on the established path [/foo] is answered
    with the message about [n], not with the one about the established
    connection. *)
Lemma C7_counterexample :
  pathToEstablished (server (runSample one_to_one)) !! "/foo" = Some true ∧
  reqPathOf (post "/foo" (JS.QString "0")) = "/foo" ∧
  responses (node (runSample (one_to_one ++ [Arrive false (post "/foo" (JS.QString "0"))])))
    !! 2%nat =
    Some (mkResponse 400 true [] ["[ERROR] n should > 0, but n = 0." +:+ JS.nl] true) ∧
  responses (node (runSample (one_to_one ++ [Arrive false (post "/foo" (JS.QString "0"))])))
    !! 2%nat ≠
    Some (mkResponse 400 true []
            ["[ERROR] Connection on '/foo' has been established already." +:+ JS.nl] true).
Proof. repeat split; by vm_compute. Qed.

(** ** The theorems at concrete inputs *)

Lemma sample_reachable es : reachable sampleVersion sampleIndexPage (runSample es).
Proof. apply reachable_run. Qed.

Lemma foo_not_reserved : "/foo" ∉ RESERVED_PATHS.
Proof.
  intros H. apply reserved_cases in H as [H|[H|H]]; discriminate H.
Qed.

Lemma version_reserved : "/version" ∈ RESERVED_PATHS.
Proof. apply list_elem_of_further, list_elem_of_here. Qed.

Lemma help_reserved : "/help" ∈ RESERVED_PATHS.
Proof. do 2 apply list_elem_of_further. apply list_elem_of_here. Qed.

Lemma C1_witness :
  started (runSample lone_receiver)
    (step sampleVersion sampleIndexPage (runSample lone_receiver)
       (Arrive false (post "/foo" JS.QUndefined))) ∧
  pathToUnestablishedPipe
    (server (step sampleVersion sampleIndexPage init (Arrive false (get "/foo" JS.QUndefined))))
    !! "/foo" = Some lone_receiver_record ∧
  server (step sampleVersion sampleIndexPage init (Arrive false (get "/" JS.QUndefined)))
    = server init.
Proof.
  split; [|split].
  - apply (proj1 (C1_establishment_equivalence sampleVersion sampleIndexPage false
                    (post "/foo" JS.QUndefined) (runSample lone_receiver))).
    eexists. split; [vm_compute; reflexivity|].
    split; [vm_compute; eauto|vm_compute; reflexivity].
  - apply (proj1 (proj2 (C1_establishment_equivalence sampleVersion sampleIndexPage false
                           (get "/foo" JS.QUndefined) init))).
    + vm_compute; reflexivity.
    + intros [[x Hx] _]. vm_compute in Hx. discriminate Hx.
  - apply (proj1 (proj2 (proj2 (C1_establishment_equivalence sampleVersion sampleIndexPage
                                  false (get "/" JS.QUndefined) init)))).
    vm_compute; reflexivity.
Defined.

Lemma C3_witness :
  responses (node (step sampleVersion sampleIndexPage (runSample one_to_one)
                     (Emit (OnReq 1) ev_error noPart))) !! 1%nat =
    Some (mkResponse 200 false []
            (body one_to_one_sender_response ++ ["[ERROR] Sending Failed." +:+ JS.nl]) true) ∧
  pathToEstablished (server (step sampleVersion sampleIndexPage (runSample one_to_one)
                               (Emit (OnReq 1) ev_error noPart))) !! "/foo" = None ∧
  destroyed (node (step sampleVersion sampleIndexPage (runSample one_to_one)
                     (Emit (OnReq 1) ev_error noPart)))
    = destroyed (node (runSample one_to_one)).
Proof.
  apply (C3_source_error sampleVersion sampleIndexPage (OnReq 1) 0%nat one_to_one_transfer
           noPart one_to_one_sender_response (runSample one_to_one)
           (reachable_run sampleVersion sampleIndexPage one_to_one));
    vm_compute; reflexivity.
Defined.

Lemma C5_witness :
  getNReceivers (get "/foo" JS.QUndefined) = 1 ∧
  getNReceivers (get "/foo" (JS.QString "abc")) = 1 ∧
  (∃ ws sg d rest,
     JS.all_white ws = true ∧ (sg = "" ∨ sg = "+" ∨ sg = "-") ∧ d ≠ Decimal.Nil ∧
     JS.starts_digit rest = false ∧
     " +007px" = ws +:+ sg +:+ NilEmpty.string_of_uint d +:+ rest) ∧
  getNReceivers (get "/foo" (JS.QString " +007px")) = 7 ∧
  getNReceivers (get "/foo" (JS.QString "-3.5")) = -3 ∧
  getNReceivers (get "/foo" (JS.QString "9007199254740993")) = 9007199254740992 ∧
  (server (step sampleVersion sampleIndexPage init
             (Arrive false (post "/foo" (JS.QString "-1")))) = server init ∧
   listeners (node (step sampleVersion sampleIndexPage init
                      (Arrive false (post "/foo" (JS.QString "-1"))))) = [] ∧
   responses (node (step sampleVersion sampleIndexPage init
                      (Arrive false (post "/foo" (JS.QString "-1"))))) !! 0%nat =
     Some (mkResponse 400 true [] ["[ERROR] n should > 0, but n = -1." +:+ JS.nl] true)).
Proof.
  split; [|split; [|split; [|split; [|split; [|split]]]]].
  - apply (proj1 (C5_receiver_count sampleVersion sampleIndexPage false
                    (get "/foo" JS.QUndefined) init)). reflexivity.
  - apply (proj1 (proj2 (C5_receiver_count sampleVersion sampleIndexPage false
                           (get "/foo" (JS.QString "abc")) init))). reflexivity.
  - apply (proj1 (proj2 (proj2 (C5_receiver_count sampleVersion sampleIndexPage false
                                  (get "/foo" (JS.QString " +007px")) init)))).
    reflexivity.
  - apply (proj1 (proj2 (proj2 (proj2 (C5_receiver_count sampleVersion sampleIndexPage false
             (get "/foo" (JS.QString " +007px")) init))))
             " " "+" (Decimal.D0 (Decimal.D0 (Decimal.D7 Decimal.Nil))) "px");
      [reflexivity|right; left; reflexivity|discriminate|reflexivity|reflexivity
      |vm_compute; discriminate].
  - apply (proj1 (proj2 (proj2 (proj2 (C5_receiver_count sampleVersion sampleIndexPage false
             (get "/foo" (JS.QString "-3.5")) init))))
             "" "-" (Decimal.D3 Decimal.Nil) ".5");
      [reflexivity|right; right; reflexivity|discriminate|reflexivity|reflexivity
      |vm_compute; discriminate].
  - apply (proj1 (proj2 (proj2 (proj2 (C5_receiver_count sampleVersion sampleIndexPage false
             (get "/foo" (JS.QString "9007199254740993")) init))))
             "" "" (Pos.to_uint 9007199254740993) "");
      [reflexivity|left; reflexivity|discriminate|reflexivity|reflexivity].
  - apply (proj2 (proj2 (proj2 (proj2 (C5_receiver_count sampleVersion sampleIndexPage false
             (post "/foo" (JS.QString "-1")) init))))).
    + vm_compute. discriminate.
    + vm_compute. discriminate.
Defined.

Lemma C6_witness :
  ∃ resp,
    responses (node (step sampleVersion sampleIndexPage (runSample lone_receiver)
                       (Arrive false (post "/foo" JS.QUndefined)))) !! 1%nat = Some resp ∧
    finished resp = false ∧
    body resp = ["[INFO] Waiting for 1 receiver(s)..." +:+ JS.nl;
                 "[INFO] 1 receiver(s) has/have been connected." +:+ JS.nl;
                 "Start sending!" +:+ JS.nl].
Proof.
  apply (proj1 (C6_sender_joins_record sampleVersion sampleIndexPage false
                  (post "/foo" JS.QUndefined) (runSample lone_receiver) lone_receiver_record
                  (sample_reachable lone_receiver) (or_introl eq_refl) foo_not_reserved
                  eq_refl eq_refl eq_refl)).
Defined.

Lemma C7_witness :
  responses (node (step sampleVersion sampleIndexPage (runSample one_to_one)
                     (Arrive false (post "/foo" JS.QUndefined)))) !! 2%nat =
    Some (mkResponse 400 true []
            ["[ERROR] Connection on '/foo' has been established already." +:+ JS.nl] true) ∧
  responses (node (step sampleVersion sampleIndexPage (runSample one_to_one)
                     (Arrive false (get "/foo" JS.QUndefined)))) !! 2%nat =
    Some (mkResponse 400 true []
            ["Error: Connection on '/foo' has been established already." +:+ JS.nl] true).
Proof.
  split.
  - apply (proj1 (C7_already_established sampleVersion sampleIndexPage false
                    (post "/foo" JS.QUndefined) (runSample one_to_one)
                    (sample_reachable one_to_one) eq_refl (ex_intro _ true eq_refl))).
    by left.
  - apply (proj2 (C7_already_established sampleVersion sampleIndexPage false
                    (get "/foo" JS.QUndefined) (runSample one_to_one)
                    (sample_reachable one_to_one) eq_refl (ex_intro _ true eq_refl))).
    reflexivity.
Defined.

Lemma C8_witness :
  records_ok (server (runSample lone_receiver)) ∧
  records_ok (server (step sampleVersion sampleIndexPage (runSample lone_receiver)
                        (Arrive false (post "/foo" JS.QUndefined)))) ∧
  records_ok (server (runCloseListener receiver_type (mkReqRes 0 (get "/foo" JS.QUndefined))
                        "/foo" (runSample lone_receiver))).
Proof.
  pose proof (C8_record_bounds sampleVersion sampleIndexPage) as (Hreach & Hstep & Hclose).
  pose proof (Hreach (runSample lone_receiver) (sample_reachable lone_receiver)) as Hok.
  split; [exact Hok|]. split; [by apply Hstep|by apply Hclose].
Defined.

Lemma C9_witness :
  server (step sampleVersion sampleIndexPage init (Arrive false delete_request)) = server init ∧
  responses (node (step sampleVersion sampleIndexPage init (Arrive false delete_request)))
    !! 0%nat =
    Some (mkResponse 200 false [] ["Error: Unsupported method: DELETE" +:+ JS.nl] true).
Proof.
  apply (C9_unsupported_method sampleVersion sampleIndexPage false delete_request init);
    discriminate.
Defined.

Lemma C10_witness :
  (pathToUnestablishedPipe (server (runSample [Arrive false (post "/version" JS.QUndefined)]))
     !! "/version" = None ∧
   pathToEstablished (server (runSample [Arrive false (post "/version" JS.QUndefined)]))
     !! "/version" = None) ∧
  generateHandler sampleVersion sampleIndexPage false
    (mkReqRes 0 (post "/version" JS.QUndefined)) init =
    end_ 0 ("[ERROR] Cannot send to a reserved path '/version'. (e.g. '/mypath123')" +:+ JS.nl)
         (writeHead 0 400 [] init) ∧
  ∃ page, generateHandler sampleVersion sampleIndexPage false
            (mkReqRes 0 (get "/help" JS.QUndefined)) init = end_ 0 page init.
Proof.
  pose proof (C10_reserved_paths_never_registered sampleVersion sampleIndexPage)
    as (Hreach & Hpost & Hget).
  split; [|split].
  - apply Hreach; [apply sample_reachable|apply version_reserved].
  - apply (Hpost false (mkReqRes 0 (post "/version" JS.QUndefined)) init);
      [by left|apply version_reserved].
  - apply (Hget false (mkReqRes 0 (get "/help" JS.QUndefined)) init);
      [done|apply help_reserved].
Defined.

(** ** The further theorems at concrete inputs *)

Lemma bar_not_reserved : "/bar" ∉ RESERVED_PATHS.
Proof.
  intros H. apply reserved_cases in H as [H|[H|H]]; discriminate H.
Qed.

Lemma X2_witness :
  getNReceivers (get "/foo" (JS.QArray ["2"; "3"])) =
  getNReceivers (get "/foo" (JS.QString "2")).
Proof.
  apply (X2_repeated_n_first_decides (get "/foo" (JS.QArray ["2"; "3"]))
           (get "/foo" (JS.QString "2")) "2" ["3"]); reflexivity.
Defined.

Lemma X3_witness :
  responses (node (runPipe "/foo" (mkPipe (mkReqRes 1 typed_sender)
                                          [mkReqRes 0 (get "/foo" JS.QUndefined)])
                     (runSample lone_receiver))) !! 0%nat =
    Some (mkResponse 200 true [("Content-Length", "5"); ("Content-Type", "text/plain")]
                     [] false).
Proof.
  rewrite (X3_runPipe_writes_heads "/foo"
             (mkPipe (mkReqRes 1 typed_sender) [mkReqRes 0 (get "/foo" JS.QUndefined)])
             (runSample lone_receiver) 0%nat eq_refl).
  vm_compute. reflexivity.
Defined.

Lemma X4_witness :
  responses (node (runPipe "/m" (mkPipe (mkReqRes 1 multipart_sender)
                                        [mkReqRes 0 (get "/m" JS.QUndefined)])
                     (runSample [Arrive false (get "/m" JS.QUndefined)])))
    = responses (node (runSample [Arrive false (get "/m" JS.QUndefined)])) ∧
  responses (node (emit (OnForm 0) ev_part text_part
                     (runPipe "/m" (mkPipe (mkReqRes 1 multipart_sender)
                                           [mkReqRes 0 (get "/m" JS.QUndefined)])
                        (runSample [Arrive false (get "/m" JS.QUndefined)])))) !! 0%nat =
    Some (mkResponse 200 true [("Content-Length", "5"); ("Content-Type", "text/plain")]
                     [] false).
Proof.
  destruct (X4_multipart_heads_wait_for_part "/m"
              (mkPipe (mkReqRes 1 multipart_sender) [mkReqRes 0 (get "/m" JS.QUndefined)])
              (runSample [Arrive false (get "/m" JS.QUndefined)]) text_part 0%nat
              eq_refl eq_refl) as [H1 H2].
  split; [exact H1|]. etransitivity; [exact H2|]. vm_compute. reflexivity.
Defined.

Lemma X5_witness :
  server (step sampleVersion sampleIndexPage init (Arrive false (post "/bar" JS.QUndefined)))
    = mkServer ∅ (<["/bar" := lone_sender_record]> ∅) ∧
  responses (node (step sampleVersion sampleIndexPage init
                     (Arrive false (post "/bar" JS.QUndefined)))) =
    <[0%nat := mkResponse 200 false [] ["[INFO] Waiting for 1 receiver(s)..." +:+ JS.nl]
                          false]> ∅.
Proof.
  destruct (X5_sender_opens_record sampleVersion sampleIndexPage false
              (post "/bar" JS.QUndefined) init (or_introl eq_refl) bar_not_reserved
              eq_refl eq_refl eq_refl) as (H1 & H2 & _).
  split; [exact H1|exact H2].
Defined.

Lemma X6_witness :
  server (step sampleVersion sampleIndexPage init (Arrive false (get "/foo" JS.QUndefined)))
    = mkServer ∅ (<["/foo" := lone_receiver_record]> ∅) ∧
  responses (node (step sampleVersion sampleIndexPage init
                     (Arrive false (get "/foo" JS.QUndefined)))) = <[0%nat := newResponse]> ∅.
Proof.
  destruct (X6_receiver_opens_record sampleVersion sampleIndexPage false
              (get "/foo" JS.QUndefined) init eq_refl foo_not_reserved
              eq_refl eq_refl eq_refl) as (H1 & H2 & _).
  split; [exact H1|exact H2].
Defined.

Lemma X7_witness :
  step sampleVersion sampleIndexPage (runSample lone_sender)
       (Arrive false (post "/bar" (JS.QString "5"))) =
    refused (post "/bar" (JS.QString "5"))
            ("[ERROR] Another sender has been registered on '/bar'." +:+ JS.nl)
            (runSample lone_sender).
Proof.
  apply (X7_duplicate_sender_refused sampleVersion sampleIndexPage false
           (post "/bar" (JS.QString "5")) (runSample lone_sender) lone_sender_record
           lone_sender_party (sample_reachable lone_sender) (or_introl eq_refl)
           bar_not_reserved eq_refl eq_refl eq_refl).
Defined.

Lemma X8_witness :
  step sampleVersion sampleIndexPage (runSample lone_receiver)
       (Arrive false (post "/foo" (JS.QString "3"))) =
    refused (post "/foo" (JS.QString "3"))
            ("Error: The number of receivers should be 1 but 3." +:+ JS.nl)
            (runSample lone_receiver).
Proof.
  apply (X8_count_mismatch_refused sampleVersion sampleIndexPage false
           (post "/foo" (JS.QString "3")) (runSample lone_receiver) lone_receiver_record
           (sample_reachable lone_receiver)).
  - vm_compute. discriminate.
  - reflexivity.
  - reflexivity.
  - intros _. reflexivity.
  - vm_compute. discriminate.
Defined.

Lemma X9_witness :
  step sampleVersion sampleIndexPage (runSample lone_receiver)
       (Arrive false (get "/foo" JS.QUndefined)) =
    refused (get "/foo" JS.QUndefined)
            ("Error: The number of receivers has reached limits." +:+ JS.nl)
            (runSample lone_receiver).
Proof.
  apply (X9_receivers_full_refused sampleVersion sampleIndexPage false
           (get "/foo" JS.QUndefined) (runSample lone_receiver) lone_receiver_record
           (sample_reachable lone_receiver) eq_refl foo_not_reserved eq_refl eq_refl eq_refl).
Defined.

Lemma X10_witness :
  content <$> responses (node (step sampleVersion sampleIndexPage (runSample lone_sender)
                                 (Arrive false (get "/bar" JS.QUndefined)))) !! 0%nat =
    Some (["[INFO] Waiting for 1 receiver(s)..." +:+ JS.nl;
           "[INFO] A receiver was connected." +:+ JS.nl;
           "[INFO] Start sending with 1 receiver(s)!" +:+ JS.nl], false).
Proof.
  apply (proj1 (X10_receiver_joins_record sampleVersion sampleIndexPage false
                  (get "/bar" JS.QUndefined) (runSample lone_sender) lone_sender_record
                  (sample_reachable lone_sender) eq_refl bar_not_reserved eq_refl eq_refl
                  eq_refl)
           lone_sender_party
           (mkResponse 200 false [] ["[INFO] Waiting for 1 receiver(s)..." +:+ JS.nl] false)
           eq_refl eq_refl eq_refl).
Defined.

Lemma X11_witness :
  ∃ msg,
    step sampleVersion sampleIndexPage init (Arrive false delete_request)
      = refused delete_request msg init ∨
    step sampleVersion sampleIndexPage init (Arrive false delete_request)
      = end_ 0 msg (accept delete_request init).2.
Proof.
  apply (X11_unregistered_request_only_answered sampleVersion sampleIndexPage false
           delete_request init). reflexivity.
Defined.

Lemma X12_witness :
  pathToEstablished (server (runSample lone_receiver)) !! "/foo" = None ∧
  (is_Some (sender lone_receiver_record) ∨ receivers lone_receiver_record ≠ []) ∧
  (is_Some (sender lone_receiver_record) →
   Z.of_nat (length (receivers lone_receiver_record)) < nReceivers lone_receiver_record).
Proof.
  apply (X12_waiting_record_shape sampleVersion sampleIndexPage (runSample lone_receiver)
           "/foo" lone_receiver_record (sample_reachable lone_receiver) eq_refl).
Defined.

Lemma X13_witness :
  responses (node (step sampleVersion sampleIndexPage (runSample one_to_one)
                     (Emit (OnReq 1) ev_end noPart))) !! 1%nat =
    Some (mkResponse 200 false []
            (body one_to_one_sender_response ++ ["[INFO] Sending Successful!" +:+ JS.nl])
            true) ∧
  pathToEstablished (server (step sampleVersion sampleIndexPage (runSample one_to_one)
                               (Emit (OnReq 1) ev_end noPart))) =
    delete "/foo" (pathToEstablished (server (runSample one_to_one))).
Proof.
  destruct (X13_source_end sampleVersion sampleIndexPage (OnReq 1) 0%nat one_to_one_transfer
              noPart one_to_one_sender_response (runSample one_to_one)
              (sample_reachable one_to_one) eq_refl eq_refl eq_refl)
    as (H1 & H2 & _).
  split; [exact H1|exact H2].
Defined.

Lemma X14_witness :
  (∀ c, c ∈ destroyed (node (step sampleVersion sampleIndexPage (runSample one_to_one)
                                (Emit (OnReq 1) ev_close noPart))) ↔
        c ∈ destroyed (node (runSample one_to_one)) ∨ c ∈ [0%nat]) ∧
  responses (node (step sampleVersion sampleIndexPage (runSample one_to_one)
                     (Emit (OnReq 1) ev_close noPart)))
    = responses (node (runSample one_to_one)).
Proof.
  destruct (X14_source_close sampleVersion sampleIndexPage (OnReq 1) 0%nat one_to_one_transfer
              noPart one_to_one_sender_response (runSample one_to_one)
              (sample_reachable one_to_one) eq_refl eq_refl eq_refl eq_refl)
    as (H1 & H2 & _).
  split; [exact H1|exact H2].
Defined.

Lemma X15_witness :
  pathToUnestablishedPipe (server (step sampleVersion sampleIndexPage (runSample lone_sender)
                                     (Emit (OnReq 0) ev_close noPart))) =
    delete "/bar" (pathToUnestablishedPipe (server (runSample lone_sender))) ∧
  responses (node (step sampleVersion sampleIndexPage (runSample lone_sender)
                     (Emit (OnReq 0) ev_close noPart)))
    = responses (node (runSample lone_sender)).
Proof.
  destruct (X15_waiting_sender_closes sampleVersion sampleIndexPage (runSample lone_sender)
              "/bar" lone_sender_record lone_sender_party noPart
              (sample_reachable lone_sender) eq_refl eq_refl) as (H1 & _ & H2 & _).
  split; [exact H1|exact H2].
Defined.

Lemma X16_witness :
  pathToUnestablishedPipe (server (step sampleVersion sampleIndexPage (runSample lone_receiver)
                                     (Emit (OnReq 0) ev_close noPart))) =
    delete "/foo" (pathToUnestablishedPipe (server (runSample lone_receiver))) ∧
  responses (node (step sampleVersion sampleIndexPage (runSample lone_receiver)
                     (Emit (OnReq 0) ev_close noPart)))
    = responses (node (runSample lone_receiver)).
Proof.
  destruct (X16_waiting_receiver_closes sampleVersion sampleIndexPage (runSample lone_receiver)
              "/foo" lone_receiver_record 0%nat
              (mkRRU (mkReqRes 0 (get "/foo" JS.QUndefined))
                     (closeListener receiver_type (mkReqRes 0 (get "/foo" JS.QUndefined))
                                    "/foo"))
              noPart (sample_reachable lone_receiver) eq_refl eq_refl) as (H1 & _ & H2 & _).
  split; [exact H1|exact H2].
Defined.

Lemma X17_witness :
  server (step sampleVersion sampleIndexPage
            (step sampleVersion sampleIndexPage (runSample one_to_one)
               (Arrive false (get "/bar" JS.QUndefined)))
            (Emit (OnReq 2) ev_close noPart)) = server (runSample one_to_one).
Proof.
  apply (X17_arrival_then_close_restores sampleVersion sampleIndexPage false
           (get "/bar" JS.QUndefined) noPart (runSample one_to_one)
           (sample_reachable one_to_one)).
  - vm_compute. discriminate.
  - reflexivity.
  - reflexivity.
  - reflexivity.
Defined.

Lemma X18_witness :
  pathToEstablished (server (runSample (map (Arrive false) fan_in))) !! "/x" = Some true ∧
  pathToUnestablishedPipe (server (runSample (map (Arrive false) fan_in))) !! "/x" = None ∧
  ∃ tr s, transfers (node (runSample (map (Arrive false) fan_in))) !! 0%nat = Some tr ∧
          t_path tr = "/x" ∧
          List.filter is_sender (arrivals 0 fan_in) = [s] ∧
          t_pipe tr = mkPipe s (List.filter (λ x, negb (is_sender x)) (arrivals 0 fan_in)).
Proof.
  apply (X18_rendezvous_in_any_order sampleVersion sampleIndexPage false "/x" 3 init fan_in
           (reachable_init sampleVersion sampleIndexPage)).
  - reflexivity.
  - reflexivity.
  - reflexivity.
  - repeat constructor; vm_compute; discriminate.
  - reflexivity.
  - reflexivity.
Defined.

Lemma X20_witness :
  step sampleVersion sampleIndexPage
       (step sampleVersion sampleIndexPage (runSample lone_receiver)
             (Emit (OnReq 0) ev_close noPart))
       (Emit (OnReq 0) ev_close noPart) =
  step sampleVersion sampleIndexPage (runSample lone_receiver)
       (Emit (OnReq 0) ev_close noPart).
Proof.
  apply (X20_waiting_close_twice sampleVersion sampleIndexPage (runSample lone_receiver)
           "/foo" lone_receiver_record 0%nat noPart noPart
           (sample_reachable lone_receiver) eq_refl).
  apply list_elem_of_here.
Defined.

Lemma X21_witness :
  (∀ x, x ∈ receivers lone_receiver_record →
        responses (node (runSample lone_receiver)) !! conn (reqRes x) = Some newResponse) ∧
  (∀ s, sender lone_receiver_record = Some s →
     ∃ r, responses (node (runSample lone_receiver)) !! conn (reqRes s) = Some r ∧
          finished r = false ∧ headWritten r = false ∧ statusCode r = 200).
Proof.
  apply (X21_waiting_untouched sampleVersion sampleIndexPage (runSample lone_receiver)
           "/foo" lone_receiver_record (sample_reachable lone_receiver) eq_refl).
Defined.

Lemma X22_witness :
  transfers (node (runSample bystander)) !! 0%nat = Some one_to_one_transfer ∧
  1%nat ∉ conns_of bystander_record.
Proof.
  split; [reflexivity|].
  apply (X22_transfer_connections_do_not_wait sampleVersion sampleIndexPage
           (runSample bystander) 0%nat one_to_one_transfer 1%nat "/bar" bystander_record
           (sample_reachable bystander) eq_refl).
  - apply list_elem_of_here.
  - reflexivity.
Defined.
